(** * Loop-carry elimination (LoopCarry.cpp): a shallow embedding

    The pass detects loads of one loop iteration that coincide with loads
    of the previous iteration and carries them through a scratch buffer.
    This file embeds the functions of [LoopCarry.cpp] over a tree model of
    the statement/expression IR and proves properties of them.

    Conventions.
    - Expressions and statements are trees; a node handle is the tree
      itself.  [graph_equal] is structural equality.
    - An undefined handle ([Expr()], [Stmt()]) is [None].
    - A computation that reads a vector out of range, calls [back()] on
      an empty vector, or fails an internal assertion, yields [None].
    - The host compiler's simplifier, CSE pass, solver, substitutions and
      fresh-name supply are fields of a [Host] record. *)

From Stdlib Require Import ZArith Lia Ascii Sorted.
From stdpp Require Import base list strings relations pretty.

Local Open Scope Z_scope.

(** ** Types of the IR *)

Inductive TypeCode := TInt | TUInt | TFloat | THandle.

Record Type_ := mkType { code : TypeCode; bits : Z; lanes : Z }.

Definition Int (b : Z) : Type_ := mkType TInt b 1.
Definition UInt (b : Z) : Type_ := mkType TUInt b 1.
Definition Bool_ (n : Z) : Type_ := mkType TUInt 1 n.

Definition with_lanes (t : Type_) (n : Z) : Type_ := mkType (code t) (bits t) n.
Definition element_of (t : Type_) : Type_ := with_lanes t 1.
Definition is_scalar (t : Type_) : bool := lanes t =? 1.

Definition TypeCode_eqb (a b : TypeCode) : bool :=
  match a, b with
  | TInt, TInt | TUInt, TUInt | TFloat, TFloat | THandle, THandle => true
  | _, _ => false
  end.

Definition Type_eqb (a b : Type_) : bool :=
  TypeCode_eqb (code a) (code b) && (bits a =? bits b) && (lanes a =? lanes b).

Record ModulusRemainder := mkMR { modulus : Z; remainder : Z }.
Definition ModulusRemainder0 : ModulusRemainder := mkMR 1 0.

Definition ModulusRemainder_eqb (a b : ModulusRemainder) : bool :=
  (modulus a =? modulus b) && (remainder a =? remainder b).

Inductive CallType := PureIntrinsic | Intrinsic | Extern.

Definition CallType_eqb (a b : CallType) : bool :=
  match a, b with
  | PureIntrinsic, PureIntrinsic | Intrinsic, Intrinsic | Extern, Extern => true
  | _, _ => false
  end.

(** ** Expressions

    Modelled from the spec: the IR node definitions are not part of
    [LoopCarry.cpp]; the variants and fields are those of the spec's data
    model, with [UIntImm] for the boolean constant of [const_true] and the
    comparisons [EQ] and [GT] that the pass builds.  A load's bound-image
    tag and parameter tag are optional names. *)

#[warnings="-register-all"]
Inductive Expr :=
| Var (type : Type_) (name : string)
| IntImm (type : Type_) (value : Z)
| UIntImm (type : Type_) (value : Z)
| Add (a b : Expr)
| Sub (a b : Expr)
| Mul (a b : Expr)
| EQ (a b : Expr)
| GT (a b : Expr)
| Ramp (base stride : Expr) (n : Z)
| Broadcast (value : Expr) (n : Z)
| Load (type : Type_) (name : string) (index predicate : Expr)
       (image param : option string) (alignment : ModulusRemainder)
| Let (name : string) (value body : Expr)
| Call (type : Type_) (name : string) (args : list Expr) (call_type : CallType).

(** [e.type()]: stored on leaves, loads and calls, inherited from the
    operands elsewhere, as the node constructors compute it. *)
Fixpoint type_of (e : Expr) : Type_ :=
  match e with
  | Var t _ | IntImm t _ | UIntImm t _ => t
  | Add a _ | Sub a _ | Mul a _ => type_of a
  | EQ a _ | GT a _ => Bool_ (lanes (type_of a))
  | Ramp b _ n => with_lanes (type_of b) (n * lanes (type_of b))
  | Broadcast v n => with_lanes (type_of v) (n * lanes (type_of v))
  | Load t _ _ _ _ _ _ => t
  | Let _ _ b => type_of b
  | Call t _ _ _ => t
  end.

Definition option_string_eqb (a b : option string) : bool :=
  match a, b with
  | Some x, Some y => String.eqb x y
  | None, None => true
  | _, _ => false
  end.

(** [graph_equal] on expressions: structural equality of the two trees. *)
Fixpoint graph_equal (x y : Expr) {struct x} : bool :=
  match x, y with
  | Var t n, Var t' n' => Type_eqb t t' && String.eqb n n'
  | IntImm t v, IntImm t' v' => Type_eqb t t' && (v =? v')
  | UIntImm t v, UIntImm t' v' => Type_eqb t t' && (v =? v')
  | Add a b, Add a' b' | Sub a b, Sub a' b' | Mul a b, Mul a' b'
  | EQ a b, EQ a' b' | GT a b, GT a' b' =>
      graph_equal a a' && graph_equal b b'
  | Ramp a b n, Ramp a' b' n' =>
      graph_equal a a' && graph_equal b b' && (n =? n')
  | Broadcast a n, Broadcast a' n' => graph_equal a a' && (n =? n')
  | Load t nm i p im pa al, Load t' nm' i' p' im' pa' al' =>
      Type_eqb t t' && String.eqb nm nm' && graph_equal i i' && graph_equal p p'
      && option_string_eqb im im' && option_string_eqb pa pa'
      && ModulusRemainder_eqb al al'
  | Let n v b, Let n' v' b' =>
      String.eqb n n' && graph_equal v v' && graph_equal b b'
  | Call t n args ct, Call t' n' args' ct' =>
      Type_eqb t t' && String.eqb n n' && CallType_eqb ct ct'
      && (fix all2 (l l' : list Expr) : bool :=
            match l, l' with
            | [], [] => true
            | e :: r, e' :: r' => graph_equal e e' && all2 r r'
            | _, _ => false
            end) args args'
  | _, _ => false
  end.

(** ** Trivial constructors and predicates of the host

    Modelled from the spec: [is_const_zero], [is_const_one], [make_zero]
    and [const_true] are the host's trivial constructors and predicates.
    A constant is an immediate, or a broadcast of one. *)

Fixpoint is_const_zero (e : Expr) : bool :=
  match e with
  | IntImm _ v | UIntImm _ v => v =? 0
  | Broadcast v _ => is_const_zero v
  | _ => false
  end.

Fixpoint is_const_one (e : Expr) : bool :=
  match e with
  | IntImm _ v | UIntImm _ v => v =? 1
  | Broadcast v _ => is_const_one v
  | _ => false
  end.

Definition make_const (t : Type_) (v : Z) : Expr :=
  let imm := match code t with
             | TInt => IntImm (element_of t) v
             | _ => UIntImm (element_of t) v
             end in
  if is_scalar t then imm else Broadcast imm (lanes t).

Definition make_zero (t : Type_) : Expr := make_const t 0.
Definition const_true (n : Z) : Expr := make_const (Bool_ n) 1.

(** ** Scopes

    [Scope<T>] maps a name to a stack of values; [get] reads the innermost
    binding.  An association list with the newest binding first has the
    same [push]/[pop]/[contains]/[get]. *)

Definition Scope (T : Type) := list (string * T).

Definition Scope_push {T} (name : string) (v : T) (s : Scope T) : Scope T :=
  (name, v) :: s.

Fixpoint Scope_get {T} (s : Scope T) (name : string) : option T :=
  match s with
  | [] => None
  | (n, v) :: rest => if String.eqb n name then Some v else Scope_get rest name
  end.

Definition Scope_contains {T} (s : Scope T) (name : string) : bool :=
  match Scope_get s name with Some _ => true | None => false end.

(** The linear scope binds a name to its per-iteration step, or to the
    undefined expression when the name moves non-linearly. *)
Definition LinearScope := Scope (option Expr).

(** ** is_linear (LoopCarry.cpp, lines 25-84)

    The binary operators [la + lb], [la - lb], [a * lb] build the node
    after unifying the operand types; all operands here have type
    [Int(32)], so the node is built directly. *)

Definition defined {A} (o : option A) : bool :=
  match o with Some _ => true | None => false end.

Definition is_const_zero_opt (o : option Expr) : bool :=
  match o with Some e => is_const_zero e | None => false end.

Definition binop (f : Expr -> Expr -> Expr) (x y : option Expr) : option Expr :=
  match x, y with
  | Some a, Some b => Some (f a b)
  | _, _ => None
  end.

Fixpoint is_linear (e : Expr) (linear : LinearScope) : option Expr :=
  if negb (Type_eqb (type_of e) (Int 32)) then None else
  match e with
  | Var t name =>
      if Scope_contains linear name then
        match Scope_get linear name with Some step => step | None => None end
      else Some (make_zero t)
  | IntImm t _ => Some (make_zero t)
  | Add a b =>
      let la := is_linear a linear in
      let lb := is_linear b linear in
      if is_const_zero_opt lb then la
      else if is_const_zero_opt la then lb
      else if defined la && defined lb then binop Add la lb
      else None
  | Sub a b =>
      let la := is_linear a linear in
      let lb := is_linear b linear in
      if is_const_zero_opt lb then la
      else if defined la && defined lb then binop Sub la lb
      else None
  | Mul a b =>
      let la := is_linear a linear in
      let lb := is_linear b linear in
      if is_const_zero_opt la && is_const_zero_opt lb then la
      else if is_const_zero_opt la && defined lb then binop Mul (Some a) lb
      else if defined la && is_const_zero_opt lb then binop Mul la (Some b)
      else None
  | Ramp base stride _ =>
      let la := is_linear base linear in
      let lb := is_linear stride linear in
      if is_const_zero_opt lb then la else None
  | Broadcast v _ => is_linear v linear
  | _ => None
  end.

(** ** Denotation of Int(32) expressions

    [eval rho opaque e] is the value of the first lane of [e] with the
    variables read from [rho]; for a scalar that is its value.  The
    arithmetic is that of 32-bit signed integers, wrapping around.  Nodes
    outside the arithmetic fragment (loads, calls, comparisons, lets) get
    their value from [opaque]. *)

Definition wrap32 (z : Z) : Z := (z + 2 ^ 31) mod 2 ^ 32 - 2 ^ 31.

Fixpoint eval (rho : string -> Z) (opaque : Expr -> Z) (e : Expr) : Z :=
  match e with
  | Var _ x => wrap32 (rho x)
  | IntImm _ v | UIntImm _ v => wrap32 v
  | Add a b => wrap32 (eval rho opaque a + eval rho opaque b)
  | Sub a b => wrap32 (eval rho opaque a - eval rho opaque b)
  | Mul a b => wrap32 (eval rho opaque a * eval rho opaque b)
  | Ramp b _ _ => eval rho opaque b
  | Broadcast v _ => eval rho opaque v
  | _ => wrap32 (opaque e)
  end.

(** [shift_vars delta e]: [e] with every variable [x] for which [delta]
    gives an increment [d] replaced by [x + d]. *)
Fixpoint shift_vars (delta : string -> option Expr) (e : Expr) : Expr :=
  match e with
  | Var t x => match delta x with Some d => Add (Var t x) d | None => Var t x end
  | IntImm _ _ | UIntImm _ _ => e
  | Add a b => Add (shift_vars delta a) (shift_vars delta b)
  | Sub a b => Sub (shift_vars delta a) (shift_vars delta b)
  | Mul a b => Mul (shift_vars delta a) (shift_vars delta b)
  | EQ a b => EQ (shift_vars delta a) (shift_vars delta b)
  | GT a b => GT (shift_vars delta a) (shift_vars delta b)
  | Ramp a b n => Ramp (shift_vars delta a) (shift_vars delta b) n
  | Broadcast a n => Broadcast (shift_vars delta a) n
  | Load t nm i p im pa al =>
      Load t nm (shift_vars delta i) (shift_vars delta p) im pa al
  | Let n v b => Let n (shift_vars delta v) (shift_vars delta b)
  | Call t n args ct => Call t n (map (shift_vars delta) args) ct
  end.

(** The increment of the spec's sentence: one for every tracked name. *)
Definition delta_one (linear : LinearScope) (x : string) : option Expr :=
  if Scope_contains linear x then Some (IntImm (Int 32) 1) else None.

(** The increment the scope records: the step bound to the name. *)
Definition delta_step (linear : LinearScope) (x : string) : option Expr :=
  match Scope_get linear x with
  | Some (Some step) => Some step
  | _ => None
  end.

(** ** Statements

    Modelled from the spec: the statement variants and fields are those of
    the spec's data model, with [Evaluate] as the one further leaf and the
    two pass-through fields of [For] that the pass copies.  An absent else
    branch is the undefined statement. *)

Inductive ForType := Serial | Parallel | Vectorized | Unrolled.
Inductive Partition := PartitionAuto | PartitionNever | PartitionAlways.
Inductive DeviceAPI := DeviceNone | DeviceHost | DeviceGPU.
Inductive MemoryType := MemAuto | MemHeap | MemStack | MemRegister.

#[warnings="-register-all"]
Inductive Stmt :=
| LetStmt (name : string) (value : Expr) (body : Stmt)
| Store (name : string) (value index : Expr) (param : option string)
        (predicate : Expr) (alignment : ModulusRemainder)
| Block (first rest : Stmt)
| For (name : string) (min extent : Expr) (for_type : ForType)
      (partition_policy : Partition) (device_api : DeviceAPI) (body : Stmt)
| IfThenElse (condition : Expr) (then_case : Stmt) (else_case : option Stmt)
| ProducerConsumer (name : string) (is_producer : bool) (body : Stmt)
| Allocate (name : string) (type : Type_) (memory_type : MemoryType)
           (extents : list Expr) (condition : Expr) (body : Stmt)
| Evaluate (value : Expr).

Definition is_Store (s : Stmt) : bool :=
  match s with Store _ _ _ _ _ _ => true | _ => false end.

Definition is_Block (s : Stmt) : bool :=
  match s with Block _ _ => true | _ => false end.

(** Modelled from the spec: a block is an ordered sequence of statements
    in right-associative pair form.  [Block::make] belongs to the IR, not
    to [LoopCarry.cpp]: [Block::make(first, rest)] keeps the pair form by
    re-nesting a [first] that is itself a block, and [Block::make(vector)]
    folds the vector from its last element and gives the undefined
    statement for an empty vector. *)
Fixpoint Block_make (first rest : Stmt) : Stmt :=
  match first with
  | Block a b => Block a (Block_make b rest)
  | _ => Block first rest
  end.

Fixpoint Block_make_list (stmts : list Stmt) : option Stmt :=
  match stmts with
  | [] => None
  | [s] => Some s
  | s :: rest =>
      match Block_make_list rest with
      | Some r => Some (Block_make s r)
      | None => None
      end
  end.

(** ** block_to_vector (LoopCarry.cpp, lines 108-123) *)
Fixpoint block_to_vector (s : Stmt) : list Stmt :=
  match s with
  | Block first rest => block_to_vector first ++ block_to_vector rest
  | _ => [s]
  end.

(** ** scratch_index (lines 125-131)

    [i * t.lanes()] is a product of [int]s; the model has its value in
    [Z], which is the value of the code as long as the product is below
    [2 ^ 31]. *)
Definition scratch_index (i : Z) (t : Type_) : Expr :=
  if is_scalar t then IntImm (Int 32) i
  else Ramp (IntImm (Int 32) (i * lanes t)) (IntImm (Int 32) 1) (lanes t).

(** ** The host compiler

    The collaborators the pass calls as black boxes.  [unique_name] reads
    a global counter; the pass threads the counter and the host turns a
    prefix and a counter value into a name. *)
Record Host := mkHost {
  simplify : Expr -> Expr;
  common_subexpression_elimination : Expr -> Expr;
  common_subexpression_elimination_stmt : Stmt -> Stmt;
  substitute_in_all_lets : Expr -> Expr;
  substitute_in_all_lets_stmt : Stmt -> Stmt;
  substitute : string -> Expr -> Stmt -> Stmt;
  graph_substitute : Expr -> Expr -> Stmt -> Stmt;
  can_prove : Expr -> bool;
  stmt_uses_var : Stmt -> string -> bool;
  unique_name : Ascii.ascii -> nat -> string
}.

(** ** StepForwards (lines 137-182)

    The graph mutator rebuilds every node from its mutated children; only
    [Variable] is overridden.  The [success] flag is the second component:
    it stays [true] as long as no visited variable is bound to the
    undefined step. *)
Fixpoint StepForwards_mutate (linear : LinearScope) (e : Expr) : Expr * bool :=
  let m := StepForwards_mutate linear in
  match e with
  | Var _ name =>
      if Scope_contains linear name then
        match Scope_get linear name with
        | Some (Some step) =>
            if is_const_zero step then (e, true) else (Add e step, true)
        | _ => (e, false)
        end
      else (e, true)
  | IntImm _ _ | UIntImm _ _ => (e, true)
  | Add a b => (Add (m a).1 (m b).1, (m a).2 && (m b).2)
  | Sub a b => (Sub (m a).1 (m b).1, (m a).2 && (m b).2)
  | Mul a b => (Mul (m a).1 (m b).1, (m a).2 && (m b).2)
  | EQ a b => (EQ (m a).1 (m b).1, (m a).2 && (m b).2)
  | GT a b => (GT (m a).1 (m b).1, (m a).2 && (m b).2)
  | Ramp a b n => (Ramp (m a).1 (m b).1 n, (m a).2 && (m b).2)
  | Broadcast a n => (Broadcast (m a).1 n, (m a).2)
  | Load t nm i p im pa al =>
      (Load t nm (m i).1 (m p).1 im pa al, (m p).2 && (m i).2)
  | Let n v b => (Let n (m v).1 (m b).1, (m v).2 && (m b).2)
  | Call t n args ct =>
      (Call t n (map (fun a => (m a).1) args) ct,
       forallb (fun a => (m a).2) args)
  end.

Definition step_forwards (H : Host) (e : Expr) (linear : LinearScope)
  : option Expr :=
  let (e', success) := StepForwards_mutate linear e in
  if negb success then None
  else
    let e1 := common_subexpression_elimination H e' in
    let e2 := simplify H e1 in
    Some (substitute_in_all_lets H e2).

(** ** FindLoads (lines 86-105)

    A found load is kept with its fields.  The visitor walks the
    statement in the order of the graph visitor and does not enter a
    load.  In the tree model every occurrence is a handle of its own;
    occurrences that share a node in the graph are listed more than once
    and end up in the same group. *)
Record LoadNode := mkLoad {
  ld_type : Type_;
  ld_name : string;
  ld_index : Expr;
  ld_predicate : Expr;
  ld_image : option string;
  ld_param : option string;
  ld_alignment : ModulusRemainder
}.

Definition Load_expr (l : LoadNode) : Expr :=
  Load (ld_type l) (ld_name l) (ld_index l) (ld_predicate l)
       (ld_image l) (ld_param l) (ld_alignment l).

Fixpoint FindLoads_expr (e : Expr) : list LoadNode :=
  match e with
  | Var _ _ | IntImm _ _ | UIntImm _ _ => []
  | Add a b | Sub a b | Mul a b | EQ a b | GT a b | Ramp a b _ | Let _ a b =>
      FindLoads_expr a ++ FindLoads_expr b
  | Broadcast a _ => FindLoads_expr a
  | Load t nm i p im pa al => [mkLoad t nm i p im pa al]
  | Call _ _ args _ => flat_map FindLoads_expr args
  end.

Fixpoint FindLoads (s : Stmt) : list LoadNode :=
  match s with
  | LetStmt _ v b => FindLoads_expr v ++ FindLoads b
  | Store _ value index _ predicate _ =>
      FindLoads_expr predicate ++ FindLoads_expr value ++ FindLoads_expr index
  | Block a b => FindLoads a ++ FindLoads b
  | For _ mn ext _ _ _ b => FindLoads_expr mn ++ FindLoads_expr ext ++ FindLoads b
  | IfThenElse c t e =>
      FindLoads_expr c ++ FindLoads t
        ++ match e with Some e' => FindLoads e' | None => [] end
  | ProducerConsumer _ _ b => FindLoads b
  | Allocate _ _ _ extents c b =>
      flat_map FindLoads_expr extents ++ FindLoads_expr c ++ FindLoads b
  | Evaluate v => FindLoads_expr v
  end.

(** ** Grouping equal loads (lines 261-282) *)

(** The safety test of line 265. *)
Definition safe (in_consume : Scope unit) (load : LoadNode) : bool :=
  defined (ld_image load) || defined (ld_param load)
  || Scope_contains in_consume (ld_name load).

(** The inner loop of lines 273-278: the load joins every group whose
    first member it equals; the flag is [represented]. *)
Fixpoint add_to_groups (load : LoadNode) (loads : list (list LoadNode))
  : list (list LoadNode) * bool :=
  match loads with
  | [] => ([], false)
  | v :: rest =>
      let (rest', represented) := add_to_groups load rest in
      match v with
      | v0 :: _ =>
          if graph_equal (Load_expr load) (Load_expr v0)
          then ((v ++ [load]) :: rest', true)
          else (v :: rest', represented)
      | [] => (v :: rest', represented)
      end
  end.

Definition group_step (in_consume : Scope unit)
  (loads : list (list LoadNode)) (load : LoadNode) : list (list LoadNode) :=
  if negb (safe in_consume load) then loads
  else
    let (loads', represented) := add_to_groups load loads in
    if represented then loads' else loads' ++ [[load]].

Definition group_loads (in_consume : Scope unit) (found : list LoadNode)
  : list (list LoadNode) :=
  fold_left (group_step in_consume) found [].

(** ** Stepping the groups forwards (lines 284-314)

    Row [i] holds entry [i] of the vectors [indices], [next_indices],
    [predicates], [next_predicates] and of their CSE-d versions, together
    with the buffer name of [loads[i][0]]. *)
Record GroupInfo := mkInfo {
  buffer : string;
  indices : Expr;
  next_indices : option Expr;
  predicates : Expr;
  next_predicates : option Expr;
  indices_csed : Expr;
  next_indices_csed : option Expr;
  predicates_csed : Expr;
  next_predicates_csed : option Expr
}.

Definition group_info (H : Host) (linear : LinearScope) (v0 : LoadNode)
  : GroupInfo :=
  let cse := common_subexpression_elimination H in
  let ni := step_forwards H (ld_index v0) linear in
  let np := step_forwards H (ld_predicate v0) linear in
  mkInfo (ld_name v0)
         (ld_index v0) ni (ld_predicate v0) np
         (cse (ld_index v0)) (cse <$> ni)
         (cse (ld_predicate v0)) (cse <$> np).

(** [v[0]] of every group; a group without a first member has none. *)
Definition group_infos (H : Host) (linear : LinearScope)
  (loads : list (list LoadNode)) : option (list GroupInfo) :=
  mapM (fun v => group_info H linear <$> head v) loads.

(** ** Carry-edge detection (lines 316-341) *)

(** One side of the test of lines 330-334: the stepped expression is
    defined, and equals the other by [graph_equal] or, for equal types,
    by [can_prove] on the CSE-d versions. *)
Definition reusable (H : Host) (e : Expr) (next : option Expr)
  (e_csed : Expr) (next_csed : option Expr) : bool :=
  match next, next_csed with
  | Some n, Some nc =>
      graph_equal e n
      || (Type_eqb (type_of e) (type_of n) && can_prove H (EQ e_csed nc))
  | _, _ => false
  end.

(** The condition of lines 328-334 for the pair [(i, j)]. *)
Definition carries (H : Host) (gi gj : GroupInfo) : bool :=
  String.eqb (buffer gi) (buffer gj)
  && reusable H (indices gi) (next_indices gj)
       (indices_csed gi) (next_indices_csed gj)
  && reusable H (predicates gi) (next_predicates gj)
       (predicates_csed gi) (next_predicates_csed gj).

Definition edge_at (H : Host) (infos : list GroupInfo) (i j : nat)
  : list (list nat) :=
  match infos !! i, infos !! j with
  | Some gi, Some gj =>
      if negb (i =? j)%nat && carries H gi gj then [[j; i]] else []
  | _, _ => []
  end.

Definition find_edges (H : Host) (infos : list GroupInfo) : list (list nat) :=
  let n := length infos in
  flat_map (fun i => flat_map (fun j => edge_at H infos i j) (seq 0 n)) (seq 0 n).

(** ** Chain agglomeration (lines 347-373)

    [chains] is a vector of vectors updated in place; [None] is the
    undefined behaviour of [back()] on an emptied chain. *)

Abbreviation Chains := (list (list nat)).

(** The body of the inner loop for the pair [(i, j)], lines 356-363.
    The two updates are made one after the other.  For [i = j] the range
    that is inserted is the chain's own tail, which C++ leaves undefined
    for [vector::insert]; the model gives it the result of appending a
    copy of the tail.  The chain is cleared right after, so it ends up
    empty either way. *)
Definition merge_at (i j : nat) (st : Chains * bool) : option (Chains * bool) :=
  let (chains, done) := st in
  ci ← chains !! i;
  cj ← chains !! j;
  match head cj with
  | None => Some st
  | Some front =>
      back ← last ci;
      if (back =? front)%nat
      then Some (<[j := []]> (<[i := ci ++ tail cj]> chains), false)
      else Some st
  end.

Fixpoint foldM_opt {A B} (f : A -> B -> option B) (l : list A) (b : B) : option B :=
  match l with
  | [] => Some b
  | a :: r => b' ← f a b; foldM_opt f r b'
  end.

(** The loop over [j] for a fixed [i], and the loop over [i] (lines
    351-365); an empty [chains[i]] is skipped. *)
Definition merge_row (n i : nat) (st : Chains * bool) : option (Chains * bool) :=
  match st.1 !! i with
  | Some [] => Some st
  | Some _ => foldM_opt (merge_at i) (seq 0 n) st
  | None => None
  end.

Definition merge_pass (chains : Chains) : option (Chains * bool) :=
  let n := length chains in
  foldM_opt (merge_row n) (seq 0 n) (chains, true).

(** [chains[i].swap(chains.back()); chains.pop_back()] for an empty
    [chains[i]]. *)
Definition swap_pop (i : nat) (chains : Chains) : Chains :=
  match last chains with
  | Some b => take (length chains - 1) (<[i := b]> chains)
  | None => chains
  end.

(** The compaction loops of lines 367-372.  Every step either pops a
    chain or advances [i], so [length chains] steps are enough. *)
Fixpoint compact_from (steps i : nat) (chains : Chains) : Chains :=
  match steps with
  | O => chains
  | S steps' =>
      match chains !! i with
      | Some [] => compact_from steps' i (swap_pop i chains)
      | Some _ => compact_from steps' (S i) chains
      | None => chains
      end
  end.

Definition compact (chains : Chains) : Chains :=
  compact_from (length chains) 0 chains.

(** The [while (!done)] loop.  The outer [None] is fuel exhaustion, the
    inner one undefined behaviour. *)
Fixpoint agglomerate_loop (fuel : nat) (chains : Chains) : option (option Chains) :=
  match fuel with
  | O => None
  | S fuel' =>
      match merge_pass chains with
      | None => Some None
      | Some (chains', done) =>
          if done then Some (Some (compact chains'))
          else agglomerate_loop fuel' (compact chains')
      end
  end.

(** Every pass that merges removes a chain, so one more pass than there
    are chains always suffices. *)
Definition agglomerate (chains : Chains) : option Chains :=
  mjoin (agglomerate_loop (S (length chains)) chains).

(** ** Sorting by decreasing size (lines 375-382)

    [std::stable_sort] with the comparison [c1.size() > c2.size()]: an
    insertion sort that puts a chain before the first one that is not
    larger, inserting from the back, is stable. *)
Fixpoint insert_by_size (c : list nat) (sorted : Chains) : Chains :=
  match sorted with
  | [] => [c]
  | d :: rest =>
      if (length c <? length d)%nat then d :: insert_by_size c rest
      else c :: d :: rest
  end.

Definition stable_sort (chains : Chains) : Chains :=
  foldr insert_by_size [] chains.

(** ** Budget trimming (lines 391-407)

    [sz] and the sizes are [size_t], 64 bits unsigned; the cast of
    [max_carried_values] and the subtraction wrap around. *)
Definition size_t (z : Z) : Z := z mod 2 ^ 64.

Fixpoint trim_loop (max_carried_values : Z) (chains trimmed : Chains) (sz : Z)
  : Chains :=
  match chains with
  | [] => trimmed
  | c :: rest =>
      if size_t (sz + Z.of_nat (length c)) >? size_t max_carried_values then
        if sz <? size_t (size_t max_carried_values - 1) then
          (* Take a partial chain *)
          trimmed ++ [take (Z.to_nat (max_carried_values - sz)) c]
        else trimmed
      else
        trim_loop max_carried_values rest (trimmed ++ [c])
                  (size_t (sz + Z.of_nat (length c)))
  end.

Definition trim (max_carried_values : Z) (chains : Chains) : Chains :=
  trim_loop max_carried_values chains [] 0.

(** ** State and failure

    [M S A]: a computation over a state [S] that may fail. *)
Definition M (S A : Type) : Type := S -> option (A * S).

Definition ret {S A} (a : A) : M S A := fun s => Some (a, s).
Definition bind {S A B} (m : M S A) (k : A -> M S B) : M S B :=
  fun s => match m s with Some (a, s') => k a s' | None => None end.
Definition fail {S A} : M S A := fun _ => None.
Definition lift_opt {S A} (o : option A) : M S A :=
  fun s => match o with Some a => Some (a, s) | None => None end.

Notation "'let*' x ':=' m 'in' k" := (bind m (fun x => k))
  (at level 10, x name, m at level 100, k at level 200, only parsing).
Notation "'let*' ' p ':=' m 'in' k" :=
  (bind m (fun x => match x with p => k end))
  (at level 10, p pattern, m at level 100, k at level 200, only parsing).

Fixpoint foldM {S A B} (f : B -> A -> M S B) (l : list A) (b : B) : M S B :=
  match l with
  | [] => ret b
  | a :: r => let* b' := f b a in foldM f r b'
  end.

(** ** Code synthesis (lines 422-509) *)

Record ScratchAllocation := mkAlloc {
  alloc_name : string;
  alloc_type : Type_;
  alloc_size : Z;
  alloc_initial_stores : option Stmt
}.

(** The state of one [LoopCarryOverLoop]: the global name counter and
    the member [allocs]. *)
Record CarryState := mkCarry { counter : nat; allocs : list ScratchAllocation }.

Definition fresh (H : Host) (prefix : Ascii.ascii) : M CarryState string :=
  fun s => Some (unique_name H prefix (counter s),
                 mkCarry (S (counter s)) (allocs s)).

Definition push_alloc (a : ScratchAllocation) : M CarryState unit :=
  fun s => Some (tt, mkCarry (counter s) (allocs s ++ [a])).

(** What the loop over the positions of one chain updates. *)
Record Synth := mkSynth {
  core : Stmt;
  not_first_iteration_scratch_stores : list Stmt;
  scratch_shuffles : list Stmt;
  initial_scratch_values : list Expr
}.

(** The body of the loop of lines 430-453 for position [i] of chain [c]. *)
Definition chain_position (H : Host) (loads : list (list LoadNode))
  (scratch : string) (c : list nat) (st : Synth) (i : nat) : option Synth :=
  ci ← c !! i;
  group ← loads !! ci;
  orig_load ← head group;
  let t := ld_type orig_load in
  let scratch_idx := scratch_index (Z.of_nat i) t in
  let load_from_scratch :=
    Load t scratch scratch_idx (const_true (lanes t)) None None ModulusRemainder0 in
  let core' :=
    fold_left (fun cr l => graph_substitute H (Load_expr l) load_from_scratch cr)
              group (core st) in
  let is_last := (i =? length c - 1)%nat in
  let leading :=
    if is_last
    then [Store scratch (Load_expr orig_load) scratch_idx None
                (const_true (lanes t)) ModulusRemainder0]
    else [] in
  let initial := if is_last then [] else [Load_expr orig_load] in
  let shuffle :=
    if (0 <? i)%nat
    then [Store scratch load_from_scratch (scratch_index (Z.of_nat i - 1) t) None
                (const_true (lanes t)) ModulusRemainder0]
    else [] in
  Some (mkSynth core'
          (not_first_iteration_scratch_stores st ++ leading)
          (scratch_shuffles st ++ shuffle)
          (initial_scratch_values st ++ initial)).

(** Peeling the lets off the CSE-d call (lines 464-467). *)
Fixpoint peel_lets (call : Expr) : list (string * Expr) * Expr :=
  match call with
  | Let name value body =>
      let (lets, inner) := peel_lets body in ((name, value) :: lets, inner)
  | _ => ([], call)
  end.

(** The loop of lines 473-480 reads [initial_scratch_values[i]] for every
    [i] below [c.size() - 1], a [size_t]; reading past the end is
    undefined. *)
Definition initial_store (scratch : string) (i : nat) (v : Expr) : Stmt :=
  let scratch_idx := scratch_index (Z.of_nat i) (type_of v) in
  Store scratch v scratch_idx None
        (const_true (lanes (type_of scratch_idx))) ModulusRemainder0.

Definition initial_scratch_stores (scratch : string) (c : list nat)
  (values : list Expr) : option (list Stmt) :=
  let bound := size_t (Z.of_nat (length c) - 1) in
  if bound <=? Z.of_nat (length values)
  then Some (imap (initial_store scratch) (take (Z.to_nat bound) values))
  else None.

(** [LetStmt::make] and [stmt_uses_var] need a defined statement. *)
Definition wrap_lets (lets : list (string * Expr)) (body : option Stmt)
  : option (option Stmt) :=
  match lets, body with
  | [], _ => Some body
  | _, None => None
  | _, Some b => Some (Some (foldr (fun l acc => LetStmt l.1 l.2 acc) b lets))
  end.

Definition rewrap (H : Host) (containing_lets : list (string * Expr))
  (body : option Stmt) : option (option Stmt) :=
  match containing_lets, body with
  | [], _ => Some body
  | _, None => None
  | _, Some b =>
      Some (Some (foldr (fun l acc =>
                           if stmt_uses_var H acc l.1 then LetStmt l.1 l.2 acc
                           else acc) b containing_lets))
  end.

(** The body of the loop over the chains, lines 426-502. *)
Definition synthesize_chain (H : Host) (loads : list (list LoadNode))
  (containing_lets : list (string * Expr))
  (st : Synth) (c : list nat) : M CarryState Synth :=
  let* scratch := fresh H "c"%char in
  let* st1 := lift_opt (foldM_opt (fun i s => chain_position H loads scratch c s i)
                     (seq 0 (length c))
                     (mkSynth (core st)
                        (not_first_iteration_scratch_stores st)
                        (scratch_shuffles st) [])) in
  let* b := fresh H "b"%char in
  let call := Call (Int 32) b (initial_scratch_values st1) PureIntrinsic in
  let call' := simplify H (common_subexpression_elimination H call) in
  let (initial_lets, inner) := peel_lets call' in
  match inner with
  | Call _ _ args _ =>
      let* stores := lift_opt (initial_scratch_stores scratch c args) in
      let initial_stores := Block_make_list stores in
      let* s1 := lift_opt (wrap_lets initial_lets initial_stores) in
      let* s2 := lift_opt (rewrap H containing_lets s1) in
      let* front := lift_opt (head c) in
      let* group := lift_opt (loads !! front) in
      let* l0 := lift_opt (head group) in
      let* _ := push_alloc (mkAlloc scratch (element_of (ld_type l0))
                         (Z.of_nat (length c) * lanes (ld_type l0)) s2) in
      ret st1
  | _ => fail
  end.

(** [Block::make(first, rest)] asserts that both statements are defined. *)
Definition Block_make_defined (first rest : option Stmt) : option Stmt :=
  match first, rest with
  | Some a, Some b => Some (Block_make a b)
  | _, _ => None
  end.

(** ** lift_carried_values_out_of_stmt (lines 247-509) *)

Definition found_groups (H : Host) (in_consume : Scope unit) (orig_stmt : Stmt)
  : list (list LoadNode) :=
  group_loads in_consume (FindLoads (substitute_in_all_lets_stmt H orig_stmt)).

Definition lift_carried_values_out_of_stmt (H : Host)
  (in_consume : Scope unit) (max_carried_values : Z)
  (linear : LinearScope) (containing_lets : list (string * Expr))
  (orig_stmt : Stmt) : M CarryState Stmt :=
  let graph_stmt := substitute_in_all_lets_stmt H orig_stmt in
  let loads := group_loads in_consume (FindLoads graph_stmt) in
  let* infos := lift_opt (group_infos H linear loads) in
  let chains := find_edges H infos in
  match chains with
  | [] => ret orig_stmt
  | _ =>
      let* chains1 := lift_opt (agglomerate chains) in
      let chains2 := stable_sort chains1 in
      let chains3 := trim max_carried_values chains2 in
      let* st := foldM (synthesize_chain H loads containing_lets) chains3
              (mkSynth graph_stmt [] [] []) in
      let* s1 := lift_opt (Block_make_defined
                        (Block_make_list (not_first_iteration_scratch_stores st))
                        (Some (core st))) in
      let* s2 := lift_opt (Block_make_defined (Some s1)
                        (Block_make_list (scratch_shuffles st))) in
      ret (common_subexpression_elimination_stmt H s2)
  end.

(** ** LoopCarryOverLoop (lines 185-537)

    The mutator over one loop body.  [linear] and [containing_lets] are
    scoped with the recursion; [allocs] and the name counter are state.

    The visitor of [Block] unpacks the block into a vector and walks it
    with two accumulators, the current run of stores and the result.
    [visit_elem] is that walk, fused with the unpacking so that it follows
    the structure of the statement: a nested block is entered, a store
    joins the run, any other statement closes the run and is mutated.

    Mutating a statement is walking it as a vector of its own and closing
    the last run: for a block that is the visitor of [Block]; a store
    alone is a run of one, and [lift_carried_values_out_of_stmt] of
    [Block::make] of one store is the visitor of [Store]; for any other
    statement [Block::make] of the one mutated statement is that
    statement.  [LoopCarryOverLoop_mutate_Block] and the lemmas next to it
    state these equations. *)

Section LoopCarryOverLoop.

Variable H : Host.
Variable in_consume : Scope unit.
Variable max_carried_values : Z.

Definition lift (linear : LinearScope) (containing_lets : list (string * Expr))
  (s : Stmt) : M CarryState Stmt :=
  lift_carried_values_out_of_stmt H in_consume max_carried_values
    linear containing_lets s.

(** Lines 233-236 and 240-242: a non-empty run is lifted as one block. *)
Definition close_run (linear : LinearScope)
  (containing_lets : list (string * Expr))
  (acc : list Stmt * list Stmt) : M CarryState (list Stmt) :=
  let (stores, result) := acc in
  match Block_make_list stores with
  | None => ret result
  | Some run =>
      let* r := lift linear containing_lets run in
      ret (result ++ [r])
  end.

Definition finish_block (linear : LinearScope)
  (containing_lets : list (string * Expr))
  (acc : list Stmt * list Stmt) : M CarryState Stmt :=
  let* result := close_run linear containing_lets acc in
  lift_opt (Block_make_list result).

Fixpoint visit_elem (s : Stmt) (linear : LinearScope)
  (containing_lets : list (string * Expr))
  (acc : list Stmt * list Stmt) {struct s}
  : M CarryState (list Stmt * list Stmt) :=
  let mutate s' linear' lets' :=
    let* acc' := visit_elem s' linear' lets' ([], []) in
    finish_block linear' lets' acc' in
  let other (m : M CarryState Stmt) :=
    let* result := close_run linear containing_lets acc in
    let* r := m in
    ret ([], result ++ [r]) in
  match s with
  | Block first rest =>
      let* acc1 := visit_elem first linear containing_lets acc in
      visit_elem rest linear containing_lets acc1
  | Store _ _ _ _ _ _ => ret (acc.1 ++ [s], acc.2)
  | LetStmt name value body =>
      (* lines 198-218 *)
      other (let step := is_linear value linear in
             let* body' := mutate body (Scope_push name step linear)
                             (containing_lets ++ [(name, value)]) in
             ret (LetStmt name value body'))
  | For _ _ _ _ _ _ _ => other (ret s)
  | IfThenElse _ _ _ => other (ret s)
  | ProducerConsumer name is_producer body =>
      other (let* body' := mutate body linear containing_lets in
             ret (ProducerConsumer name is_producer body'))
  | Allocate name type memory_type extents condition body =>
      other (let* body' := mutate body linear containing_lets in
             ret (Allocate name type memory_type extents condition body'))
  | Evaluate _ => other (ret s)
  end.

Definition LoopCarryOverLoop_mutate (s : Stmt) (linear : LinearScope)
  (containing_lets : list (string * Expr)) : M CarryState Stmt :=
  let* acc := visit_elem s linear containing_lets ([], []) in
  finish_block linear containing_lets acc.

End LoopCarryOverLoop.

(** ** LoopCarry (lines 539-585) and loop_carry (lines 589-592)

    The driver.  Its state is the name counter.  Nodes it does not
    override are rebuilt from their mutated children. *)

(** Running the per-loop mutator of lines 559-560 from the driver: a new
    [LoopCarryOverLoop] starts with no allocations and with the loop
    variable bound to the step 1. *)
Definition run_carry (H : Host) (in_consume : Scope unit)
  (max_carried_values : Z) (var : string) (body : Stmt)
  : M nat (Stmt * list ScratchAllocation) :=
  fun n =>
    match LoopCarryOverLoop_mutate H in_consume max_carried_values body
            (Scope_push var (Some (IntImm (Int 32) 1)) []) [] (mkCarry n [])
    with
    | Some (body', st) => Some ((body', allocs st), counter st)
    | None => None
    end.

(** Lines 568-571, for one allocation. *)
Definition inject_alloc (H : Host) (var : string) (min : Expr)
  (stmt : Stmt) (alloc : ScratchAllocation) : option Stmt :=
  stmt1 ← Block_make_defined
            (substitute H var min <$> alloc_initial_stores alloc) (Some stmt);
  Some (Allocate (alloc_name alloc) (alloc_type alloc) MemStack
          [IntImm (Int 32) (alloc_size alloc)] (const_true 1) stmt1).

Definition ForType_is_Serial (t : ForType) : bool :=
  match t with Serial => true | _ => false end.

Fixpoint LoopCarry_mutate (H : Host) (max_carried_values : Z)
  (s : Stmt) (in_consume : Scope unit) {struct s} : M nat Stmt :=
  let mutate := LoopCarry_mutate H max_carried_values in
  match s with
  | ProducerConsumer name is_producer body =>
      if is_producer then
        let* body' := mutate body in_consume in
        ret (ProducerConsumer name is_producer body')
      else
        let* body' := mutate body (Scope_push name tt in_consume) in
        ret (ProducerConsumer name is_producer body')
  | For name min extent for_type partition_policy device_api body =>
      if ForType_is_Serial for_type && negb (is_const_one extent) then
        let* body1 := mutate body in_consume in
        let* '(body2, allocs) :=
          run_carry H in_consume max_carried_values name body1 in
        let stmt :=
          For name min extent for_type partition_policy device_api body2 in
        let* stmt' := lift_opt (foldM_opt (fun alloc st => inject_alloc H name min st alloc)
                                  allocs stmt) in
        match allocs with
        | [] => ret stmt'
        | _ => ret (IfThenElse (GT extent (make_const (type_of extent) 0))
                     stmt' None)
        end
      else
        let* body' := mutate body in_consume in
        ret (For name min extent for_type partition_policy device_api body')
  | LetStmt name value body =>
      let* body' := mutate body in_consume in
      ret (LetStmt name value body')
  | Block first rest =>
      let* first' := mutate first in_consume in
      let* rest' := mutate rest in_consume in
      ret (Block_make first' rest')
  | IfThenElse condition then_case else_case =>
      let* then' := mutate then_case in_consume in
      match else_case with
      | Some e =>
          let* else' := mutate e in_consume in
          ret (IfThenElse condition then' (Some else'))
      | None => ret (IfThenElse condition then' None)
      end
  | Allocate name type memory_type extents condition body =>
      let* body' := mutate body in_consume in
      ret (Allocate name type memory_type extents condition body')
  | Store _ _ _ _ _ _ | Evaluate _ => ret s
  end.

(** The entry point.  The counter of [unique_name] is global state of the
    host; the pass starts from its current value [n0]. *)
Definition loop_carry (H : Host) (s : Stmt) (max_carried_values : Z) (n0 : nat)
  : option Stmt :=
  fst <$> LoopCarry_mutate H max_carried_values s [] n0.

(** ** A concrete host

    A small host for running the pass on examples: name-based
    substitution, let inlining, replacement of structurally equal loads,
    a simplifier that only folds [(x + c1) + c2], no CSE and a solver
    that proves nothing. *)

Fixpoint subst_expr (x : string) (r : Expr) (e : Expr) : Expr :=
  let go := subst_expr x r in
  match e with
  | Var _ y => if String.eqb x y then r else e
  | IntImm _ _ | UIntImm _ _ => e
  | Add a b => Add (go a) (go b)
  | Sub a b => Sub (go a) (go b)
  | Mul a b => Mul (go a) (go b)
  | EQ a b => EQ (go a) (go b)
  | GT a b => GT (go a) (go b)
  | Ramp a b n => Ramp (go a) (go b) n
  | Broadcast a n => Broadcast (go a) n
  | Load t nm i p im pa al => Load t nm (go i) (go p) im pa al
  | Let y v b => Let y (go v) (if String.eqb x y then b else go b)
  | Call t n args ct => Call t n (map go args) ct
  end.

Fixpoint map_stmt (f : Expr -> Expr) (s : Stmt) : Stmt :=
  match s with
  | LetStmt n v b => LetStmt n (f v) (map_stmt f b)
  | Store n v i pa p al => Store n (f v) (f i) pa (f p) al
  | Block a b => Block (map_stmt f a) (map_stmt f b)
  | For n mn ext ft pp da b => For n (f mn) (f ext) ft pp da (map_stmt f b)
  | IfThenElse c t e => IfThenElse (f c) (map_stmt f t) (map_stmt f <$> e)
  | ProducerConsumer n p b => ProducerConsumer n p (map_stmt f b)
  | Allocate n t m extents c b => Allocate n t m (map f extents) (f c) (map_stmt f b)
  | Evaluate v => Evaluate (f v)
  end.

Fixpoint inline_lets (e : Expr) : Expr :=
  match e with
  | Var _ _ | IntImm _ _ | UIntImm _ _ => e
  | Add a b => Add (inline_lets a) (inline_lets b)
  | Sub a b => Sub (inline_lets a) (inline_lets b)
  | Mul a b => Mul (inline_lets a) (inline_lets b)
  | EQ a b => EQ (inline_lets a) (inline_lets b)
  | GT a b => GT (inline_lets a) (inline_lets b)
  | Ramp a b n => Ramp (inline_lets a) (inline_lets b) n
  | Broadcast a n => Broadcast (inline_lets a) n
  | Load t nm i p im pa al => Load t nm (inline_lets i) (inline_lets p) im pa al
  | Let y v b => subst_expr y (inline_lets v) (inline_lets b)
  | Call t n args ct => Call t n (map inline_lets args) ct
  end.

Fixpoint inline_lets_stmt (s : Stmt) : Stmt :=
  match s with
  | LetStmt n v b => map_stmt (subst_expr n (inline_lets v)) (inline_lets_stmt b)
  | Store n v i pa p al => Store n (inline_lets v) (inline_lets i) pa (inline_lets p) al
  | Block a b => Block (inline_lets_stmt a) (inline_lets_stmt b)
  | For n mn ext ft pp da b =>
      For n (inline_lets mn) (inline_lets ext) ft pp da (inline_lets_stmt b)
  | IfThenElse c t e => IfThenElse (inline_lets c) (inline_lets_stmt t) (inline_lets_stmt <$> e)
  | ProducerConsumer n p b => ProducerConsumer n p (inline_lets_stmt b)
  | Allocate n t m extents c b =>
      Allocate n t m (map inline_lets extents) (inline_lets c) (inline_lets_stmt b)
  | Evaluate v => Evaluate (inline_lets v)
  end.

Fixpoint replace_expr (needle r : Expr) (e : Expr) : Expr :=
  if graph_equal needle e then r else
  let go := replace_expr needle r in
  match e with
  | Var _ _ | IntImm _ _ | UIntImm _ _ => e
  | Add a b => Add (go a) (go b)
  | Sub a b => Sub (go a) (go b)
  | Mul a b => Mul (go a) (go b)
  | EQ a b => EQ (go a) (go b)
  | GT a b => GT (go a) (go b)
  | Ramp a b n => Ramp (go a) (go b) n
  | Broadcast a n => Broadcast (go a) n
  | Load t nm i p im pa al => Load t nm (go i) (go p) im pa al
  | Let y v b => Let y (go v) (go b)
  | Call t n args ct => Call t n (map go args) ct
  end.

Fixpoint uses_var (x : string) (e : Expr) : bool :=
  match e with
  | Var _ y => String.eqb x y
  | IntImm _ _ | UIntImm _ _ => false
  | Add a b | Sub a b | Mul a b | EQ a b | GT a b | Ramp a b _ | Let _ a b
  | Load _ _ a b _ _ _ => uses_var x a || uses_var x b
  | Broadcast a _ => uses_var x a
  | Call _ _ args _ => existsb (uses_var x) args
  end.

Fixpoint uses_var_stmt (x : string) (s : Stmt) : bool :=
  match s with
  | LetStmt _ v b => uses_var x v || uses_var_stmt x b
  | Store _ v i _ p _ => uses_var x v || uses_var x i || uses_var x p
  | Block a b => uses_var_stmt x a || uses_var_stmt x b
  | For _ mn ext _ _ _ b => uses_var x mn || uses_var x ext || uses_var_stmt x b
  | IfThenElse c t e =>
      uses_var x c || uses_var_stmt x t
      || match e with Some e' => uses_var_stmt x e' | None => false end
  | ProducerConsumer _ _ b => uses_var_stmt x b
  | Allocate _ _ _ extents c b =>
      existsb (uses_var x) extents || uses_var x c || uses_var_stmt x b
  | Evaluate v => uses_var x v
  end.

Fixpoint fold_constants (e : Expr) : Expr :=
  match e with
  | Add a b =>
      match fold_constants a, fold_constants b with
      | Add x (IntImm t c1), IntImm _ c2 => Add x (IntImm t (c1 + c2))
      | a', b' => Add a' b'
      end
  | _ => e
  end.

Definition plain_host : Host :=
  mkHost fold_constants id id inline_lets inline_lets_stmt
         (fun x r => map_stmt (subst_expr x r))
         (fun needle r => map_stmt (replace_expr needle r))
         (fun _ => false)
         (fun s x => uses_var_stmt x s)
         (fun prefix n => String prefix (pretty n)).

(** ** Example programs *)

Definition i32 : Type_ := Int 32.
Definition const (v : Z) : Expr := IntImm i32 v.
Definition var (x : string) : Expr := Var i32 x.

(** A load of an [Int(32)] from the bound image [buf]. *)
Definition image_load (buf : string) (index : Expr) : Expr :=
  Load i32 buf index (const_true 1) (Some buf) None ModulusRemainder0.

(** A load from a buffer that is neither an image nor a parameter. *)
Definition plain_load (buf : string) (index : Expr) : Expr :=
  Load i32 buf index (const_true 1) None None ModulusRemainder0.

Definition store (buf : string) (value index : Expr) : Stmt :=
  Store buf value index None (const_true 1) ModulusRemainder0.

Definition serial_for (x : string) (min extent : Expr) (body : Stmt) : Stmt :=
  For x min extent Serial PartitionAuto DeviceNone body.

(** [out[i] = in[i] + in[i+1]] *)
Definition two_tap : Stmt :=
  store "out" (Add (image_load "in" (var "i"))
                   (image_load "in" (Add (var "i") (const 1)))) (var "i").

(** [out[i] = in[i] + in[i+1] + in[i+2]], scenario S1 of the spec. *)
Definition three_tap : Stmt :=
  store "out" (Add (Add (image_load "in" (var "i"))
                        (image_load "in" (Add (var "i") (const 1))))
                   (image_load "in" (Add (var "i") (const 2)))) (var "i").

(** ** What the theorems speak about *)

(** The chains that [lift_carried_values_out_of_stmt] synthesizes code
    for: the edges, agglomerated, sorted and trimmed (lines 318-407). *)
Definition kept_chains (H : Host) (in_consume : Scope unit)
  (max_carried_values : Z) (linear : LinearScope) (orig_stmt : Stmt)
  : option Chains :=
  infos ← group_infos H linear (found_groups H in_consume orig_stmt);
  match find_edges H infos with
  | [] => Some []
  | chains =>
      chains1 ← agglomerate chains;
      Some (trim max_carried_values (stable_sort chains1))
  end.

(** The edges found for a statement. *)
Definition carry_edges (H : Host) (in_consume : Scope unit)
  (linear : LinearScope) (orig_stmt : Stmt) : option Chains :=
  find_edges H <$> group_infos H linear (found_groups H in_consume orig_stmt).

(** The first load of the first group of a chain, [loads[c.front()][0]]. *)
Definition front_load (loads : list (list LoadNode)) (c : list nat)
  : option LoadNode :=
  front ← head c; group ← loads !! front; head group.

(** The buffers stored to, in execution order. *)
Fixpoint store_targets (s : Stmt) : list string :=
  match s with
  | Store name _ _ _ _ _ => [name]
  | Block a b => store_targets a ++ store_targets b
  | LetStmt _ _ b | For _ _ _ _ _ _ b | ProducerConsumer _ _ b
  | Allocate _ _ _ _ _ b => store_targets b
  | IfThenElse _ t e =>
      store_targets t ++ match e with Some e' => store_targets e' | None => [] end
  | Evaluate _ => []
  end.

(** The blocks of a statement are in the right-associative pair form
    that [Block::make] builds: no block is the first statement of a
    block. *)
Fixpoint canonical (s : Stmt) : Prop :=
  match s with
  | Block a b => is_Block a = false /\ canonical a /\ canonical b
  | LetStmt _ _ b | For _ _ _ _ _ _ b | ProducerConsumer _ _ b
  | Allocate _ _ _ _ _ b => canonical b
  | IfThenElse _ t e =>
      canonical t /\ match e with Some e' => canonical e' | None => True end
  | Store _ _ _ _ _ _ | Evaluate _ => True
  end.

(** A loop the driver hands to the per-loop mutator (line 556): serial,
    with an extent that is not the constant one. *)
Definition candidate (for_type : ForType) (extent : Expr) : bool :=
  ForType_is_Serial for_type && negb (is_const_one extent).

Fixpoint has_candidate_loop (s : Stmt) : bool :=
  match s with
  | For _ _ extent for_type _ _ b => candidate for_type extent || has_candidate_loop b
  | Block a b => has_candidate_loop a || has_candidate_loop b
  | LetStmt _ _ b | ProducerConsumer _ _ b | Allocate _ _ _ _ _ b =>
      has_candidate_loop b
  | IfThenElse _ t e =>
      has_candidate_loop t
      || match e with Some e' => has_candidate_loop e' | None => false end
  | Store _ _ _ _ _ _ | Evaluate _ => false
  end.

(** The spec's wording of the same: a serial loop whose extent exceeds
    one.  An extent that is not an integer constant may exceed one. *)
Definition may_exceed_one (extent : Expr) : bool :=
  match extent with
  | IntImm _ v | UIntImm _ v => 1 <? v
  | _ => true
  end.

Fixpoint has_serial_loop_above_one (s : Stmt) : bool :=
  match s with
  | For _ _ extent for_type _ _ b =>
      (ForType_is_Serial for_type && may_exceed_one extent)
      || has_serial_loop_above_one b
  | Block a b => has_serial_loop_above_one a || has_serial_loop_above_one b
  | LetStmt _ _ b | ProducerConsumer _ _ b | Allocate _ _ _ _ _ b =>
      has_serial_loop_above_one b
  | IfThenElse _ t e =>
      has_serial_loop_above_one t
      || match e with Some e' => has_serial_loop_above_one e' | None => false end
  | Store _ _ _ _ _ _ | Evaluate _ => false
  end.

(** The runs of stores that the per-loop mutator lifts, each with the
    linear scope in force: the places where
    [lift_carried_values_out_of_stmt] is called while a loop body is
    walked.  [run_sites_elem] follows [visit_elem]: it threads the current
    run and collects the runs that are closed. *)
Definition closed_run (linear : LinearScope) (stores : list Stmt)
  : list (LinearScope * Stmt) :=
  match Block_make_list stores with
  | Some run => [(linear, run)]
  | None => []
  end.

Fixpoint run_sites_elem (s : Stmt) (linear : LinearScope) (stores : list Stmt)
  {struct s} : list Stmt * list (LinearScope * Stmt) :=
  let inner s' linear' :=
    let r := run_sites_elem s' linear' [] in
    r.2 ++ closed_run linear' r.1 in
  match s with
  | Block first rest =>
      let r1 := run_sites_elem first linear stores in
      let r2 := run_sites_elem rest linear r1.1 in
      (r2.1, r1.2 ++ r2.2)
  | Store _ _ _ _ _ _ => (stores ++ [s], [])
  | LetStmt name value body =>
      ([], closed_run linear stores
             ++ inner body (Scope_push name (is_linear value linear) linear))
  | ProducerConsumer _ _ body | Allocate _ _ _ _ _ body =>
      ([], closed_run linear stores ++ inner body linear)
  | For _ _ _ _ _ _ _ | IfThenElse _ _ _ | Evaluate _ =>
      ([], closed_run linear stores)
  end.

Definition run_sites (body : Stmt) (linear : LinearScope)
  : list (LinearScope * Stmt) :=
  let r := run_sites_elem body linear [] in
  r.2 ++ closed_run linear r.1.

(** The same over a whole statement, following the driver: every
    candidate loop contributes the runs of its body, with the in-consume
    set at the loop. *)
Fixpoint pass_sites (s : Stmt) (in_consume : Scope unit)
  : list (Scope unit * LinearScope * Stmt) :=
  match s with
  | ProducerConsumer name is_producer body =>
      pass_sites body (if is_producer then in_consume
                       else Scope_push name tt in_consume)
  | For name _ extent for_type _ _ body =>
      pass_sites body in_consume
        ++ (if candidate for_type extent
            then (fun site => (in_consume, site.1, site.2))
                   <$> run_sites body (Scope_push name (Some (IntImm (Int 32) 1)) [])
            else [])
  | LetStmt _ _ body | Allocate _ _ _ _ _ body => pass_sites body in_consume
  | Block a b => pass_sites a in_consume ++ pass_sites b in_consume
  | IfThenElse _ t e =>
      pass_sites t in_consume
        ++ match e with Some e' => pass_sites e' in_consume | None => [] end
  | Store _ _ _ _ _ _ | Evaluate _ => []
  end.

(** No run of stores of any candidate loop yields a carry edge. *)
Definition no_carries (H : Host) (s : Stmt) : Prop :=
  Forall (fun site => carry_edges H site.1.1 site.1.2 site.2 = Some [])
         (pass_sites s []).

(** ** More example programs *)

(** The two-tap stencil on four lanes:
    [out[ramp(i,1,4)] = in[ramp(i,1,4)] + in[ramp(i+1,1,4)]]. *)
Definition i32x4 : Type_ := mkType TInt 32 4.
Definition ramp4 (base : Expr) : Expr := Ramp base (const 1) 4.

Definition vector_load (buf : string) (index : Expr) : Expr :=
  Load i32x4 buf index (const_true 4) (Some buf) None ModulusRemainder0.

Definition two_tap_x4 : Stmt :=
  Store "out" (Add (vector_load "in" (ramp4 (var "i")))
                   (vector_load "in" (ramp4 (Add (var "i") (const 1)))))
        (ramp4 (var "i")) None (const_true 4) ModulusRemainder0.

(** Two runs of stores in one loop body, with a statement that is no
    store between them. *)
Definition two_runs : Stmt :=
  Block two_tap (Block (Evaluate (const 0)) two_tap).

(** A host whose solver proves [x + y == y + x]. *)
Definition proves_commuted (e : Expr) : bool :=
  match e with
  | EQ (Add x y) (Add y' x') => graph_equal x x' && graph_equal y y'
  | _ => false
  end.

Definition commuting_host : Host :=
  mkHost fold_constants id id inline_lets inline_lets_stmt
         (fun x r => map_stmt (subst_expr x r))
         (fun needle r => map_stmt (replace_expr needle r))
         proves_commuted
         (fun s x => uses_var_stmt x s)
         (fun prefix n => String prefix (pretty n)).

(** [out[i] = in[i] + in[i+1] + in[1+i]]: the index after [i] is written
    in two ways. *)
Definition two_successors : Stmt :=
  store "out" (Add (Add (image_load "in" (var "i"))
                        (image_load "in" (Add (var "i") (const 1))))
                   (image_load "in" (Add (const 1) (var "i")))) (var "i").

(** The two-tap stencil over a buffer that is neither an image, nor a
    parameter, nor in consume (scenario S4 of the spec). *)
Definition unsafe_two_tap : Stmt :=
  store "out" (Add (plain_load "tmp" (var "i"))
                   (plain_load "tmp" (Add (var "i") (const 1)))) (var "i").

(** The linear scope of a loop over [i]. *)
Definition loop_scope : LinearScope := [("i"%string, Some (const 1))].

(** The scope inside [let y = 2 * i]: [is_linear] gives [y] the step
    [2 * 1]. *)
Definition doubled_scope : LinearScope :=
  Scope_push "y" (is_linear (Mul (const 2) (var "i")) loop_scope) loop_scope.

Definition zero_env : string -> Z := fun _ => 0.
Definition zero_opaque : Expr -> Z := fun _ => 0.

(** ** Notions used in the proofs *)

(** Congruence modulo 2^32, the arithmetic of [wrap32]. *)
Definition cong32 (a b : Z) : Prop := a mod 2 ^ 32 = b mod 2 ^ 32.

#[export] Instance cong32_equiv : Equivalence cong32 := eqm_setoid (2 ^ 32).
#[export] Instance cong32_add : Proper (cong32 ==> cong32 ==> cong32) Z.add :=
  Zplus_eqm (2 ^ 32).
#[export] Instance cong32_sub : Proper (cong32 ==> cong32 ==> cong32) Z.sub :=
  Zminus_eqm (2 ^ 32).
#[export] Instance cong32_mul : Proper (cong32 ==> cong32 ==> cong32) Z.mul :=
  Zmult_eqm (2 ^ 32).

(** What the induction carries: the shifted expression exceeds the
    expression by the value of the step, modulo 2^32. *)
Definition advances_by (rho : string -> Z) (opaque : Expr -> Z)
  (linear : LinearScope) (e s : Expr) : Prop :=
  cong32 (eval rho opaque (shift_vars (delta_step linear) e))
         (eval rho opaque s + eval rho opaque e).

(** [steps_to from to]: stepping [from] forwards is defined and gives
    [to], structurally or provably. *)
Definition steps_to (H : Host) (linear : LinearScope) (from to : Expr) : Prop :=
  exists next,
    step_forwards H from linear = Some next
    /\ (graph_equal to next = true
        \/ (type_of to = type_of next
            /\ can_prove H (EQ (common_subexpression_elimination H to)
                               (common_subexpression_elimination H next))
               = true)).

(** What every group satisfies: it has a first member and holds only
    loads that passed the safety test. *)
Definition good_group (in_consume : Scope unit) (v : list LoadNode) : Prop :=
  v <> [] /\ Forall (fun l => safe in_consume l = true) v.

(** [gather f l]: the concatenation of [f] over the entries of a vector.
    Overwriting one entry exchanges its contribution. *)
Definition gather {A B} (f : A -> list B) (l : list A) : list B :=
  concat (f <$> l).

(** The chains that are not empty. *)
Definition keep (c : list nat) : list (list nat) :=
  match c with [] => [] | _ => [c] end.

Definition live (chains : Chains) : list (list nat) := gather keep chains.

(** The links of a chain [[x0; x1; ...; xn]] are the pairs
    [(x0, x1), ..., (x(n-1), xn)]: the carry edges it is made of. *)
Definition links (c : list nat) : list (nat * nat) := zip c (tail c).

Definition all_links (chains : Chains) : list (nat * nat) := gather links chains.

(** One merge: lines 359-363 taken for the pair [(i, j)]. *)
Inductive merged (chains chains' : Chains) : Prop :=
| merged_at i j ci cj x :
    chains !! i = Some ci -> chains !! j = Some cj ->
    last ci = Some x -> head cj = Some x ->
    chains' = <[j:=[]]> (<[i:=ci ++ tail cj]> chains) ->
    merged chains chains'.

(** A merge keeps every chain empty or of length at least two. *)
Definition well_sized (chains : Chains) : Prop :=
  Forall (fun c => c = [] \/ (2 <= length c)%nat) chains.

(** How the state [(chains, done)] moves: it stays, or chains were merged
    and [done] is false. *)
Definition pass_rel (st st' : Chains * bool) : Prop :=
  st' = st \/ (tc merged st.1 st'.1 /\ st'.2 = false).

(** No chain ends where a chain starts. *)
Definition stable (chains : Chains) : Prop :=
  forall c1 c2, c1 ∈ chains -> c2 ∈ chains -> c1 <> [] -> c2 <> [] ->
                last c1 <> head c2.

(** The number of positions of a list of chains. *)
Definition positions (chains : Chains) : Z :=
  foldr (fun c acc => Z.of_nat (length c) + acc) 0 chains.

(** The targets of a vector of statements. *)
Definition targets (l : list Stmt) : list string := flat_map store_targets l.

(** How an allocation relates to the chain it was made for. *)
Definition alloc_of (H : Host) (loads : list (list LoadNode))
  (a : ScratchAllocation) (c : list nat) : Prop :=
  exists l0 n, front_load loads c = Some l0
               /\ alloc_name a = unique_name H "c"%char n
               /\ alloc_type a = element_of (ld_type l0)
               /\ alloc_size a = Z.of_nat (length c) * lanes (ld_type l0).

(** The shuffle targets of the chains: for each, its scratch buffer once
    per position after the first. *)
Definition shuffle_targets (new : list ScratchAllocation) (chains : Chains)
  : list string :=
  concat (zip_with (fun a c => replicate (length c - 1) (alloc_name a)) new chains).

(** Closing the run, then the mutated statement joins the result. *)
Definition other_elem (H : Host) (in_consume : Scope unit) (k : Z)
  (linear : LinearScope)
  (containing_lets : list (string * Expr)) (acc : list Stmt * list Stmt)
  (m : M CarryState Stmt) : M CarryState (list Stmt * list Stmt) :=
  let* result := close_run H in_consume k linear containing_lets acc in
  let* r := m in
  ret ([], result ++ [r]).

Definition no_edge (H : Host) (in_consume : Scope unit)
  (site : LinearScope * Stmt) : Prop :=
  carry_edges H in_consume site.1 site.2 = Some [].

(** What walking [s] does when no run yields an edge. *)
Definition walks_unchanged (H : Host) (in_consume : Scope unit) (k : Z)
  (s : Stmt) : Prop :=
  forall linear lets stores result st,
    canonical s ->
    Forall (fun x => is_Store x = true) stores ->
    Forall (no_edge H in_consume) (run_sites_elem s linear stores).2 ->
    exists result',
      visit_elem H in_consume k s linear lets (stores, result) st
      = Some (((run_sites_elem s linear stores).1, result'), st)
      /\ concat (block_to_vector <$> result') ++ (run_sites_elem s linear stores).1
         = concat (block_to_vector <$> result) ++ stores ++ block_to_vector s
      /\ (Forall canonical result -> Forall canonical result')
      /\ Forall (fun x => is_Store x = true) (run_sites_elem s linear stores).1.

Definition mutates_unchanged (H : Host) (in_consume : Scope unit) (k : Z)
  (s : Stmt) : Prop :=
  forall linear lets st,
    canonical s ->
    Forall (no_edge H in_consume) (run_sites s linear) ->
    LoopCarryOverLoop_mutate H in_consume k s linear lets st = Some (s, st).

(** The elements of a list of scratch allocations. *)
Definition total_size (new : list ScratchAllocation) : Z :=
  foldr (fun a acc => alloc_size a + acc) 0 new.

(** Every load found is a scalar. *)
Definition all_scalar (loads : list (list LoadNode)) : Prop :=
  Forall (Forall (fun l => lanes (ld_type l) = 1)) loads.

(** The body of the loop of lines 229-239 over the unpacked block, as the
    source has it: a store joins the run, any other statement closes the
    run and is mutated. *)
Definition block_step (H : Host) (in_consume : Scope unit) (k : Z)
  (linear : LinearScope) (containing_lets : list (string * Expr))
  (acc : list Stmt * list Stmt) (stmt : Stmt)
  : M CarryState (list Stmt * list Stmt) :=
  if is_Store stmt then ret (acc.1 ++ [stmt], acc.2)
  else other_elem H in_consume k linear containing_lets acc
         (LoopCarryOverLoop_mutate H in_consume k stmt linear containing_lets).

(** The links of the chains go up in rank: with such a rank the edges
    have no cycle. *)
Definition ascending (rank : nat -> nat) (chains : Chains) : Prop :=
  Forall (fun e => (rank e.1 < rank e.2)%nat) (all_links chains).

(** What the chains satisfy while acyclic edges are agglomerated. *)
Definition sound (rank : nat -> nat) (chains : Chains) : Prop :=
  well_sized chains /\ ascending rank chains.

(** ** Further notions used in the proofs *)

(** The names of the variables an expression mentions, those inside
    loads, calls and lets included. *)
Fixpoint vars_of (e : Expr) : list string :=
  match e with
  | Var _ x => [x]
  | IntImm _ _ | UIntImm _ _ => []
  | Add a b | Sub a b | Mul a b | EQ a b | GT a b | Ramp a b _ | Let _ a b =>
      vars_of a ++ vars_of b
  | Broadcast a _ => vars_of a
  | Load _ _ i p _ _ _ => vars_of i ++ vars_of p
  | Call _ _ args _ => flat_map vars_of args
  end.

(** Every defined step of the scope is an [Int(32)]. *)
Definition steps_typed (linear : LinearScope) : Prop :=
  forall x s, Scope_get linear x = Some (Some s) -> type_of s = Int 32.

(** A name that does not move with the loop: it is not in the scope, or
    the scope binds it to a constant zero. *)
Definition fixed (linear : LinearScope) (x : string) : Prop :=
  match Scope_get linear x with
  | None => True
  | Some (Some z) => is_const_zero z = true
  | Some None => False
  end.

(** The elements of a buffer that a constant index names: one element for
    an immediate, [n] elements for a ramp of immediates. *)
Definition index_elements (e : Expr) : option (list Z) :=
  match e with
  | IntImm _ i => Some [i]
  | Ramp (IntImm _ b) (IntImm _ s) n => Some ((fun k => b + s * k) <$> seqZ 0 n)
  | _ => None
  end.

(** The first members of the groups, [v[0]] for every group [v]. *)
Definition firsts (loads : list (list LoadNode)) : list LoadNode :=
  omap head loads.

(** A group all of whose members are the load [v0], its first. *)
Definition uniform (v : list LoadNode) : Prop :=
  exists v0, head v = Some v0 /\ Forall (fun l => l = v0) v.

(** The chains are sorted by decreasing size. *)
Definition by_decreasing_size (chains : Chains) : Prop :=
  Sorted (fun c d : list nat => (length d <= length c)%nat) chains.

(** A statement inside the lets [lets], the first one outermost. *)
Definition with_lets (lets : list (string * Expr)) (body : Stmt) : Stmt :=
  foldr (fun l acc => LetStmt l.1 l.2 acc) body lets.

(** An expression inside the lets [lets], the first one outermost. *)
Definition with_let_exprs (lets : list (string * Expr)) (body : Expr) : Expr :=
  foldr (fun l acc => Let l.1 l.2 acc) body lets.

Definition is_Let (e : Expr) : bool :=
  match e with Let _ _ _ => true | _ => false end.

(** The scratch buffers of a state are numbered from [low]: their names
    are [unique_name 'c'] of different values of the counter, none below
    [low] and all below the current counter. *)
Definition numbered (H : Host) (low : nat) (s : CarryState) : Prop :=
  (low <= counter s)%nat
  /\ exists ns, alloc_name <$> allocs s = unique_name H "c"%char <$> ns
                /\ NoDup ns
                /\ Forall (fun m => (low <= m < counter s)%nat) ns.

(** A computation that keeps a property of the state. *)
Definition preserves {A} (I : CarryState -> Prop) (m : M CarryState A) : Prop :=
  forall st a st', m st = Some (a, st') -> I st -> I st'.

(** The host's passes keep the sequence of stores of a statement. *)
Definition keeps_stores (H : Host) : Prop :=
  (forall x, store_targets (substitute_in_all_lets_stmt H x) = store_targets x)
  /\ (forall a b x, store_targets (graph_substitute H a b x) = store_targets x)
  /\ (forall x, store_targets (common_subexpression_elimination_stmt H x)
                = store_targets x)
  /\ (forall v e x, store_targets (substitute H v e x) = store_targets x).

(** The targets that are no scratch buffers, [scratch] telling which
    names are. *)
Definition own_stores (scratch : string -> bool) (l : list string) : list string :=
  filter (fun x => scratch x = false) l.

(** An allocation with a scratch name whose initial stores go to scratch
    buffers only. *)
Definition scratch_only (scratch : string -> bool) (a : ScratchAllocation) : Prop :=
  scratch (alloc_name a) = true
  /\ forall init, alloc_initial_stores a = Some init ->
                  own_stores scratch (store_targets init) = [].

(** The targets of the two accumulators of the walk over a block: the
    result so far, then the current run. *)
Definition acc_targets (acc : list Stmt * list Stmt) : list string :=
  targets acc.2 ++ targets acc.1.

(** Names that start with the prefix of the scratch buffers. *)
Definition starts_with_c (x : string) : bool :=
  match x with
  | String a _ => Ascii.eqb a "c"%char
  | EmptyString => false
  end.

(** What is emitted for a position of a chain: the load from slot [i] of
    the scratch buffer [nm], the leading-edge store of the load [l] to
    slot [i], and the shuffle that moves slot [i] to slot [i - 1]. *)
Definition scratch_load (nm : string) (i : Z) (l : LoadNode) : Expr :=
  Load (ld_type l) nm (scratch_index i (ld_type l))
       (const_true (lanes (ld_type l))) None None ModulusRemainder0.

Definition leading_store (nm : string) (i : Z) (l : LoadNode) : Stmt :=
  Store nm (Load_expr l) (scratch_index i (ld_type l)) None
        (const_true (lanes (ld_type l))) ModulusRemainder0.

Definition shuffle_store (nm : string) (i : Z) (l : LoadNode) : Stmt :=
  Store nm (scratch_load nm i l) (scratch_index (i - 1) (ld_type l)) None
        (const_true (lanes (ld_type l))) ModulusRemainder0.

(** [l] is the first load of group [g], [loads[g][0]]. *)
Definition first_load (loads : list (list LoadNode)) (g : nat) (l : LoadNode)
  : Prop :=
  loads !! g ≫= head = Some l.

(** ** The stores of a rewritten body *)

(** The stores of a statement in the order they are executed, each one as
    the statement it is. *)
Fixpoint stores_of (s : Stmt) : list Stmt :=
  match s with
  | Store _ _ _ _ _ _ => [s]
  | Block a b => stores_of a ++ stores_of b
  | LetStmt _ _ b => stores_of b
  | For _ _ _ _ _ _ b => stores_of b
  | IfThenElse _ t e =>
      stores_of t ++ match e with Some e' => stores_of e' | None => [] end
  | ProducerConsumer _ _ b => stores_of b
  | Allocate _ _ _ _ _ b => stores_of b
  | Evaluate _ => []
  end.

(** A statement made of stores only: what
    [lift_carried_values_out_of_stmt] is called on, a store or the block
    of a run of stores. *)
Fixpoint only_stores (s : Stmt) : Prop :=
  match s with
  | Store _ _ _ _ _ _ => True
  | Block a b => only_stores a /\ only_stores b
  | _ => False
  end.

(** A single store. *)
Definition is_store (s : Stmt) : Prop :=
  match s with
  | Store _ _ _ _ _ _ => True
  | _ => False
  end.

(** Two stores to the same buffer, with the same parameter and
    alignment. *)
Definition same_buffer (s s' : Stmt) : Prop :=
  match s, s' with
  | Store n _ _ pa _ al, Store n' _ _ pa' _ al' =>
      n = n' /\ pa = pa' /\ al = al'
  | _, _ => False
  end.

(** What the host's passes do to a run of stores.  Inlining the lets
    rewrites the expressions of each store with the pass on expressions;
    [graph_substitute] replaces the expressions equal to the one that is
    looked for; common-subexpression elimination gives for each store
    one store ([cse_store], possibly under lets of its own) to the same
    buffer. *)
Record run_contracts (H : Host) (cse_store : Stmt -> Stmt) : Prop := {
  inlines_stores : forall x, only_stores x ->
    substitute_in_all_lets_stmt H x = map_stmt (substitute_in_all_lets H) x;
  replaces_in_stores : forall a b x, only_stores x ->
    graph_substitute H a b x = map_stmt (replace_expr a b) x;
  cse_each_store : forall x, only_stores x ->
    stores_of (common_subexpression_elimination_stmt H x)
    = cse_store <$> stores_of x;
  cse_same_buffer : forall n v i pa p al,
    same_buffer (Store n v i pa p al) (cse_store (Store n v i pa p al))
}.

(** The rewritings of an expression that only redirect loads: each step
    replaces the load [l] by the load from a slot of a scratch buffer
    [c<n>], with the type of the load [l0]. *)
Inductive redirects (H : Host) : (Expr -> Expr) -> Prop :=
| redirects_none : redirects H (fun e => e)
| redirects_load r n i l l0 :
    redirects H r ->
    redirects H (fun e =>
      replace_expr (Load_expr l)
                   (scratch_load (unique_name H "c"%char n) i l0) (r e)).

(** [s'] is the store [s] of the input after the pass: its lets inlined,
    some of its loads redirected to scratch, and the store handed to the
    common-subexpression elimination; buffer, parameter and alignment
    are those of [s]. *)
Definition redirected (H : Host) (cse_store : Stmt -> Stmt) (s s' : Stmt)
  : Prop :=
  same_buffer s s'
  /\ exists r, redirects H r
       /\ s' = cse_store (map_stmt (fun e => r (substitute_in_all_lets H e)) s).

(** The leading-edge store of a load to a slot of a scratch buffer, and
    the shuffle of a slot to the slot before, as they leave the
    common-subexpression elimination. *)
Definition is_leading_edge (H : Host) (cse_store : Stmt -> Stmt) (s : Stmt)
  : Prop :=
  exists n i l, s = cse_store (leading_store (unique_name H "c"%char n) i l).

Definition is_shuffle (H : Host) (cse_store : Stmt -> Stmt) (s : Stmt)
  : Prop :=
  exists n i l, s = cse_store (shuffle_store (unique_name H "c"%char n) i l).

(** A stretch of the stores of the input, [seg_run], and what the output
    has in its place: the leading-edge stores, the stores of the core,
    the shuffles. *)
Record Segment := mkSegment {
  seg_run : list Stmt;
  seg_leading : list Stmt;
  seg_core : list Stmt;
  seg_shuffles : list Stmt
}.

Definition seg_out (g : Segment) : list Stmt :=
  seg_leading g ++ seg_core g ++ seg_shuffles g.

(** A stretch is either left as it is, or it is a run that was lifted:
    its stores are redirected one by one, in their order, between
    leading-edge stores and shuffles. *)
Definition lifted_or_kept (H : Host) (cse_store : Stmt -> Stmt) (g : Segment)
  : Prop :=
  (seg_leading g = [] /\ seg_shuffles g = [] /\ seg_core g = seg_run g)
  \/ (Forall2 (redirected H cse_store) (seg_run g) (seg_core g)
      /\ Forall (is_leading_edge H cse_store) (seg_leading g)
      /\ Forall (is_shuffle H cse_store) (seg_shuffles g)).

(** What the synthesis keeps true of its state, for the statement [base]
    it starts from. *)
Definition synth_redirects (H : Host) (base : Stmt) (st : Synth) : Prop :=
  (exists r, redirects H r /\ core st = map_stmt r base)
  /\ Forall (fun s => exists n i l,
               s = leading_store (unique_name H "c"%char n) i l)
            (not_first_iteration_scratch_stores st)
  /\ Forall (fun s => exists n i l,
               s = shuffle_store (unique_name H "c"%char n) i l)
            (scratch_shuffles st).

(** ** An example with two loop invariants

    [out[i] = in[0] + in[0] + in[i] + in[i+1]], where the second load of
    [in[0]] carries the alignment [(4, 0)]: the two loads of [in[0]] are
    two groups with the same index. *)
Definition aligned_load (buf : string) (index : Expr) : Expr :=
  Load i32 buf index (const_true 1) (Some buf) None (mkMR 4 0).

Definition two_invariants : Stmt :=
  store "out" (Add (Add (Add (image_load "in" (const 0))
                             (aligned_load "in" (const 0)))
                        (image_load "in" (var "i")))
                   (image_load "in" (Add (var "i") (const 1)))) (var "i").

(** ** Linearity soundness *)

Section Linearity.

Variable rho : string -> Z.
Variable opaque : Expr -> Z.

Local Abbreviation ev := (eval rho opaque).
Local Infix "≡" := cong32 (at level 70).

Lemma wrap32_eqm z : wrap32 z ≡ z.
Proof.
  unfold wrap32, cong32.
  rewrite Zminus_mod, Zmod_mod, <- Zminus_mod. f_equal. lia.
Qed.

Lemma eqm_wrap32 a b : a ≡ b -> wrap32 a = wrap32 b.
Proof.
  unfold wrap32, cong32. intros H.
  f_equal. rewrite Zplus_mod, H, <- Zplus_mod. reflexivity.
Qed.

Lemma wrap32_idem z : wrap32 (wrap32 z) = wrap32 z.
Proof. apply eqm_wrap32, wrap32_eqm. Qed.

Lemma eval_wrapped e : wrap32 (ev e) = ev e.
Proof. induction e; simpl; auto using wrap32_idem. Qed.

Lemma eval_const_zero e : is_const_zero e = true -> ev e = 0.
Proof.
  induction e; simpl; try discriminate; auto;
    intros H; apply Z.eqb_eq in H; subst; reflexivity.
Qed.

Lemma eval_make_zero t : ev (make_zero t) = 0.
Proof.
  unfold make_zero, make_const.
  destruct (is_scalar t), (code t); reflexivity.
Qed.


Lemma is_const_zero_opt_spec o :
  is_const_zero_opt o = true -> exists z, o = Some z /\ ev z = 0.
Proof.
  destruct o as [z|]; simpl; [|discriminate].
  intros H. exists z. split; [reflexivity | by apply eval_const_zero].
Qed.

Lemma defined_spec {A} (o : option A) : defined o = true -> exists z, o = Some z.
Proof. destruct o; simpl; [eauto | discriminate]. Qed.

Ltac wrap_away :=
  repeat match goal with
    | |- context [wrap32 ?z] => rewrite (wrap32_eqm z)
    end.

Ltac use_zero :=
  repeat match goal with
    | H : is_const_zero_opt ?o = true |- _ =>
        apply is_const_zero_opt_spec in H; destruct H as (? & ? & ?)
    | H : defined ?o = true |- _ =>
        apply defined_spec in H; destruct H as (? & ?)
    end.

Lemma is_linear_advances linear e :
  forall s, is_linear e linear = Some s -> advances_by rho opaque linear e s.
Proof.
  unfold advances_by.
  induction e; intros s Hs; cbn [is_linear] in Hs;
    destruct (negb _) eqn:Hty; try discriminate.
  - (* Var *)
    unfold delta_step, Scope_contains in *. cbn [shift_vars].
    destruct (Scope_get linear name) as [[st|]|]; try discriminate.
    + injection Hs as ->. simpl. wrap_away. by rewrite Z.add_comm.
    + injection Hs as <-. by rewrite eval_make_zero.
  - (* IntImm *)
    injection Hs as <-. by rewrite eval_make_zero.
  - (* Add *)
    destruct (is_const_zero_opt (is_linear e2 linear)) eqn:H2;
      [|destruct (is_const_zero_opt (is_linear e1 linear)) eqn:H1;
        [|destruct (defined _ && defined _) eqn:Hd; [|discriminate];
          apply andb_prop in Hd; destruct Hd]];
      use_zero;
      repeat match goal with
        | H : is_linear ?e linear = Some ?z, IH : forall s, is_linear ?e linear = _ -> _ |- _ =>
            specialize (IH _ H)
        end;
      repeat match goal with H : is_linear _ _ = _ |- _ => rewrite H in * end;
      simpl in *; simplify_eq; simpl; wrap_away.
    all: rewrite ?IHe1, ?IHe2; repeat match goal with H : ev _ = 0 |- _ => rewrite H end;
      match goal with |- ?x ≡ ?y => replace x with y by ring end; reflexivity.
  - (* Sub *)
    destruct (is_const_zero_opt (is_linear e2 linear)) eqn:H2;
      [|destruct (defined _ && defined _) eqn:Hd; [|discriminate];
          apply andb_prop in Hd; destruct Hd];
      use_zero;
      repeat match goal with
        | H : is_linear ?e linear = Some ?z, IH : forall s, is_linear ?e linear = _ -> _ |- _ =>
            specialize (IH _ H)
        end;
      repeat match goal with H : is_linear _ _ = _ |- _ => rewrite H in * end;
      simpl in *; simplify_eq; simpl; wrap_away.
    all: rewrite ?IHe1, ?IHe2; repeat match goal with H : ev _ = 0 |- _ => rewrite H end;
      match goal with |- ?x ≡ ?y => replace x with y by ring end; reflexivity.
  - (* Mul *)
    destruct (is_const_zero_opt (is_linear e1 linear) && is_const_zero_opt (is_linear e2 linear)) eqn:H12;
      [apply andb_prop in H12; destruct H12
      |destruct (is_const_zero_opt (is_linear e1 linear) && defined (is_linear e2 linear)) eqn:H1;
        [apply andb_prop in H1; destruct H1
        |destruct (defined (is_linear e1 linear) && is_const_zero_opt (is_linear e2 linear)) eqn:H2;
          [apply andb_prop in H2; destruct H2|discriminate]]];
      use_zero;
      repeat match goal with
        | H : is_linear ?e linear = Some ?z, IH : forall s, is_linear ?e linear = _ -> _ |- _ =>
            specialize (IH _ H)
        end;
      repeat match goal with H : is_linear _ _ = _ |- _ => rewrite H in * end;
      simpl in *; simplify_eq; simpl; wrap_away.
    all: rewrite ?IHe1, ?IHe2; repeat match goal with H : ev _ = 0 |- _ => rewrite H end;
      match goal with |- ?x ≡ ?y => replace x with y by ring end; reflexivity.
  - (* Ramp *)
    destruct (is_const_zero_opt (is_linear e2 linear)) eqn:H2; [|discriminate].
    simpl. auto.
  - (* Broadcast *)
    simpl. auto.
Qed.

End Linearity.

(** ** Carry-edge detection *)

Lemma TypeCode_eqb_eq a b : TypeCode_eqb a b = true <-> a = b.
Proof. destruct a, b; simpl; split; congruence. Qed.

Lemma Type_eqb_eq a b : Type_eqb a b = true <-> a = b.
Proof.
  destruct a as [c1 b1 l1], b as [c2 b2 l2]. unfold Type_eqb. simpl.
  rewrite !andb_true_iff, TypeCode_eqb_eq, !Z.eqb_eq.
  split; [intros [[-> ->] ->]; reflexivity | intros [= -> -> ->]; auto].
Qed.

Section Edges.

Variable H : Host.
Variable linear : LinearScope.


Lemma reusable_spec (from to : Expr) :
  reusable H to (step_forwards H from linear)
    (common_subexpression_elimination H to)
    (common_subexpression_elimination H <$> step_forwards H from linear) = true
  <-> steps_to H linear from to.
Proof.
  unfold reusable, steps_to.
  destruct (step_forwards H from linear) as [next|]; simpl.
  - rewrite orb_true_iff, andb_true_iff, Type_eqb_eq. split.
    + intros Hc. exists next. auto.
    + intros (n & [= <-] & Hc). exact Hc.
  - split; [discriminate | intros (n & Hn & _); discriminate].
Qed.

Lemma carries_spec (li lj : LoadNode) :
  carries H (group_info H linear li) (group_info H linear lj) = true
  <-> ld_name li = ld_name lj
      /\ steps_to H linear (ld_index lj) (ld_index li)
      /\ steps_to H linear (ld_predicate lj) (ld_predicate li).
Proof.
  unfold carries, group_info. simpl.
  rewrite !andb_true_iff, String.eqb_eq, !reusable_spec. tauto.
Qed.

Lemma group_infos_lookup loads infos i :
  group_infos H linear loads = Some infos ->
  infos !! i = (loads !! i ≫= head) ≫= (fun l => Some (group_info H linear l)).
Proof.
  unfold group_infos. intros Hm. apply mapM_Some in Hm.
  destruct (loads !! i) as [v|] eqn:Hv; simpl.
  - destruct (Forall2_lookup_l _ _ _ _ _ Hm Hv) as (g & Hg & Hgv).
    rewrite Hg. destruct (head v); simpl in *; congruence.
  - apply Forall2_length in Hm.
    apply lookup_ge_None. apply lookup_ge_None in Hv. lia.
Qed.

Lemma elem_of_edge_at infos i j c :
  c ∈ edge_at H infos i j <->
  c = [j; i] /\ i <> j
  /\ exists gi gj, infos !! i = Some gi /\ infos !! j = Some gj
                   /\ carries H gi gj = true.
Proof.
  unfold edge_at.
  destruct (infos !! i) as [gi|] eqn:Hi, (infos !! j) as [gj|] eqn:Hj;
    try (rewrite elem_of_nil; split; [tauto | intros (_ & _ & ? & ? & ? & ? & _); congruence]).
  destruct (Nat.eqb_spec i j) as [->|Hne]; simpl.
  - rewrite elem_of_nil. split; [tauto | intros (_ & ? & _); congruence].
  - destruct (carries H gi gj) eqn:Hc.
    + rewrite list_elem_of_singleton. split.
      * intros ->. eauto 10.
      * tauto.
    + rewrite elem_of_nil. split; [tauto|].
      intros (_ & _ & ? & ? & [= <-] & [= <-] & ?). congruence.
Qed.

Lemma elem_of_find_edges infos c :
  c ∈ find_edges H infos <->
  exists i j, c = [j; i] /\ i <> j
    /\ exists gi gj, infos !! i = Some gi /\ infos !! j = Some gj
                     /\ carries H gi gj = true.
Proof.
  unfold find_edges. rewrite list_elem_of_In, in_flat_map. split.
  - intros (i & _ & Hc). apply in_flat_map in Hc as (j & _ & Hc).
    apply list_elem_of_In, elem_of_edge_at in Hc. eauto.
  - intros (i & j & -> & Hne & gi & gj & Hi & Hj & Hc).
    exists i. split; [apply in_seq; apply lookup_lt_Some in Hi; lia|].
    apply in_flat_map. exists j.
    split; [apply in_seq; apply lookup_lt_Some in Hj; lia|].
    apply list_elem_of_In, elem_of_edge_at. eauto 10.
Qed.

(** Every recorded chain is a pair of two different groups. *)
Lemma find_edges_pairs infos :
  Forall (fun c => exists i j, c = [j; i] /\ i <> j
                               /\ (i < length infos)%nat /\ (j < length infos)%nat)
         (find_edges H infos).
Proof.
  apply Forall_forall. intros c Hc.
  apply elem_of_find_edges in Hc as (i & j & -> & Hne & gi & gj & Hi & Hj & _).
  exists i, j. apply lookup_lt_Some in Hi, Hj. auto.
Qed.

End Edges.

(** ** Load groups *)

Section Groups.

Variable in_consume : Scope unit.


Lemma add_to_groups_good load loads :
  safe in_consume load = true ->
  Forall (good_group in_consume) loads ->
  Forall (good_group in_consume) (add_to_groups load loads).1.
Proof.
  intros Hs. induction 1 as [|v rest Hv Hrest IH]; cbn [add_to_groups]; [constructor|].
  destruct (add_to_groups load rest) as [rest' r]. cbn [fst] in IH.
  destruct v as [|v0 v']; [by destruct Hv|].
  destruct (graph_equal _ _); cbn [fst]; constructor; auto.
  destruct Hv as [_ Hv]. split; [done|].
  change (Forall (fun l => safe in_consume l = true) ((v0 :: v') ++ [load])).
  apply Forall_app. auto.
Qed.

Lemma group_step_good loads load :
  Forall (good_group in_consume) loads -> Forall (good_group in_consume) (group_step in_consume loads load).
Proof.
  intros Hl. unfold group_step.
  destruct (safe in_consume load) eqn:Hs; simpl; [|done].
  pose proof (add_to_groups_good load loads Hs Hl) as Hg.
  destruct (add_to_groups load loads) as [loads' r]. simpl in Hg.
  destruct r; [done|].
  apply Forall_app. split; [done|].
  repeat constructor; auto.
Qed.

Lemma group_loads_good found : Forall (good_group in_consume) (group_loads in_consume found).
Proof.
  unfold group_loads.
  assert (Hgen : forall loads, Forall (good_group in_consume) loads ->
            Forall (good_group in_consume) (fold_left (group_step in_consume) found loads)).
  { induction found as [|l found IH]; simpl; [done|].
    intros loads Hl. apply IH, group_step_good, Hl. }
  apply Hgen. constructor.
Qed.

Lemma group_infos_defined H linear loads :
  Forall (good_group in_consume) loads -> is_Some (group_infos H linear loads).
Proof.
  intros Hg. unfold group_infos. apply mapM_is_Some.
  eapply Forall_impl; [exact Hg|].
  intros [|v0 v] [Hne _]; [done|]. simpl. eauto.
Qed.

End Groups.

(** ** Chain agglomeration: what a merge preserves *)

Section Agglomeration.

Local Open Scope nat_scope.


Lemma gather_app {A B} (f : A -> list B) l1 l2 :
  gather f (l1 ++ l2) = gather f l1 ++ gather f l2.
Proof. unfold gather. by rewrite fmap_app, concat_app. Qed.

Lemma gather_cons {A B} (f : A -> list B) x l :
  gather f (x :: l) = f x ++ gather f l.
Proof. reflexivity. Qed.

Lemma gather_insert {A B} (f : A -> list B) l i x y :
  l !! i = Some x ->
  gather f (<[i:=y]> l) ++ f x ≡ₚ gather f l ++ f y.
Proof.
  intros Hi.
  rewrite insert_take_drop by (by eapply lookup_lt_Some).
  rewrite <- (take_drop_middle l i x Hi) at 3.
  rewrite !gather_app.
  change (gather f (y :: drop (S i) l)) with (f y ++ gather f (drop (S i) l)).
  change (gather f (x :: drop (S i) l)) with (f x ++ gather f (drop (S i) l)).
  rewrite <- !(assoc_L (++)).
  apply Permutation_app_head.
  rewrite (Permutation_app_comm (f y)).
  rewrite !(assoc_L (++)). apply Permutation_app_tail.
  apply Permutation_app_comm.
Qed.





Lemma links_app a b x :
  last a = Some x -> head b = Some x -> links (a ++ tail b) = links a ++ links b.
Proof.
  intros Ha Hb. destruct b as [|y b]; [done|]. simpl in Hb. injection Hb as ->.
  induction a as [|z a IH]; [done|].
  destruct a as [|z' a].
  - simpl in Ha. injection Ha as ->. reflexivity.
  - specialize (IH Ha). unfold links in *. simpl in *. by rewrite IH.
Qed.


Lemma merge_at_cases i j chains done st' :
  merge_at i j (chains, done) = Some st' ->
  st' = (chains, done) \/ (merged chains st'.1 /\ st'.2 = false).
Proof.
  unfold merge_at. intros Hm.
  destruct (chains !! i) as [ci|] eqn:Hi; [|done].
  destruct (chains !! j) as [cj|] eqn:Hj; [|done].
  simpl in Hm.
  destruct (head cj) as [front|] eqn:Hf; [|left; congruence].
  destruct (last ci) as [back|] eqn:Hb; [|done]. simpl in Hm.
  destruct (Nat.eqb_spec back front) as [->|]; [|left; congruence].
  right. injection Hm as <-. simpl. split; [|done].
  by eapply (merged_at _ _ i j ci cj front).
Qed.

Section MergeInvariants.

Lemma keep_length c : length (keep c) = (if decide (c = []) then 0 else 1).
Proof. by destruct c. Qed.

Lemma merged_length chains chains' :
  merged chains chains' -> length chains' = length chains.
Proof. intros [i j ci cj x _ _ _ _ ->]. by rewrite !length_insert. Qed.

(** A merge clears a chain: one live chain less. *)
Lemma merged_live chains chains' :
  merged chains chains' -> S (length (live chains')) = length (live chains).
Proof.
  intros [i j ci cj x Hi Hj Hl Hh ->]. unfold live.
  assert (Hci : ci <> []) by (intros ->; done).
  assert (Hcj : cj <> []) by (intros ->; done).
  destruct (decide (i = j)) as [->|Hne].
  - rewrite list_insert_insert_eq.
    pose proof (gather_insert keep chains j ci [] Hi) as Hp.
    apply Permutation_length in Hp. rewrite !length_app, !keep_length in Hp.
    rewrite decide_False, decide_True in Hp by done. lia.
  - pose proof (gather_insert keep chains i ci (ci ++ tail cj) Hi) as Hp1.
    assert (Hj' : <[i:=ci ++ tail cj]> chains !! j = Some cj)
      by (by rewrite list_lookup_insert_ne).
    pose proof (gather_insert keep _ j cj [] Hj') as Hp2.
    apply Permutation_length in Hp1, Hp2.
    rewrite !length_app, !keep_length in Hp1, Hp2.
    rewrite !decide_False in Hp1 by (done || by destruct ci).
    rewrite decide_False, decide_True in Hp2 by done. lia.
Qed.

(** A merge loses no link, except those of a chain merged with itself. *)
Lemma merged_links chains chains' :
  merged chains chains' -> all_links chains' ⊆+ all_links chains.
Proof.
  intros [i j ci cj x Hi Hj Hl Hh ->]. unfold all_links.
  destruct (decide (i = j)) as [->|Hne].
  - rewrite list_insert_insert_eq.
    pose proof (gather_insert links chains j ci [] Hi) as Hp.
    simpl in Hp. rewrite app_nil_r in Hp. rewrite <- Hp.
    by apply submseteq_inserts_r.
  - pose proof (gather_insert links chains i ci (ci ++ tail cj) Hi) as Hp1.
    assert (Hj' : <[i:=ci ++ tail cj]> chains !! j = Some cj)
      by (by rewrite list_lookup_insert_ne).
    pose proof (gather_insert links _ j cj [] Hj') as Hp2.
    simpl in Hp2. rewrite app_nil_r in Hp2.
    rewrite (links_app _ _ x Hl Hh) in Hp1.
    rewrite <- Hp2 in Hp1.
    rewrite (assoc_L (++)) in Hp1.
    rewrite <- (assoc_L (++) _ (links cj) (links ci)) in Hp1.
    rewrite (comm (++) (links cj) (links ci)) in Hp1.
    rewrite (assoc_L (++)) in Hp1.
    apply Permutation_app_inv_r in Hp1.
    apply Permutation_app_inv_r in Hp1.
    by rewrite Hp1.
Qed.


Lemma merged_well_sized chains chains' :
  merged chains chains' -> well_sized chains -> well_sized chains'.
Proof.
  intros [i j ci cj x Hi Hj Hl Hh ->] Hw. unfold well_sized in *.
  apply Forall_insert; [|by left].
  apply Forall_insert; [done|].
  right. rewrite length_app.
  pose proof (Forall_lookup_1 _ _ _ _ Hw Hi) as [->|?]; [done|lia].
Qed.

(** A merge only moves members between chains. *)
Lemma merged_members (P : nat -> Prop) chains chains' :
  merged chains chains' ->
  Forall (Forall P) chains -> Forall (Forall P) chains'.
Proof.
  intros [i j ci cj x Hi Hj Hl Hh ->] Hw.
  apply Forall_insert; [|done].
  apply Forall_insert; [done|].
  apply Forall_app. split.
  - exact (Forall_lookup_1 _ _ _ _ Hw Hi).
  - pose proof (Forall_lookup_1 _ _ _ _ Hw Hj) as Hcj.
    destruct cj; [done|]. by apply Forall_cons in Hcj as [_ ?].
Qed.

End MergeInvariants.

(** ** One pass of the merge loops *)


Lemma pass_rel_refl st : pass_rel st st.
Proof. by left. Qed.

Lemma pass_rel_trans st1 st2 st3 :
  pass_rel st1 st2 -> pass_rel st2 st3 -> pass_rel st1 st3.
Proof.
  intros [->|[H1 D1]] [->|[H2 D2]]; try (by left); try (by right).
  right. split; [by etrans|done].
Qed.

Lemma pass_rel_done st st' : pass_rel st st' -> st'.2 = true -> st' = st.
Proof. intros [->|[_ Hd]]; [done|congruence]. Qed.

Lemma foldM_opt_rel {A B} (R : B -> B -> Prop) (f : A -> B -> option B) :
  (forall b, R b b) -> (forall a b c, R a b -> R b c -> R a c) ->
  (forall a b b', f a b = Some b' -> R b b') ->
  forall l b b', foldM_opt f l b = Some b' -> R b b'.
Proof.
  intros Hrefl Htrans Hf. induction l as [|a l IH]; simpl; intros b b' Hl.
  - injection Hl as ->. apply Hrefl.
  - destruct (f a b) as [b1|] eqn:Hb1; [|done]. simpl in Hl. eauto.
Qed.

(** If a fold ends with [done] still true, no step changed the state. *)
Lemma foldM_opt_unchanged {A} (f : A -> Chains * bool -> option (Chains * bool)) :
  (forall a b b', f a b = Some b' -> pass_rel b b') ->
  forall l b b', foldM_opt f l b = Some b' -> b'.2 = true ->
    b' = b /\ Forall (fun a => f a b = Some b) l.
Proof.
  intros Hf. induction l as [|a l IH]; simpl; intros b b' Hl Hd.
  - injection Hl as ->. auto.
  - destruct (f a b) as [b1|] eqn:Hb1; [|done]. simpl in Hl.
    destruct (IH _ _ Hl Hd) as [-> Hall].
    pose proof (pass_rel_done _ _ (Hf _ _ _ Hb1) Hd) as ->. auto.
Qed.

Lemma merge_at_rel i j st st' : merge_at i j st = Some st' -> pass_rel st st'.
Proof.
  destruct st as [chains done]. intros Hm.
  destruct (merge_at_cases _ _ _ _ _ Hm) as [->|[Hm' Hd]]; [by left|].
  right. split; [by apply tc_once|done].
Qed.

Lemma merge_row_rel n i st st' : merge_row n i st = Some st' -> pass_rel st st'.
Proof.
  unfold merge_row. destruct (st.1 !! i) as [[|x c]|]; [| |done].
  - intros [= ->]. apply pass_rel_refl.
  - apply foldM_opt_rel;
      eauto using pass_rel_refl, pass_rel_trans, merge_at_rel.
Qed.

Lemma merge_pass_rel chains st' :
  merge_pass chains = Some st' -> pass_rel (chains, true) st'.
Proof.
  unfold merge_pass. apply foldM_opt_rel;
    eauto using pass_rel_refl, pass_rel_trans, merge_row_rel.
Qed.


Lemma merge_at_unchanged_inv i j chains ci cj :
  merge_at i j (chains, true) = Some (chains, true) ->
  chains !! i = Some ci -> chains !! j = Some cj ->
  ci <> [] -> cj <> [] -> last ci <> head cj.
Proof.
  unfold merge_at. intros Hm Hi Hj Hci Hcj. rewrite Hi, Hj in Hm. simpl in Hm.
  destruct cj as [|front cj]; [done|]. simpl in *.
  destruct (last ci) as [back|] eqn:Hb; [|done]. simpl in Hm.
  destruct (Nat.eqb_spec back front); [done|congruence].
Qed.

Lemma merge_pass_done_stable chains chains' :
  merge_pass chains = Some (chains', true) -> chains' = chains /\ stable chains.
Proof.
  unfold merge_pass. intros Hp.
  apply foldM_opt_unchanged in Hp as [[= ->] Hrows];
    [|by eauto using merge_row_rel|done].
  split; [done|].
  intros c1 c2 H1 H2 Hn1 Hn2.
  apply list_elem_of_lookup in H1 as [i Hi], H2 as [j Hj].
  rewrite Forall_forall in Hrows.
  assert (Hrow : merge_row (length chains) i (chains, true) = Some (chains, true)).
  { apply Hrows, elem_of_seq. apply lookup_lt_Some in Hi. lia. }
  unfold merge_row in Hrow. simpl in Hrow. rewrite Hi in Hrow.
  destruct c1 as [|x c1]; [done|].
  apply foldM_opt_unchanged in Hrow as [_ Hcols];
    [|by eauto using merge_at_rel|done].
  rewrite Forall_forall in Hcols.
  eapply (merge_at_unchanged_inv i j); eauto.
  apply Hcols, elem_of_seq. apply lookup_lt_Some in Hj. lia.
Qed.

(** On stable chains without an empty one, a pass changes nothing. *)
Lemma merge_at_stable i j chains :
  stable chains -> Forall (fun c => c <> []) chains ->
  i < length chains -> j < length chains ->
  merge_at i j (chains, true) = Some (chains, true).
Proof.
  intros Hs Hne Hi Hj. unfold merge_at.
  destruct (lookup_lt_is_Some_2 _ _ Hi) as [ci Hci].
  destruct (lookup_lt_is_Some_2 _ _ Hj) as [cj Hcj].
  rewrite Hci, Hcj. simpl.
  pose proof (Forall_lookup_1 _ _ _ _ Hne Hci) as Hci'.
  pose proof (Forall_lookup_1 _ _ _ _ Hne Hcj) as Hcj'.
  assert (Hst : last ci <> head cj).
  { apply Hs; eauto using list_elem_of_lookup_2. }
  destruct cj as [|front cj]; [done|]. simpl in *.
  destruct (last ci) as [back|] eqn:Hb.
  - simpl. destruct (Nat.eqb_spec back front); [congruence|done].
  - by apply last_None in Hb.
Qed.

Lemma foldM_opt_fixed {A B} (f : A -> B -> option B) l b :
  Forall (fun a => f a b = Some b) l -> foldM_opt f l b = Some b.
Proof.
  induction 1 as [|a l Ha _ IH]; simpl; [done|]. by rewrite Ha.
Qed.

Lemma merge_pass_stable chains :
  stable chains -> Forall (fun c => c <> []) chains ->
  merge_pass chains = Some (chains, true).
Proof.
  intros Hs Hne. unfold merge_pass.
  apply foldM_opt_fixed, Forall_forall. intros i Hi%elem_of_seq.
  unfold merge_row. simpl.
  destruct (lookup_lt_is_Some_2 chains i ltac:(lia)) as [ci Hci].
  rewrite Hci. destruct ci as [|x ci]; [done|].
  apply foldM_opt_fixed, Forall_forall. intros j Hj%elem_of_seq.
  apply merge_at_stable; auto; lia.
Qed.

(** A pass that merged left fewer live chains. *)
Lemma tc_merged_live chains chains' :
  tc merged chains chains' -> length (live chains') < length (live chains).
Proof.
  induction 1 as [x y Hm|x y z Hm _ IH].
  - apply merged_live in Hm. lia.
  - apply merged_live in Hm. lia.
Qed.

Lemma merge_pass_live chains chains' :
  merge_pass chains = Some (chains', false) ->
  length (live chains') < length (live chains).
Proof.
  intros Hp. apply merge_pass_rel in Hp as [[= _]|[Htc _]].
  by apply tc_merged_live.
Qed.

(** What a pass preserves, from what a merge preserves. *)
Lemma merge_pass_preserves (Q : Chains -> Prop) chains chains' done :
  (forall c c', merged c c' -> Q c -> Q c') ->
  merge_pass chains = Some (chains', done) -> Q chains -> Q chains'.
Proof.
  intros HQ Hp Hq. apply merge_pass_rel in Hp as [[= -> _]|[Htc _]]; [done|].
  simpl in Htc. induction Htc; eauto.
Qed.

(** ** Compaction *)

Lemma live_all_nonempty chains :
  Forall (fun c => c <> []) chains -> live chains = chains.
Proof.
  unfold live. induction 1 as [|c l Hc _ IH]; [done|].
  rewrite gather_cons, IH. by destruct c.
Qed.

Lemma live_nonempty chains : Forall (fun c => c <> []) (live chains).
Proof.
  unfold live. induction chains as [|c l IH]; [constructor|].
  rewrite gather_cons. destruct c; simpl; [done|]. by constructor.
Qed.

Lemma elem_of_live chains c : c ∈ live chains <-> c ∈ chains /\ c <> [].
Proof.
  unfold live. induction chains as [|d l IH].
  - unfold gather. simpl. rewrite elem_of_nil. tauto.
  - rewrite gather_cons, elem_of_app, IH, elem_of_cons.
    destruct d; simpl; rewrite ?elem_of_nil, ?list_elem_of_singleton.
    + split; [tauto|]. intros [[->|?] ?]; [done|tauto].
    + split; [intros [->|[? ?]]; auto|]. intros [[->|?] ?]; auto.
Qed.

Lemma swap_pop_spec i chains :
  chains !! i = Some [] ->
  live (swap_pop i chains) ≡ₚ live chains
  /\ length (swap_pop i chains) = length chains - 1
  /\ take i (swap_pop i chains) = take i chains.
Proof.
  intros Hi. unfold swap_pop.
  pose proof (lookup_lt_Some _ _ _ Hi) as Hlt.
  destruct (last chains) as [b|] eqn:Hb; [|apply last_None in Hb; subst; done].
  apply last_Some in Hb as [l ->].
  rewrite length_app in *. simpl in *.
  replace (length l + 1 - 1) with (length l) by lia.
  destruct (decide (i = length l)) as [->|Hne].
  - rewrite list_lookup_middle in Hi by done. injection Hi as ->.
    rewrite insert_app_r_alt, Nat.sub_diag by lia. simpl.
    rewrite take_app_length. unfold live. rewrite gather_app.
    unfold gather at 3. simpl. rewrite app_nil_r.
    split; [done|]. split; [lia|]. by rewrite take_ge.
  - assert (Hil : i < length l) by lia.
    rewrite lookup_app_l in Hi by done.
    rewrite insert_app_l by done.
    rewrite take_app_length' by (by rewrite length_insert).
    split; [|split].
    + pose proof (gather_insert keep l i [] b Hi) as Hp.
      simpl in Hp. rewrite app_nil_r in Hp.
      unfold live. rewrite gather_app. rewrite Hp.
      unfold gather at 3. simpl. by rewrite app_nil_r.
    + rewrite length_insert. lia.
    + rewrite take_insert_ge by lia. by rewrite take_app_le by lia.
Qed.

Lemma compact_from_spec steps : forall i chains,
  i <= length chains -> length chains - i <= steps ->
  Forall (fun c => c <> []) (take i chains) ->
  compact_from steps i chains ≡ₚ live chains.
Proof.
  induction steps as [|steps IH]; intros i chains Hi Hsteps Hpre; simpl.
  - rewrite take_ge in Hpre by lia. by rewrite live_all_nonempty.
  - destruct (chains !! i) as [[|x c]|] eqn:Hc.
    + destruct (swap_pop_spec i chains Hc) as (Hp & Hlen & Htake).
      pose proof (lookup_lt_Some _ _ _ Hc).
      rewrite <- Hp. apply IH; [lia|lia|by rewrite Htake].
    + pose proof (lookup_lt_Some _ _ _ Hc).
      apply IH; [lia|lia|].
      erewrite take_S_r by done. apply Forall_app. split; [done|].
      by repeat constructor.
    + apply lookup_ge_None in Hc. rewrite take_ge in Hpre by lia.
      by rewrite live_all_nonempty.
Qed.

Lemma compact_live chains : compact chains ≡ₚ live chains.
Proof.
  unfold compact. apply compact_from_spec; [lia|lia|].
  rewrite take_0. constructor.
Qed.

Lemma elem_of_compact chains c : c ∈ compact chains <-> c ∈ chains /\ c <> [].
Proof. by rewrite compact_live, elem_of_live. Qed.

Lemma compact_nonempty chains : Forall (fun c => c <> []) (compact chains).
Proof. rewrite compact_live. apply live_nonempty. Qed.

Lemma compact_length chains : length (compact chains) = length (live chains).
Proof. by rewrite compact_live. Qed.

Lemma live_length_le chains : length (live chains) <= length chains.
Proof.
  unfold live. induction chains as [|c l IH]; [simpl; lia|].
  rewrite gather_cons, length_app, keep_length. simpl. destruct (decide _); lia.
Qed.

Lemma all_links_live chains : all_links (live chains) = all_links chains.
Proof.
  unfold all_links, live. induction chains as [|c l IH]; [done|].
  rewrite !gather_cons, gather_app, IH.
  destruct c; [done|]. cbn [keep]. by rewrite gather_cons, app_nil_r.
Qed.

Lemma all_links_compact chains : all_links (compact chains) ≡ₚ all_links chains.
Proof.
  rewrite <- (all_links_live chains). unfold all_links, gather.
  by rewrite compact_live.
Qed.

Lemma compact_stable chains : stable chains -> stable (compact chains).
Proof.
  intros Hs c1 c2 H1 H2. apply elem_of_compact in H1 as [H1 _], H2 as [H2 _].
  by apply Hs.
Qed.

(** ** The loop *)

(** Every pass that does not finish removes a chain: with more fuel than
    chains the loop ends. *)
Lemma agglomerate_loop_fuel fuel : forall chains,
  length chains < fuel -> is_Some (agglomerate_loop fuel chains).
Proof.
  induction fuel as [|fuel IH]; intros chains Hlen; [lia|]. simpl.
  destruct (merge_pass chains) as [[chains' dn]|] eqn:Hp; [|by eexists].
  destruct dn; [by eexists|].
  apply IH. rewrite compact_length.
  apply merge_pass_live in Hp. pose proof (live_length_le chains). lia.
Qed.

(** What the loop preserves and what it establishes. *)
Lemma agglomerate_loop_preserves (Q : Chains -> Prop) fuel :
  (forall c c', merged c c' -> Q c -> Q c') ->
  (forall c, Q c -> Q (compact c)) ->
  forall chains r,
    agglomerate_loop fuel chains = Some (Some r) -> Q chains -> Q r.
Proof.
  intros Hm Hc. induction fuel as [|fuel IH]; intros chains r; simpl; [done|].
  destruct (merge_pass chains) as [[chains' dn]|] eqn:Hp; [|done].
  intros Hr Hq. pose proof (merge_pass_preserves Q _ _ _ Hm Hp Hq) as Hq'.
  destruct dn; [injection Hr as <-|]; eauto.
Qed.

Lemma agglomerate_loop_stable fuel : forall chains r,
  agglomerate_loop fuel chains = Some (Some r) ->
  stable r /\ Forall (fun c => c <> []) r.
Proof.
  induction fuel as [|fuel IH]; intros chains r; simpl; [done|].
  destruct (merge_pass chains) as [[chains' dn]|] eqn:Hp; [|done].
  destruct dn; [|by apply IH].
  intros [= <-]. apply merge_pass_done_stable in Hp as [-> Hs].
  split; [by apply compact_stable | apply compact_nonempty].
Qed.

Lemma compact_from_id steps : forall i chains,
  Forall (fun c => c <> []) chains -> compact_from steps i chains = chains.
Proof.
  induction steps as [|steps IH]; intros i chains Hne; simpl; [done|].
  destruct (chains !! i) as [[|x c]|] eqn:Hc; [|by apply IH|done].
  by pose proof (Forall_lookup_1 _ _ _ _ Hne Hc).
Qed.

(** ** Chains as paths: sources and targets of the links *)

Lemma links_cons h h' t : links (h :: h' :: t) = (h, h') :: links (h' :: t).
Proof. reflexivity. Qed.

Lemma links_snd c : (links c).*2 = tail c.
Proof.
  destruct c as [|h t]; [done|].
  change (links (h :: t)) with (zip (h :: t) t).
  apply snd_zip. simpl. lia.
Qed.

Lemma chain_targets c x : x ∈ c <-> head c = Some x \/ x ∈ (links c).*2.
Proof.
  destruct c as [|h t]; simpl.
  - split; [by intros ?%elem_of_nil|]. intros [?|Hx]; [done|].
    by apply elem_of_nil in Hx.
  - rewrite links_snd. simpl. rewrite elem_of_cons.
    split; (intros [?|?]; [left; congruence | by right]).
Qed.

Lemma chain_sources c x : x ∈ c <-> x ∈ (links c).*1 \/ last c = Some x.
Proof.
  induction c as [|h [|h' t] IH].
  - simpl. split; [by intros ?%elem_of_nil|]. intros [Hx|?]; [|done].
    by apply elem_of_nil in Hx.
  - simpl. rewrite list_elem_of_singleton.
    split; [intros ->; auto|]. intros [Hx|?]; [|congruence].
    by apply elem_of_nil in Hx.
  - rewrite links_cons, fmap_cons, !elem_of_cons. simpl fst.
    change (last (h :: h' :: t)) with (last (h' :: t)).
    rewrite elem_of_cons in IH. tauto.
Qed.

Lemma all_links_cons c r : all_links (c :: r) = links c ++ all_links r.
Proof. reflexivity. Qed.

Lemma elem_of_all_links c r e : c ∈ r -> e ∈ links c -> e ∈ all_links r.
Proof.
  induction 1 as [|d r Hr IH]; rewrite all_links_cons, elem_of_app; auto.
Qed.

(** Within one chain: no source twice, no target twice, and the ends
    differ, so no member twice. *)
Lemma chain_NoDup c :
  NoDup (links c).*1 -> NoDup (links c).*2 -> last c <> head c -> NoDup c.
Proof.
  destruct c as [|h t]; [constructor|]. intros Hs Ht Hends.
  destruct t as [|h' t]; [repeat constructor; by apply not_elem_of_nil|].
  rewrite links_cons, fmap_cons in Hs. simpl fst in Hs.
  apply NoDup_cons in Hs as [Hh Hs].
  constructor.
  - intros Hin. apply chain_sources in Hin as [Hin|Hin]; [done|].
    apply Hends. simpl in *. congruence.
  - by rewrite links_snd in Ht.
Qed.

Lemma elem_of_concat {A} (x : A) (ls : list (list A)) :
  x ∈ concat ls <-> exists l, x ∈ l /\ l ∈ ls.
Proof.
  rewrite list_elem_of_In, in_concat. split.
  - intros (l & Hl & Hx). exists l. by rewrite !list_elem_of_In.
  - intros (l & Hx & Hl). exists l. by rewrite <- !list_elem_of_In.
Qed.

(** Across the chains: when no group is the source of two links nor the
    target of two, and no chain ends where one starts, no group is in two
    chains. *)
Lemma chains_NoDup r :
  stable r -> Forall (fun c => c <> []) r ->
  NoDup (all_links r).*1 -> NoDup (all_links r).*2 -> NoDup (concat r).
Proof.
  induction r as [|c r IH]; intros Hst Hne Hs Ht; [constructor|].
  rewrite all_links_cons, fmap_app in Hs, Ht.
  apply NoDup_app in Hs as (Hs1 & Hs12 & Hs2), Ht as (Ht1 & Ht12 & Ht2).
  apply Forall_cons in Hne as [Hc Hne].
  simpl. apply NoDup_app. split; [|split].
  - apply chain_NoDup; auto. apply Hst; auto; by left.
  - intros x Hx Hx'. apply elem_of_concat in Hx' as (c' & Hx' & Hc').
    pose proof (proj1 (Forall_forall _ _) Hne _ Hc') as Hall.
    assert (Hsub1 : forall y, y ∈ (links c').*1 -> y ∈ (all_links r).*1).
    { intros y (e & -> & He)%list_elem_of_fmap. apply list_elem_of_fmap.
      exists e. eauto using elem_of_all_links. }
    assert (Hsub2 : forall y, y ∈ (links c').*2 -> y ∈ (all_links r).*2).
    { intros y (e & -> & He)%list_elem_of_fmap. apply list_elem_of_fmap.
      exists e. eauto using elem_of_all_links. }
    assert (Hcr : c ∈ c :: r) by (by left).
    assert (Hc'r : c' ∈ c :: r) by (by right).
    pose proof (Hst c c Hcr Hcr Hc Hc).
    pose proof (Hst c c' Hcr Hc'r Hc Hall).
    pose proof (Hst c' c Hc'r Hcr Hall Hc).
    pose proof (Hst c' c' Hc'r Hc'r Hall Hall).
    pose proof (proj1 (chain_sources c x) Hx) as [?|?];
      pose proof (proj1 (chain_sources c' x) Hx') as [?|?];
      pose proof (proj1 (chain_targets c x) Hx) as [?|?];
      pose proof (proj1 (chain_targets c' x) Hx') as [?|?];
      try (by eapply Hs12; eauto); try (by eapply Ht12; eauto); congruence.
  - apply IH; auto. intros c1 c2 H1 H2. apply Hst; by right.
Qed.

End Agglomeration.

(** ** Sorting and budget trimming *)

Lemma insert_by_size_perm c sorted : insert_by_size c sorted ≡ₚ c :: sorted.
Proof.
  induction sorted as [|d rest IH]; simpl; [done|].
  destruct (_ <? _)%nat; [|done]. rewrite IH. apply Permutation_swap.
Qed.

Lemma stable_sort_perm chains : stable_sort chains ≡ₚ chains.
Proof.
  induction chains as [|c rest IH]; simpl; [done|].
  by rewrite insert_by_size_perm, IH.
Qed.


Lemma positions_app a b : positions (a ++ b) = positions a + positions b.
Proof. induction a as [|c a IH]; simpl; lia. Qed.

Lemma positions_nonneg a : 0 <= positions a.
Proof. induction a as [|c a IH]; simpl; lia. Qed.

Lemma positions_perm a b : a ≡ₚ b -> positions a = positions b.
Proof. induction 1; simpl; lia. Qed.

Lemma size_t_small z : 0 <= z < 2 ^ 64 -> size_t z = z.
Proof. intros. unfold size_t. by apply Z.mod_small. Qed.

Lemma size_t_minus_one : size_t (-1) = 2 ^ 64 - 1.
Proof. reflexivity. Qed.

Section Trim.

Variable k : Z.
Hypothesis k_nonneg : 0 <= k.
Hypothesis k_int : k < 2 ^ 31.

(** The budget bounds the positions kept. *)
Lemma trim_loop_positions chains : forall trimmed sz,
  sz = positions trimmed -> sz <= k ->
  sz + positions chains < 2 ^ 64 ->
  positions (trim_loop k chains trimmed sz) <= k.
Proof.
  induction chains as [|c rest IH]; intros trimmed sz Hsz Hle Hov; simpl.
  - lia.
  - simpl in Hov. pose proof (positions_nonneg rest).
    pose proof (positions_nonneg trimmed).
    rewrite (size_t_small (sz + _)) by lia.
    rewrite (size_t_small k) by lia.
    destruct (Z.gtb_spec (sz + Z.of_nat (length c)) k) as [Hgt|Hfit].
    + destruct (Z.ltb_spec sz (size_t (k - 1))) as [Hlt|_]; [|lia].
      rewrite positions_app. simpl. rewrite length_take.
      destruct (decide (k = 0)) as [->|Hk]; [lia|].
      rewrite size_t_small in Hlt by lia. lia.
    + apply IH; [|lia|lia]. rewrite positions_app. simpl. lia.
Qed.

(** With a budget of at least one, a partial chain has two positions
    or more. *)
Lemma trim_loop_sizes chains : forall trimmed sz,
  1 <= k -> 0 <= sz -> sz + positions chains < 2 ^ 64 ->
  Forall (fun c => (2 <= length c)%nat) chains ->
  Forall (fun c => (2 <= length c)%nat) trimmed ->
  Forall (fun c => (2 <= length c)%nat) (trim_loop k chains trimmed sz).
Proof.
  induction chains as [|c rest IH]; intros trimmed sz Hk Hsz Hov Hc Ht; simpl.
  - done.
  - simpl in Hov. pose proof (positions_nonneg rest).
    apply Forall_cons in Hc as [Hc Hrest].
    rewrite (size_t_small (sz + _)) by lia.
    rewrite (size_t_small k) by lia.
    rewrite (size_t_small (k - 1)) by lia.
    destruct (Z.gtb_spec (sz + Z.of_nat (length c)) k) as [Hgt|Hfit].
    + destruct (Z.ltb_spec sz (k - 1)) as [Hlt|_]; [|done].
      apply Forall_app. split; [done|]. repeat constructor.
      rewrite length_take. lia.
    + apply IH; auto; try lia. apply Forall_app. auto.
Qed.

(** Where a partial chain is taken, the end iterator
    [c.begin() + max_carried_values - sz] is within the chain. *)
Lemma partial_chain_in_range sz (c : list nat) :
  0 <= sz <= k -> sz + Z.of_nat (length c) < 2 ^ 64 ->
  (size_t (sz + Z.of_nat (length c)) >? size_t k) = true ->
  0 <= k - sz < Z.of_nat (length c).
Proof.
  intros Hsz Hfit. rewrite !size_t_small by lia. lia.
Qed.

End Trim.


(** Whatever the budget, a kept chain is the beginning of a chain. *)
Lemma trim_loop_members (P : nat -> Prop) k chains : forall trimmed sz,
  Forall (Forall P) chains -> Forall (Forall P) trimmed ->
  Forall (Forall P) (trim_loop k chains trimmed sz).
Proof.
  induction chains as [|c rest IH]; intros trimmed sz Hc Ht; simpl; [done|].
  apply Forall_cons in Hc as [Hc Hrest].
  destruct (_ >? _).
  - destruct (_ <? _); [|done].
    apply Forall_app. split; [done|]. repeat constructor.
    by apply Forall_take.
  - apply IH; auto. apply Forall_app. auto.
Qed.

Lemma trim_positions k chains :
  0 <= k < 2 ^ 31 -> positions chains < 2 ^ 64 -> positions (trim k chains) <= k.
Proof.
  intros [? ?] ?. unfold trim. apply trim_loop_positions; simpl; lia.
Qed.

Lemma trim_sizes k chains :
  1 <= k < 2 ^ 31 -> positions chains < 2 ^ 64 ->
  Forall (fun c => (2 <= length c)%nat) chains ->
  Forall (fun c => (2 <= length c)%nat) (trim k chains).
Proof.
  intros [? ?] ? ?. unfold trim. apply trim_loop_sizes; auto; simpl; lia.
Qed.

Lemma trim_members (P : nat -> Prop) k chains :
  Forall (Forall P) chains -> Forall (Forall P) (trim k chains).
Proof. intros. by apply trim_loop_members. Qed.

(** ** Reading monadic code *)

Lemma bind_Some {S A B} (m : M S A) (k : A -> M S B) s r :
  bind m k s = Some r <-> exists a s', m s = Some (a, s') /\ k a s' = Some r.
Proof.
  unfold bind. destruct (m s) as [[a s']|]; split.
  - eauto.
  - by intros (? & ? & [= <- <-] & ?).
  - done.
  - by intros (? & ? & ? & ?).
Qed.

Lemma lift_opt_Some {S A} (o : option A) (s : S) r :
  lift_opt o s = Some r <-> exists a, o = Some a /\ r = (a, s).
Proof.
  unfold lift_opt. destruct o; split; try done.
  - intros [= <-]. eauto.
  - by intros (? & [= <-] & ->).
  - by intros (? & ? & ?).
Qed.

Lemma ret_Some {S A} (a : A) (s : S) r : ret a s = Some r <-> r = (a, s).
Proof. unfold ret. split; congruence. Qed.

Ltac inv_M :=
  repeat match goal with
    | H : bind _ _ _ = Some _ |- _ =>
        apply bind_Some in H; destruct H as (? & ? & ? & H)
    | H : lift_opt _ _ = Some _ |- _ =>
        apply lift_opt_Some in H; destruct H as (? & ? & ?)
    | H : ret _ _ = Some _ |- _ => apply ret_Some in H
    | H : fail _ = Some _ |- _ => discriminate H
    | H : fresh _ _ _ = Some _ |- _ => unfold fresh in H
    | H : push_alloc _ _ = Some _ |- _ => unfold push_alloc in H
    end; simplify_eq.

(** ** The edges and the chains have few positions *)

Lemma flat_map_length_le {A B} (f : A -> list B) m l :
  (forall x, (length (f x) <= m)%nat) -> (length (flat_map f l) <= m * length l)%nat.
Proof.
  intros Hf. induction l as [|x l IH]; simpl; [lia|].
  rewrite length_app. specialize (Hf x). lia.
Qed.

Lemma find_edges_length H infos :
  (length (find_edges H infos) <= length infos * length infos)%nat.
Proof.
  unfold find_edges. cbv zeta.
  transitivity (length infos * length (seq 0 (length infos)))%nat;
    [|by rewrite length_seq].
  apply flat_map_length_le. intros i.
  transitivity (1 * length (seq 0 (length infos)))%nat;
    [|rewrite length_seq; lia].
  apply flat_map_length_le.
  intros j. unfold edge_at.
  destruct (infos !! i), (infos !! j); simpl; try lia.
  destruct (_ && _); simpl; lia.
Qed.

Lemma links_length c : (2 <= length c)%nat -> (length c <= 2 * length (links c))%nat.
Proof.
  destruct c as [|h t]; [simpl; lia|]. intros Hc.
  change (links (h :: t)) with (zip (h :: t) t).
  rewrite length_zip. simpl length in *. lia.
Qed.

Lemma positions_links r :
  Forall (fun c => (2 <= length c)%nat) r ->
  positions r <= 2 * Z.of_nat (length (all_links r)).
Proof.
  induction 1 as [|c r Hc _ IH]; simpl; [done|].
  rewrite all_links_cons, length_app. apply links_length in Hc. lia.
Qed.

Lemma all_links_pairs edges :
  Forall (fun c => length c = 2%nat) edges ->
  length (all_links edges) = length edges.
Proof.
  induction 1 as [|c r Hc _ IH]; [done|].
  rewrite all_links_cons, length_app, IH.
  destruct c as [|a [|b [|]]]; try done.
Qed.

Lemma submseteq_NoDup {A} (l k : list A) : l ⊆+ k -> NoDup k -> NoDup l.
Proof.
  intros (l' & Hsub & Hp)%submseteq_sublist_l Hk.
  eapply sublist_NoDup; [|done]. by rewrite Hp.
Qed.

(** ** From the edges to the agglomerated chains *)

Lemma agglomerate_Some chains r :
  agglomerate chains = Some r <->
  agglomerate_loop (S (length chains)) chains = Some (Some r).
Proof.
  unfold agglomerate.
  destruct (agglomerate_loop _ _) as [[?|]|]; simpl; split; congruence.
Qed.

Lemma Forall_compact (P : list nat -> Prop) chains :
  Forall P chains -> Forall P (compact chains).
Proof.
  rewrite !Forall_forall. intros Hp c Hc%elem_of_compact. apply Hp. tauto.
Qed.

Section Agglomerated.

Variable edges r : Chains.
Hypothesis edges_pairs : Forall (fun c => length c = 2%nat) edges.
Hypothesis agglomerated : agglomerate edges = Some r.

Lemma agglomerated_sizes : Forall (fun c => (2 <= length c)%nat) r.
Proof.
  apply agglomerate_Some in agglomerated.
  pose proof (agglomerate_loop_stable _ _ _ agglomerated) as [_ Hne].
  assert (Hw : well_sized r).
  { eapply (agglomerate_loop_preserves well_sized); eauto.
    - apply merged_well_sized.
    - intros c. apply Forall_compact.
    - eapply Forall_impl; [exact edges_pairs|]. intros c ->. right. lia. }
  unfold well_sized in Hw. rewrite Forall_forall in Hw, Hne |- *.
  intros c Hc. destruct (Hw c Hc); [by destruct (Hne c Hc)|done].
Qed.

Lemma agglomerated_stable : stable r.
Proof.
  apply agglomerate_Some in agglomerated.
  by apply agglomerate_loop_stable in agglomerated as [? _].
Qed.

Lemma agglomerated_nonempty : Forall (fun c => c <> []) r.
Proof.
  apply agglomerate_Some in agglomerated.
  by apply agglomerate_loop_stable in agglomerated as [_ ?].
Qed.

Lemma agglomerated_links : all_links r ⊆+ all_links edges.
Proof.
  apply agglomerate_Some in agglomerated.
  eapply (agglomerate_loop_preserves (fun c => all_links c ⊆+ all_links edges));
    eauto.
  - intros c c' Hm Hc. etrans; [by apply merged_links|done].
  - intros c Hc. by rewrite all_links_compact.
Qed.

Lemma agglomerated_members (P : nat -> Prop) :
  Forall (Forall P) edges -> Forall (Forall P) r.
Proof.
  apply agglomerate_Some in agglomerated.
  eapply (agglomerate_loop_preserves (Forall (Forall P))); eauto.
  - apply merged_members.
  - intros c. apply Forall_compact.
Qed.

Lemma agglomerated_positions :
  positions r <= 2 * Z.of_nat (length edges).
Proof.
  etrans; [apply positions_links, agglomerated_sizes|].
  rewrite <- (all_links_pairs edges edges_pairs).
  pose proof (submseteq_length _ _ agglomerated_links). lia.
Qed.

End Agglomerated.

(** ** Acyclic edges: the loop meets no emptied chain *)

Lemma Forall_submseteq {A} (P : A -> Prop) (l k : list A) :
  l ⊆+ k -> Forall P k -> Forall P l.
Proof.
  rewrite !Forall_forall. intros Hs Hk x Hx. apply Hk.
  by eapply elem_of_submseteq.
Qed.

Lemma ascending_ends rank c : forall h l,
  Forall (fun e => (rank e.1 < rank e.2)%nat) (links c) ->
  head c = Some h -> last c = Some l -> (2 <= length c)%nat ->
  (rank h < rank l)%nat.
Proof.
  induction c as [|x [|y c] IH]; intros h l Ha Hh Hl Hlen; simpl in Hlen; try lia.
  rewrite links_cons in Ha. apply Forall_cons in Ha as [Hxy Ha].
  simpl in Hh, Hxy. injection Hh as <-.
  destruct c as [|z c].
  - simpl in Hl. injection Hl as <-. done.
  - change (last (x :: y :: z :: c)) with (last (y :: z :: c)) in Hl.
    specialize (IH y l Ha eq_refl Hl ltac:(simpl; lia)). lia.
Qed.

Lemma merged_sound rank chains chains' :
  merged chains chains' -> sound rank chains -> sound rank chains'.
Proof.
  intros Hm [Hw Ha]. split; [by eapply merged_well_sized|].
  eapply Forall_submseteq; [by apply merged_links|done].
Qed.

Lemma compact_sound rank chains : sound rank chains -> sound rank (compact chains).
Proof.
  intros [Hw Ha]. split; [by apply Forall_compact|].
  unfold ascending. by rewrite all_links_compact.
Qed.

Lemma pass_rel_sound rank st st' :
  pass_rel st st' -> sound rank st.1 -> sound rank st'.1
  /\ length st'.1 = length st.1.
Proof.
  intros [->|[Htc _]] Hs; [done|].
  induction Htc as [x y Hm|x y z Hm _ IH].
  - split; [by eapply merged_sound|by apply merged_length].
  - destruct (IH (merged_sound _ _ _ Hm Hs)) as [? Hl].
    split; [done|]. rewrite Hl. by apply merged_length.
Qed.

(** In row [i] the chain [i] stays non-empty: it is never merged with
    itself. *)
Lemma merge_at_defined rank i j chains d :
  sound rank chains ->
  (i < length chains)%nat -> (j < length chains)%nat ->
  (exists ci, chains !! i = Some ci /\ ci <> []) ->
  exists st', merge_at i j (chains, d) = Some st'
              /\ exists ci', st'.1 !! i = Some ci' /\ ci' <> [].
Proof.
  intros [Hw Ha] Hi Hj (ci & Hci & Hne). unfold merge_at.
  destruct (lookup_lt_is_Some_2 _ _ Hj) as [cj Hcj].
  rewrite Hci, Hcj. simpl.
  destruct (head cj) as [front|] eqn:Hf; [|by eauto 6].
  destruct (last ci) as [back|] eqn:Hb; [|by apply last_None in Hb].
  simpl. destruct (Nat.eqb_spec back front) as [->|]; [|by eauto 6].
  eexists. split; [done|]. simpl.
  destruct (decide (i = j)) as [->|Hij].
  - exfalso. assert (cj = ci) as -> by congruence.
    assert (Hlen : (2 <= length ci)%nat).
    { by destruct (Forall_lookup_1 _ _ _ _ Hw Hci). }
    assert (Hl : Forall (fun e => (rank e.1 < rank e.2)%nat) (links ci)).
    { unfold ascending in Ha. rewrite Forall_forall in Ha |- *. intros e He. apply Ha.
      eapply elem_of_all_links; [|done]. by eapply list_elem_of_lookup_2. }
    pose proof (ascending_ends rank ci front front Hl Hf Hb Hlen). lia.
  - exists (ci ++ tail cj).
    rewrite list_lookup_insert_ne by done.
    rewrite list_lookup_insert_eq by done.
    split; [done|]. by destruct ci.
Qed.

Lemma merge_row_defined rank n i st :
  sound rank st.1 -> n = length st.1 -> (i < n)%nat ->
  is_Some (merge_row n i st).
Proof.
  intros Hs -> Hi. unfold merge_row.
  destruct (lookup_lt_is_Some_2 _ _ Hi) as [ci Hci]. rewrite Hci.
  destruct ci as [|x ci]; [by eexists|].
  assert (Hgen : forall js st0,
            sound rank st0.1 -> length st0.1 = length st.1 ->
            (exists ci', st0.1 !! i = Some ci' /\ ci' <> []) ->
            Forall (fun j => (j < length st.1)%nat) js ->
            is_Some (foldM_opt (merge_at i) js st0)).
  { induction js as [|j js IH]; intros [cs d] Hs0 Hl0 Hne0 Hjs;
      cbn [foldM_opt fst] in *; [by eexists|].
    apply Forall_cons in Hjs as [Hj Hjs].
    destruct (merge_at_defined rank i j cs d Hs0 ltac:(lia) ltac:(lia) Hne0)
      as (st' & Hm & Hne'). rewrite Hm. cbn [mbind option_bind].
    destruct (pass_rel_sound rank _ _ (merge_at_rel _ _ _ _ Hm) Hs0) as [Hs' Hl'].
    apply IH; auto. cbn [fst] in Hl'. lia. }
  apply Hgen; eauto.
  apply Forall_forall. intros j Hj%elem_of_seq. lia.
Qed.

Lemma merge_pass_defined rank chains :
  sound rank chains -> is_Some (merge_pass chains).
Proof.
  intros Hs. unfold merge_pass.
  assert (Hgen : forall rows st0,
            sound rank st0.1 -> length st0.1 = length chains ->
            Forall (fun i => (i < length chains)%nat) rows ->
            is_Some (foldM_opt (merge_row (length chains)) rows st0)).
  { induction rows as [|i rows IH]; intros st0 Hs0 Hl0 His; simpl; [by eexists|].
    apply Forall_cons in His as [Hi His].
    destruct (merge_row_defined rank (length chains) i st0 Hs0 ltac:(done) Hi)
      as [st' Hm]. rewrite Hm. cbn [mbind option_bind].
    destruct (pass_rel_sound rank _ _ (merge_row_rel _ _ _ _ Hm) Hs0) as [Hs' Hl'].
    apply IH; auto. lia. }
  apply Hgen; auto.
  apply Forall_forall. intros i Hi%elem_of_seq. lia.
Qed.

Lemma agglomerate_loop_defined rank fuel : forall chains,
  sound rank chains -> (length chains < fuel)%nat ->
  exists r, agglomerate_loop fuel chains = Some (Some r).
Proof.
  induction fuel as [|fuel IH]; intros chains Hs Hlen; [lia|]. simpl.
  destruct (merge_pass_defined rank chains Hs) as [[chains' dn] Hp].
  rewrite Hp.
  destruct dn; [by eexists|].
  apply IH.
  - apply compact_sound.
    eapply (merge_pass_preserves (sound rank)); eauto using merged_sound.
  - rewrite compact_length. apply merge_pass_live in Hp.
    pose proof (live_length_le chains). lia.
Qed.

(** ** Code synthesis: what one chain emits *)

Lemma foldM_opt_app {A B} (f : A -> B -> option B) l1 l2 b :
  foldM_opt f (l1 ++ l2) b = foldM_opt f l1 b ≫= foldM_opt f l2.
Proof.
  revert b. induction l1 as [|a l1 IH]; intros b; simpl; [done|].
  destruct (f a b); simpl; [apply IH|done].
Qed.


Lemma targets_app l1 l2 : targets (l1 ++ l2) = targets l1 ++ targets l2.
Proof. unfold targets. by rewrite flat_map_app. Qed.

Lemma store_targets_Block_make a b :
  store_targets (Block_make a b) = store_targets a ++ store_targets b.
Proof.
  induction a; simpl; try done.
  rewrite IHa2. by rewrite (assoc_L (++)).
Qed.

Lemma store_targets_Block_make_list l b :
  Block_make_list l = Some b -> store_targets b = targets l.
Proof.
  revert b. induction l as [|s l IH]; intros b; [done|].
  destruct l as [|s' l].
  - intros [= <-]. unfold targets. simpl. by rewrite app_nil_r.
  - change (Block_make_list (s :: s' :: l))
      with (match Block_make_list (s' :: l) with
            | Some r => Some (Block_make s r) | None => None end).
    destruct (Block_make_list (s' :: l)) as [r|]; [|done].
    intros [= <-]. rewrite store_targets_Block_make, (IH r eq_refl). done.
Qed.

Section Synthesis.

Variable H : Host.
Variable loads : list (list LoadNode).

(** An observation of the core that replacing a load does not change;
    the sequence of its stores is one, under the host contract. *)
Context {X : Type} (obs : Stmt -> X).
Hypothesis graph_substitute_obs : forall a b s,
  obs (graph_substitute H a b s) = obs s.

Lemma chain_position_inv scratch c st i st' :
  chain_position H loads scratch c st i = Some st' ->
  obs (core st') = obs (core st)
  /\ targets (not_first_iteration_scratch_stores st')
     = targets (not_first_iteration_scratch_stores st)
         ++ (if (i =? length c - 1)%nat then [scratch] else [])
  /\ targets (scratch_shuffles st')
     = targets (scratch_shuffles st)
         ++ (if (0 <? i)%nat then [scratch] else []).
Proof.
  unfold chain_position. intros Hp.
  destruct (c !! i) as [ci|]; [|done]. simpl in Hp.
  destruct (loads !! ci) as [group|]; [|done]. simpl in Hp.
  destruct (head group) as [orig_load|]; [|done]. simpl in Hp.
  injection Hp as <-. simpl. split; [|split].
  - generalize (core st).
    induction group as [|l group IH]; intros cr; simpl; [done|].
    by rewrite IH, graph_substitute_obs.
  - rewrite targets_app. by destruct (_ =? _)%nat.
  - rewrite targets_app. by destruct (_ <? _)%nat.
Qed.

Lemma chain_prefix_inv scratch c m : forall st st',
  (m < length c)%nat ->
  foldM_opt (fun i s => chain_position H loads scratch c s i) (seq 0 m) st
    = Some st' ->
  obs (core st') = obs (core st)
  /\ targets (not_first_iteration_scratch_stores st')
     = targets (not_first_iteration_scratch_stores st)
  /\ targets (scratch_shuffles st')
     = targets (scratch_shuffles st) ++ replicate (m - 1) scratch.
Proof.
  induction m as [|m IH]; intros st st' Hm Hf.
  - injection Hf as <-. by rewrite app_nil_r.
  - rewrite seq_S, foldM_opt_app in Hf. simpl in Hf.
    destruct (foldM_opt _ (seq 0 m) st) as [st1|] eqn:H1; [|done].
    simpl in Hf.
    destruct (chain_position H loads scratch c st1 m) as [st2|] eqn:H2; [|done].
    injection Hf as <-.
    assert (Hm' : (m < length c)%nat) by lia.
    destruct (IH _ _ Hm' H1) as (Hc & Hn & Hs).
    destruct (chain_position_inv _ _ _ _ _ H2) as (Hc' & Hn' & Hs').
    rewrite Hc', Hn', Hs', Hc, Hn, Hs.
    destruct (Nat.eqb_spec m (length c - 1)); [lia|].
    rewrite app_nil_r. split; [done|]. split; [done|].
    rewrite <- (assoc_L (++)). f_equal.
    destruct m as [|m]; [done|]. simpl.
    replace (m - 0)%nat with m by lia.
    change [scratch] with (replicate 1 scratch).
    rewrite <- replicate_add. by replace (m + 1)%nat with (S m) by lia.
Qed.

(** All positions of a chain: one leading-edge store, and a shuffle for
    every position but the first. *)
Lemma chain_positions_inv scratch c st st' :
  c <> [] ->
  foldM_opt (fun i s => chain_position H loads scratch c s i)
    (seq 0 (length c)) st = Some st' ->
  obs (core st') = obs (core st)
  /\ targets (not_first_iteration_scratch_stores st')
     = targets (not_first_iteration_scratch_stores st) ++ [scratch]
  /\ targets (scratch_shuffles st')
     = targets (scratch_shuffles st) ++ replicate (length c - 1) scratch.
Proof.
  intros Hc Hf.
  destruct (length c) as [|m] eqn:Hlen; [by destruct c|].
  rewrite seq_S, foldM_opt_app in Hf. simpl in Hf.
  destruct (foldM_opt _ (seq 0 m) st) as [st1|] eqn:H1; [|done].
  simpl in Hf.
  destruct (chain_position H loads scratch c st1 m) as [st2|] eqn:H2; [|done].
  injection Hf as <-.
  assert (Hm : (m < length c)%nat) by lia.
  destruct (chain_prefix_inv scratch c m st st1 Hm H1) as (Hc1 & Hn1 & Hs1).
  destruct (chain_position_inv _ _ _ _ _ H2) as (Hc2 & Hn2 & Hs2).
  rewrite Hc2, Hn2, Hs2, Hc1, Hn1, Hs1, Hlen.
  replace (S m - 1)%nat with m by lia. rewrite Nat.eqb_refl.
  split; [done|]. split; [done|].
  rewrite <- (assoc_L (++)). f_equal.
  destruct m as [|m]; [done|]. simpl.
  replace (m - 0)%nat with m by lia.
  change [scratch] with (replicate 1 scratch).
  rewrite <- replicate_add. by replace (m + 1)%nat with (S m) by lia.
Qed.

(** What [synthesize_chain] does for one chain. *)
Lemma synthesize_chain_inv containing_lets st c s st' s' :
  synthesize_chain H loads containing_lets st c s = Some (st', s') ->
  exists l0 a,
    front_load loads c = Some l0
    /\ allocs s' = allocs s ++ [a]
    /\ alloc_name a = unique_name H "c"%char (counter s)
    /\ alloc_type a = element_of (ld_type l0)
    /\ alloc_size a = Z.of_nat (length c) * lanes (ld_type l0)
    /\ obs (core st') = obs (core st)
    /\ targets (not_first_iteration_scratch_stores st')
       = targets (not_first_iteration_scratch_stores st) ++ [alloc_name a]
    /\ targets (scratch_shuffles st')
       = targets (scratch_shuffles st)
           ++ replicate (length c - 1) (alloc_name a).
Proof.
  unfold synthesize_chain. intros Hs.
  apply bind_Some in Hs as (scratch & s1 & Hfresh & Hs).
  apply bind_Some in Hs as (st1 & s2 & Hpos & Hs).
  apply bind_Some in Hs as (b & s3 & Hfresh' & Hs).
  inv_M.
  destruct (peel_lets _) as [initial_lets inner].
  destruct inner; try discriminate Hs.
  inv_M.
  match goal with Hh : head c = Some ?f, Hl : loads !! ?f = Some ?g,
    Hg : head ?g = Some ?l |- _ =>
      exists l; eexists; unfold front_load; rewrite Hh; simpl; rewrite Hl;
      simpl; split; [exact Hg|]
  end.
  simpl. do 4 (split; [reflexivity|]).
  assert (Hc : c <> []) by (intros ->; discriminate).
  match goal with Hpos : foldM_opt _ _ _ = Some _ |- _ =>
    destruct (chain_positions_inv _ _ _ _ Hc Hpos) as (? & ? & ?)
  end.
  simpl in *. auto.
Qed.

End Synthesis.

(** ** All chains of one call *)



Lemma synthesize_all_inv H loads containing_lets {X} (obs : Stmt -> X) :
  (forall a b s, obs (graph_substitute H a b s) = obs s) ->
  forall chains st s st' s',
    foldM (synthesize_chain H loads containing_lets) chains st s = Some (st', s') ->
    exists new,
      allocs s' = allocs s ++ new
      /\ Forall2 (alloc_of H loads) new chains
      /\ obs (core st') = obs (core st)
      /\ targets (not_first_iteration_scratch_stores st')
         = targets (not_first_iteration_scratch_stores st) ++ (alloc_name <$> new)
      /\ targets (scratch_shuffles st')
         = targets (scratch_shuffles st) ++ shuffle_targets new chains.
Proof.
  intros Hgs. induction chains as [|c chains IH]; intros st s st' s' Hf.
  - simpl in Hf. inv_M. exists []. rewrite !app_nil_r.
    repeat split; auto.
  - simpl in Hf. apply bind_Some in Hf as (st1 & s1 & Hc & Hf).
    apply (synthesize_chain_inv H loads obs Hgs) in Hc
      as (l0 & a & Hfront & Ha & Hname & Hty & Hsize & Hcore & Hnf & Hsh).
    apply IH in Hf as (new & Ha' & Hall & Hcore' & Hnf' & Hsh').
    exists (a :: new). rewrite Ha', Ha, Hcore', Hcore, Hnf', Hnf, Hsh', Hsh.
    rewrite <- !(assoc_L (++)). repeat split; auto.
    constructor; [|done]. exists l0. eauto.
Qed.

(** ** The shape of lift_carried_values_out_of_stmt *)

Lemma lift_inv H in_consume k linear containing_lets orig s out s' :
  lift_carried_values_out_of_stmt H in_consume k linear containing_lets orig s
    = Some (out, s') ->
  exists edges chains,
    carry_edges H in_consume linear orig = Some edges
    /\ kept_chains H in_consume k linear orig = Some chains
    /\ ((edges = [] /\ chains = [] /\ out = orig /\ s' = s)
        \/ (edges <> []
            /\ exists st leading shuffles,
                foldM (synthesize_chain H (found_groups H in_consume orig)
                         containing_lets) chains
                  (mkSynth (substitute_in_all_lets_stmt H orig) [] [] []) s
                  = Some (st, s')
                /\ Block_make_list (not_first_iteration_scratch_stores st)
                   = Some leading
                /\ Block_make_list (scratch_shuffles st) = Some shuffles
                /\ out = common_subexpression_elimination_stmt H
                           (Block_make (Block_make leading (core st)) shuffles))).
Proof.
  unfold lift_carried_values_out_of_stmt, carry_edges, kept_chains, found_groups.
  intros Hl. apply bind_Some in Hl as (infos & s0 & Hi & Hl).
  apply lift_opt_Some in Hi as (infos' & Hi & Heq).
  injection Heq as ? ?; subst infos' s0.
  rewrite Hi. simpl.
  destruct (find_edges H infos) as [|e edges] eqn:He.
  - apply ret_Some in Hl. injection Hl as ? ?; subst out s'.
    exists [], []. auto 8.
  - apply bind_Some in Hl as (chains1 & s1 & Ha & Hl).
    apply lift_opt_Some in Ha as (chains1' & Ha & Heq).
    injection Heq as ? ?; subst chains1' s1.
    rewrite Ha. simpl.
    apply bind_Some in Hl as (st & s2 & Hf & Hl).
    apply bind_Some in Hl as (b1 & s3 & Hb1 & Hl).
    apply lift_opt_Some in Hb1 as (b1' & Hb1 & Heq).
    injection Heq as ? ?; subst b1' s3.
    apply bind_Some in Hl as (b2 & s4 & Hb2 & Hl).
    apply lift_opt_Some in Hb2 as (b2' & Hb2 & Heq).
    injection Heq as ? ?; subst b2' s4.
    apply ret_Some in Hl. injection Hl as ? ?; subst out s'.
    unfold Block_make_defined in Hb1, Hb2.
    destruct (Block_make_list (not_first_iteration_scratch_stores st))
      as [leading|] eqn:Hlead; [|done].
    destruct (Block_make_list (scratch_shuffles st)) as [shuffles|] eqn:Hshuf;
      [|done].
    injection Hb1 as ?. injection Hb2 as ?. subst b1 b2.
    eexists _, _. split; [done|]. split; [done|]. right. split; [done|].
    exists st, leading, shuffles. auto.
Qed.

(** ** The kept chains *)

Lemma group_infos_length H linear loads infos :
  group_infos H linear loads = Some infos -> length infos = length loads.
Proof.
  unfold group_infos. intros Hm%mapM_Some. by apply Forall2_length in Hm.
Qed.

Lemma find_edges_are_pairs H infos :
  Forall (fun c => length c = 2%nat) (find_edges H infos).
Proof.
  eapply Forall_impl; [apply find_edges_pairs|].
  by intros c (i & j & -> & _).
Qed.

Lemma find_edges_members H infos :
  Forall (Forall (fun g => (g < length infos)%nat)) (find_edges H infos).
Proof.
  eapply Forall_impl; [apply find_edges_pairs|].
  intros c (i & j & -> & _ & Hi & Hj). by repeat constructor.
Qed.

Lemma kept_chains_inv H in_consume k linear orig chains :
  kept_chains H in_consume k linear orig = Some chains ->
  exists infos,
    group_infos H linear (found_groups H in_consume orig) = Some infos
    /\ ((find_edges H infos = [] /\ chains = [])
        \/ exists r, agglomerate (find_edges H infos) = Some r
                     /\ chains = trim k (stable_sort r)).
Proof.
  unfold kept_chains. intros Hk.
  destruct (group_infos _ _ _) as [infos|]; [|done]. simpl in Hk.
  exists infos. split; [done|].
  destruct (find_edges H infos) as [|e edges] eqn:He.
  - left. by injection Hk as <-.
  - right. destruct (agglomerate (e :: edges)) as [r|]; [|done].
    simpl in Hk. injection Hk as <-. eauto.
Qed.

Section KeptChains.

Variable H : Host.
Variable in_consume : Scope unit.
Variable k : Z.
Variable linear : LinearScope.
Variable orig : Stmt.
Variable chains : Chains.
Hypothesis kept : kept_chains H in_consume k linear orig = Some chains.

Local Abbreviation loads := (found_groups H in_consume orig).

Lemma kept_chains_members :
  Forall (Forall (fun g => (g < length loads)%nat)) chains.
Proof.
  destruct (kept_chains_inv _ _ _ _ _ _ kept) as (infos & Hi & Hc).
  apply group_infos_length in Hi.
  destruct Hc as [[_ ->]|(r & Hr & ->)]; [constructor|].
  apply trim_members. rewrite stable_sort_perm.
  eapply agglomerated_members; [exact Hr|].
  rewrite <- Hi. apply find_edges_members.
Qed.

Lemma kept_chains_positions :
  0 <= k < 2 ^ 31 -> Z.of_nat (length loads) < 2 ^ 31 -> positions chains <= k.
Proof.
  intros Hk Hn.
  destruct (kept_chains_inv _ _ _ _ _ _ kept) as (infos & Hi & Hc).
  apply group_infos_length in Hi.
  destruct Hc as [[_ ->]|(r & Hr & ->)]; [simpl; lia|].
  apply trim_positions; [done|].
  rewrite (positions_perm _ _ (stable_sort_perm r)).
  pose proof (agglomerated_positions _ _ (find_edges_are_pairs H infos) Hr).
  pose proof (find_edges_length H infos). nia.
Qed.

Lemma kept_chains_sizes :
  1 <= k < 2 ^ 31 -> Z.of_nat (length loads) < 2 ^ 31 ->
  Forall (fun c => (2 <= length c)%nat) chains.
Proof.
  intros Hk Hn.
  destruct (kept_chains_inv _ _ _ _ _ _ kept) as (infos & Hi & Hc).
  apply group_infos_length in Hi.
  destruct Hc as [[_ ->]|(r & Hr & ->)]; [constructor|].
  pose proof (agglomerated_sizes _ _ (find_edges_are_pairs H infos) Hr).
  apply trim_sizes; [done| |by rewrite stable_sort_perm].
  rewrite (positions_perm _ _ (stable_sort_perm r)).
  pose proof (agglomerated_positions _ _ (find_edges_are_pairs H infos) Hr).
  pose proof (find_edges_length H infos). nia.
Qed.

End KeptChains.

(** ** Blocks in canonical form *)

Lemma block_to_vector_nonempty s : block_to_vector s <> [].
Proof.
  induction s; simpl; try done.
  destruct (block_to_vector s1); [done|]. done.
Qed.

Lemma block_to_vector_not_Block s : is_Block s = false -> block_to_vector s = [s].
Proof. by destruct s. Qed.

Lemma block_to_vector_Block_make a b :
  block_to_vector (Block_make a b) = block_to_vector a ++ block_to_vector b.
Proof.
  induction a; simpl; try done.
  by rewrite IHa2, (assoc_L (++)).
Qed.

Lemma canonical_Block_make a b :
  canonical a -> canonical b -> canonical (Block_make a b).
Proof.
  induction a; simpl; intros Ha Hb; auto.
  destruct Ha as (? & ? & ?). auto.
Qed.

Lemma Block_make_list_is_Some s l : is_Some (Block_make_list (s :: l)).
Proof.
  revert s. induction l as [|s' l IH]; intros s; [by eexists|].
  destruct (IH s') as [r Hr].
  change (is_Some (match Block_make_list (s' :: l) with
                   | Some r => Some (Block_make s r) | None => None end)).
  rewrite Hr. by eexists.
Qed.

Lemma Block_make_list_None l : Block_make_list l = None <-> l = [].
Proof.
  destruct l as [|s l]; [done|].
  destruct (Block_make_list_is_Some s l) as [r ->]. done.
Qed.

Lemma Block_make_list_cons s s' l :
  Block_make_list (s :: s' :: l)
  = (fun r => Block_make s r) <$> Block_make_list (s' :: l).
Proof. reflexivity. Qed.

Lemma Block_make_list_spec l r :
  Forall canonical l -> Block_make_list l = Some r ->
  canonical r /\ block_to_vector r = concat (block_to_vector <$> l).
Proof.
  revert r. induction l as [|s l IH]; intros r Hl Hr; [done|].
  apply Forall_cons in Hl as [Hs Hl].
  destruct l as [|s' l].
  - injection Hr as <-. simpl. by rewrite app_nil_r.
  - rewrite Block_make_list_cons in Hr.
    destruct (Block_make_list (s' :: l)) as [r'|]; [|done].
    injection Hr as <-. destruct (IH r' Hl eq_refl) as [Hc Hv].
    split; [by apply canonical_Block_make|].
    rewrite block_to_vector_Block_make, Hv. done.
Qed.

(** Two statements in canonical form with the same vector are equal. *)
Lemma canonical_vector_eq r : forall s,
  canonical r -> canonical s ->
  block_to_vector r = block_to_vector s -> r = s.
Proof.
  assert (Hone : forall a b x, is_Block x = false ->
            block_to_vector (Block a b) = [x] -> is_Block a = false -> False).
  { intros a b x Hx Hv Ha. simpl in Hv.
    rewrite (block_to_vector_not_Block a Ha) in Hv.
    injection Hv as _ Hv. by apply block_to_vector_nonempty in Hv. }
  assert (Hflat : forall x s, is_Block x = false -> canonical s ->
            [x] = block_to_vector s -> x = s).
  { intros x s Hx Hs Hv. destruct (is_Block s) eqn:Es.
    - destruct s; try discriminate. simpl in Hs. destruct Hs as (Ha & _ & _).
      exfalso. by eapply (Hone s1 s2 x).
    - rewrite (block_to_vector_not_Block s Es) in Hv. by injection Hv. }
  induction r; intros s Hr Hs Hv; try (by apply Hflat).
  destruct (is_Block s) eqn:Es.
  - destruct s; try discriminate.
    simpl in Hr, Hs. destruct Hr as (Ha & Hr1 & Hr2), Hs as (Hb & Hs1 & Hs2).
    simpl in Hv.
    rewrite (block_to_vector_not_Block r1 Ha),
            (block_to_vector_not_Block s1 Hb) in Hv.
    injection Hv as -> Hv. f_equal. by apply IHr2.
  - symmetry. apply Hflat; auto.
    by rewrite Hv, (block_to_vector_not_Block s Es).
Qed.

Lemma Forall_canonical_vector s :
  canonical s -> Forall canonical (block_to_vector s).
Proof.
  induction s; intros Hs;
    try (by apply Forall_cons; split; [exact Hs | constructor]).
  simpl in *. destruct Hs as (_ & ? & ?). apply Forall_app. auto.
Qed.

Lemma Forall_not_Block_vector s :
  Forall (fun x => is_Block x = false) (block_to_vector s).
Proof.
  induction s; simpl; try (by repeat constructor).
  apply Forall_app. auto.
Qed.

Lemma concat_vector_stores l :
  Forall (fun x => is_Block x = false) l -> concat (block_to_vector <$> l) = l.
Proof.
  induction 1 as [|x l Hx _ IH]; [done|].
  rewrite fmap_cons. simpl. by rewrite IH, (block_to_vector_not_Block x Hx).
Qed.

Lemma is_Store_canonical s : is_Store s = true -> canonical s /\ is_Block s = false.
Proof. by destruct s. Qed.

(** ** The per-loop mutator: its equations *)

Section MutatorEquations.

Variable H : Host.
Variable in_consume : Scope unit.
Variable k : Z.

Local Abbreviation mutate := (LoopCarryOverLoop_mutate H in_consume k).
Local Abbreviation visit := (visit_elem H in_consume k).
Local Abbreviation close := (close_run H in_consume k).


Lemma visit_elem_Block a b linear lets acc :
  visit (Block a b) linear lets acc
  = (let* acc1 := visit a linear lets acc in visit b linear lets acc1).
Proof. reflexivity. Qed.

Lemma visit_elem_Store n v i pa p al linear lets acc :
  visit (Store n v i pa p al) linear lets acc
  = ret (acc.1 ++ [Store n v i pa p al], acc.2).
Proof. reflexivity. Qed.

Lemma visit_elem_LetStmt n v body linear lets acc :
  visit (LetStmt n v body) linear lets acc
  = other_elem H in_consume k linear lets acc
      (let* body' := mutate body (Scope_push n (is_linear v linear) linear)
                       (lets ++ [(n, v)]) in
       ret (LetStmt n v body')).
Proof. reflexivity. Qed.

Lemma visit_elem_For n mn ext ft pp da body linear lets acc :
  visit (For n mn ext ft pp da body) linear lets acc
  = other_elem H in_consume k linear lets acc (ret (For n mn ext ft pp da body)).
Proof. reflexivity. Qed.

Lemma visit_elem_IfThenElse c t e linear lets acc :
  visit (IfThenElse c t e) linear lets acc
  = other_elem H in_consume k linear lets acc (ret (IfThenElse c t e)).
Proof. reflexivity. Qed.

Lemma visit_elem_ProducerConsumer n p body linear lets acc :
  visit (ProducerConsumer n p body) linear lets acc
  = other_elem H in_consume k linear lets acc
      (let* body' := mutate body linear lets in
       ret (ProducerConsumer n p body')).
Proof. reflexivity. Qed.

Lemma visit_elem_Allocate n t m ex c body linear lets acc :
  visit (Allocate n t m ex c body) linear lets acc
  = other_elem H in_consume k linear lets acc
      (let* body' := mutate body linear lets in
       ret (Allocate n t m ex c body')).
Proof. reflexivity. Qed.

Lemma visit_elem_Evaluate v linear lets acc :
  visit (Evaluate v) linear lets acc
  = other_elem H in_consume k linear lets acc (ret (Evaluate v)).
Proof. reflexivity. Qed.

(** The visitor of [Store]: the store is lifted on its own. *)
Lemma LoopCarryOverLoop_mutate_Store n v i pa p al linear lets st :
  mutate (Store n v i pa p al) linear lets st
  = match lift H in_consume k linear lets (Store n v i pa p al) st with
    | Some (r, st') => Some (r, st')
    | None => None
    end.
Proof.
  unfold LoopCarryOverLoop_mutate, finish_block, close_run, bind. simpl.
  unfold bind. destruct (lift _ _ _ _ _ _ _) as [[r st']|]; reflexivity.
Qed.

(** Monad laws, pointwise in the state. *)
Lemma bind_ext {S A B} (m m' : M S A) (f f' : A -> M S B) st :
  m st = m' st -> (forall a st', f a st' = f' a st') ->
  bind m f st = bind m' f' st.
Proof. unfold bind. intros -> Hf. by destruct (m' st) as [[a st']|]. Qed.

Lemma bind_ret_r {S A} (m : M S A) st : bind m ret st = m st.
Proof. unfold bind, ret. by destruct (m st) as [[a st']|]. Qed.

Lemma foldM_app {S A B} (f : B -> A -> M S B) l1 l2 b st :
  foldM f (l1 ++ l2) b st = bind (foldM f l1 b) (foldM f l2) st.
Proof.
  revert b st. induction l1 as [|a l1 IH]; intros b st; simpl; [done|].
  unfold bind at 1 2 3. destruct (f b a st) as [[b' st']|]; [|done].
  apply IH.
Qed.

(** A statement that is walked as [other_elem acc m] is mutated to what
    [m] returns. *)
Lemma mutate_other s linear lets (m : M CarryState Stmt) st :
  (forall acc, visit s linear lets acc = other_elem H in_consume k linear lets acc m) ->
  mutate s linear lets st = m st.
Proof.
  intros Hv. unfold LoopCarryOverLoop_mutate. rewrite Hv.
  unfold other_elem, finish_block, close_run, bind, ret, lift_opt. simpl.
  by destruct (m st) as [[r st']|].
Qed.

Lemma other_elem_ext linear lets acc (m m' : M CarryState Stmt) st :
  (forall st', m st' = m' st') ->
  other_elem H in_consume k linear lets acc m st
  = other_elem H in_consume k linear lets acc m' st.
Proof.
  intros Hm. unfold other_elem. apply bind_ext; [done|].
  intros result st'. apply bind_ext; [apply Hm|done].
Qed.

(** The walk is the loop of the source over the unpacked block. *)
Lemma visit_elem_vector s : forall linear lets acc st,
  visit s linear lets acc st
  = foldM (block_step H in_consume k linear lets) (block_to_vector s) acc st.
Proof.
  induction s; intros linear lets acc st;
    try (cbn [block_to_vector foldM]; rewrite bind_ret_r;
         unfold block_step; cbn [is_Store];
         symmetry; apply other_elem_ext; intros st';
         apply mutate_other; intros acc'; reflexivity).
  - cbn [block_to_vector foldM]. by rewrite bind_ret_r.
  - rewrite visit_elem_Block. cbn [block_to_vector]. rewrite foldM_app.
    apply bind_ext; [apply IHs1|]. intros a st'. apply IHs2.
Qed.

(** The visitor of [Block]: unpack, walk, close the last run, rebuild. *)
Lemma LoopCarryOverLoop_mutate_Block a b linear lets st :
  mutate (Block a b) linear lets st
  = bind (foldM (block_step H in_consume k linear lets)
            (block_to_vector (Block a b)) ([], []))
         (finish_block H in_consume k linear lets) st.
Proof.
  unfold LoopCarryOverLoop_mutate. apply bind_ext; [|done].
  apply visit_elem_vector.
Qed.

End MutatorEquations.

(** ** Without carry edges the per-loop mutator changes nothing *)

Section NoCarry.

Variable H : Host.
Variable in_consume : Scope unit.
Variable k : Z.


Lemma lift_no_edge linear lets s st :
  no_edge H in_consume (linear, s) ->
  lift_carried_values_out_of_stmt H in_consume k linear lets s st = Some (s, st).
Proof.
  unfold no_edge, carry_edges, lift_carried_values_out_of_stmt, found_groups.
  simpl. intros He.
  destruct (group_infos _ _ _) as [infos|]; [|done].
  simpl in He. injection He as He.
  unfold bind, lift_opt. by rewrite He.
Qed.

Lemma closed_run_list linear stores :
  snd <$> closed_run linear stores = option_list (Block_make_list stores).
Proof. unfold closed_run. by destruct (Block_make_list stores). Qed.

Lemma close_run_no_edge linear lets stores result st :
  Forall (no_edge H in_consume) (closed_run linear stores) ->
  close_run H in_consume k linear lets (stores, result) st
  = Some (result ++ option_list (Block_make_list stores), st).
Proof.
  unfold closed_run, close_run.
  destruct (Block_make_list stores) as [run|]; simpl.
  - intros Hok. apply Forall_cons in Hok as [Hok _].
    unfold bind, lift. by rewrite (lift_no_edge _ _ _ _ Hok).
  - intros _. by rewrite app_nil_r.
Qed.

Lemma run_vector stores :
  Forall (fun s => is_Store s = true) stores ->
  concat (block_to_vector <$> option_list (Block_make_list stores)) = stores
  /\ Forall canonical (option_list (Block_make_list stores)).
Proof.
  intros Hs.
  assert (Hc : Forall canonical stores).
  { eapply Forall_impl; [exact Hs|]. by intros s [? _]%is_Store_canonical. }
  assert (Hb : Forall (fun x => is_Block x = false) stores).
  { eapply Forall_impl; [exact Hs|]. by intros s [_ ?]%is_Store_canonical. }
  destruct (Block_make_list stores) as [run|] eqn:Hr; simpl.
  - destruct (Block_make_list_spec _ _ Hc Hr) as [Hcr Hv].
    rewrite app_nil_r, Hv. split; [by apply concat_vector_stores|].
    by repeat constructor.
  - apply Block_make_list_None in Hr as ->. split; [done|constructor].
Qed.



Lemma walks_mutates s : walks_unchanged H in_consume k s -> mutates_unchanged H in_consume k s.
Proof.
  intros Hw linear lets st Hc Hok. unfold run_sites in Hok.
  apply Forall_app in Hok as [Hok1 Hok2].
  destruct (Hw linear lets [] [] st Hc ltac:(constructor) Hok1)
    as (result' & Hv & Hvec & Hcan & Hst).
  unfold LoopCarryOverLoop_mutate, bind. rewrite Hv.
  unfold finish_block, bind.
  rewrite (close_run_no_edge _ _ _ _ _ Hok2).
  destruct (run_vector _ Hst) as [Hrv Hrc].
  set (final := result' ++ option_list _).
  assert (Hfc : Forall canonical final).
  { apply Forall_app. split; [apply Hcan; constructor|done]. }
  assert (Hfv : concat (block_to_vector <$> final) = block_to_vector s).
  { unfold final. rewrite fmap_app, concat_app, Hrv. by rewrite Hvec. }
  destruct (Block_make_list final) as [r|] eqn:Hr.
  - destruct (Block_make_list_spec _ _ Hfc Hr) as [Hrc' Hrv'].
    unfold lift_opt. do 2 f_equal. apply canonical_vector_eq; auto.
    by rewrite Hrv'.
  - apply Block_make_list_None in Hr. rewrite Hr in Hfv.
    symmetry in Hfv. by apply block_to_vector_nonempty in Hfv.
Qed.

Lemma other_elem_unchanged s linear lets stores result st (m : M CarryState Stmt) :
  is_Block s = false ->
  canonical s ->
  Forall (fun x => is_Store x = true) stores ->
  Forall (no_edge H in_consume) (closed_run linear stores) ->
  m st = Some (s, st) ->
  exists result',
    other_elem H in_consume k linear lets (stores, result) m st
    = Some (([], result'), st)
    /\ concat (block_to_vector <$> result') ++ []
       = concat (block_to_vector <$> result) ++ stores ++ block_to_vector s
    /\ (Forall canonical result -> Forall canonical result')
    /\ Forall (fun x => is_Store x = true) ([] : list Stmt).
Proof.
  intros Hb Hc Hst Hok Hm.
  exists ((result ++ option_list (Block_make_list stores)) ++ [s]).
  unfold other_elem, bind. rewrite (close_run_no_edge _ _ _ _ _ Hok), Hm.
  destruct (run_vector _ Hst) as [Hrv Hrc].
  split; [done|]. split; [|split; [|constructor]].
  - rewrite app_nil_r, !fmap_app, !concat_app, Hrv.
    rewrite <- (assoc_L (++)). do 2 f_equal.
    simpl. by rewrite app_nil_r.
  - intros Hr. repeat (apply Forall_app; split); auto.
Qed.

Lemma walks_unchanged_all s : walks_unchanged H in_consume k s.
Proof.
  induction s; intros linear lets stores result st Hc Hst Hok.
  - (* LetStmt *)
    rewrite visit_elem_LetStmt. simpl in Hok.
    apply Forall_app in Hok as [Hok1 Hok2].
    apply (other_elem_unchanged (LetStmt name value s)); auto.
    unfold bind. rewrite (walks_mutates _ IHs); [done|exact Hc|exact Hok2].
  - (* Store *)
    rewrite visit_elem_Store. simpl.
    exists result. split; [done|]. split; [|split; [done|]].
    + by rewrite (assoc_L (++)).
    + apply Forall_app. split; [done|]. by repeat constructor.
  - (* Block *)
    rewrite visit_elem_Block. simpl in Hc, Hok. cbn [run_sites_elem fst snd].
    destruct Hc as (_ & Hc1 & Hc2).
    apply Forall_app in Hok as [Hok1 Hok2].
    destruct (IHs1 linear lets stores result st Hc1 Hst Hok1)
      as (r1 & Hv1 & Hvec1 & Hcan1 & Hst1).
    destruct (IHs2 linear lets _ r1 st Hc2 Hst1 Hok2)
      as (r2 & Hv2 & Hvec2 & Hcan2 & Hst2).
    exists r2. unfold bind. rewrite Hv1, Hv2.
    split; [done|]. split; [|split; [auto|done]].
    rewrite Hvec2, (assoc_L (++)), Hvec1. by rewrite <- !(assoc_L (++)).
  - (* For *)
    rewrite visit_elem_For. simpl in Hok.
    apply (other_elem_unchanged (For name min extent for_type partition_policy device_api s)); auto.
  - (* IfThenElse *)
    rewrite visit_elem_IfThenElse. simpl in Hok.
    apply (other_elem_unchanged (IfThenElse condition s else_case)); auto.
  - (* ProducerConsumer *)
    rewrite visit_elem_ProducerConsumer. simpl in Hok.
    apply Forall_app in Hok as [Hok1 Hok2].
    apply (other_elem_unchanged (ProducerConsumer name is_producer s)); auto.
    unfold bind. rewrite (walks_mutates _ IHs); [done|exact Hc|exact Hok2].
  - (* Allocate *)
    rewrite visit_elem_Allocate. simpl in Hok.
    apply Forall_app in Hok as [Hok1 Hok2].
    apply (other_elem_unchanged (Allocate name type memory_type extents condition s)); auto.
    unfold bind. rewrite (walks_mutates _ IHs); [done|exact Hc|exact Hok2].
  - (* Evaluate *)
    rewrite visit_elem_Evaluate. simpl in Hok.
    apply (other_elem_unchanged (Evaluate value)); auto.
Qed.

Lemma LoopCarryOverLoop_mutate_unchanged s : mutates_unchanged H in_consume k s.
Proof. apply walks_mutates, walks_unchanged_all. Qed.

End NoCarry.

(** ** Without carry edges the driver changes nothing *)

Lemma Block_make_not_Block a b : is_Block a = false -> Block_make a b = Block a b.
Proof. by destruct a. Qed.

(** Induction over statements that also covers the else branch. *)
Lemma Stmt_induction (P : Stmt -> Prop) :
  (forall n v b, P b -> P (LetStmt n v b)) ->
  (forall n v i pa p al, P (Store n v i pa p al)) ->
  (forall a b, P a -> P b -> P (Block a b)) ->
  (forall n mn ext ft pp da b, P b -> P (For n mn ext ft pp da b)) ->
  (forall c t e, P t -> (forall e', e = Some e' -> P e') -> P (IfThenElse c t e)) ->
  (forall n p b, P b -> P (ProducerConsumer n p b)) ->
  (forall n t m ex c b, P b -> P (Allocate n t m ex c b)) ->
  (forall v, P (Evaluate v)) ->
  forall s, P s.
Proof.
  intros HLet HStore HBlock HFor HIf HPC HAlloc HEval.
  fix IH 1. intros s. destruct s.
  - apply HLet, IH.
  - apply HStore.
  - apply HBlock; apply IH.
  - apply HFor, IH.
  - apply HIf; [apply IH|].
    destruct else_case as [e|]; intros e' He; [|discriminate].
    injection He as <-. apply IH.
  - apply HPC, IH.
  - apply HAlloc, IH.
  - apply HEval.
Qed.

Lemma LoopCarry_mutate_unchanged H k s : forall in_consume n,
  canonical s ->
  Forall (fun site => carry_edges H site.1.1 site.1.2 site.2 = Some [])
         (pass_sites s in_consume) ->
  LoopCarry_mutate H k s in_consume n = Some (s, n).
Proof.
  induction s as [nm v s IHs| |a b IHa IHb|nm mn extent for_type pp da s IHs
                 |c t e IHt IHe|nm p s IHs|nm ty m ex c s IHs|]
    using Stmt_induction;
    intros ic cnt Hc Hok; simpl in Hc, Hok; cbn [LoopCarry_mutate].
  - unfold bind. by rewrite (IHs ic cnt Hc Hok).
  - done.
  - destruct Hc as (Hb & Hc1 & Hc2). apply Forall_app in Hok as [Hok1 Hok2].
    unfold bind. rewrite (IHa ic cnt Hc1 Hok1), (IHb ic cnt Hc2 Hok2).
    by rewrite (Block_make_not_Block _ _ Hb).
  - apply Forall_app in Hok as [Hok1 Hok2].
    fold (candidate for_type extent).
    destruct (candidate for_type extent).
    + unfold bind. rewrite (IHs ic cnt Hc Hok1).
      unfold run_carry.
      rewrite (LoopCarryOverLoop_mutate_unchanged H ic k s); [done|exact Hc|].
      apply Forall_fmap in Hok2. exact Hok2.
    + unfold bind. by rewrite (IHs ic cnt Hc Hok1).
  - destruct Hc as [Hc1 Hc2]. apply Forall_app in Hok as [Hok1 Hok2].
    unfold bind. rewrite (IHt ic cnt Hc1 Hok1).
    destruct e as [e|]; [|done].
    by rewrite (IHe e eq_refl ic cnt Hc2 Hok2).
  - destruct p; unfold bind; by rewrite (IHs _ cnt Hc Hok).
  - unfold bind. by rewrite (IHs ic cnt Hc Hok).
  - done.
Qed.

Lemma pass_sites_no_candidate s : forall in_consume,
  has_candidate_loop s = false -> pass_sites s in_consume = [].
Proof.
  induction s as [nm v s IHs| |a b IHa IHb|nm mn extent for_type pp da s IHs
                 |c t e IHt IHe|nm p s IHs|nm ty m ex c s IHs|]
    using Stmt_induction; intros ic Hn; simpl in Hn |- *; auto.
  - apply orb_false_iff in Hn as [Ha Hb]. by rewrite IHa, IHb.
  - apply orb_false_iff in Hn as [Hcand Hs]. by rewrite IHs, Hcand.
  - apply orb_false_iff in Hn as [Ht He]. rewrite IHt by done.
    destruct e as [e|]; [|done]. by rewrite (IHe e eq_refl).
Qed.

(** ** The small host keeps the sequence of stores *)

Lemma store_targets_map_stmt f s : store_targets (map_stmt f s) = store_targets s.
Proof.
  induction s as [nm v s IHs| |a b IHa IHb|nm mn extent for_type pp da s IHs
                 |c t e IHt IHe|nm p s IHs|nm ty m ex c s IHs|]
    using Stmt_induction; simpl; try congruence.
  rewrite IHt. f_equal. destruct e as [e|]; [|done]. simpl.
  by rewrite (IHe e eq_refl).
Qed.

Lemma store_targets_inline_lets_stmt s :
  store_targets (inline_lets_stmt s) = store_targets s.
Proof.
  induction s as [nm v s IHs| |a b IHa IHb|nm mn extent for_type pp da s IHs
                 |c t e IHt IHe|nm p s IHs|nm ty m ex c s IHs|]
    using Stmt_induction; simpl; try congruence.
  - by rewrite store_targets_map_stmt.
  - rewrite IHt. f_equal. destruct e as [e|]; [|done]. simpl.
    by rewrite (IHe e eq_refl).
Qed.

(** ** Scalar loads: elements are positions *)

Lemma front_load_member loads c l0 :
  front_load loads c = Some l0 -> exists group, group ∈ loads /\ l0 ∈ group.
Proof.
  unfold front_load. destruct (head c) as [front|]; [|done]. simpl.
  destruct (loads !! front) as [group|] eqn:Hg; [|done]. simpl.
  intros Hh. exists group. split; [by eapply list_elem_of_lookup_2|].
  destruct group; [done|]. injection Hh as ->. by left.
Qed.

Lemma total_size_scalar H loads new chains :
  all_scalar loads -> Forall2 (alloc_of H loads) new chains ->
  total_size new = positions chains.
Proof.
  intros Hs. induction 1 as [|a c new chains Ha _ IH]; [done|].
  simpl. rewrite IH. destruct Ha as (l0 & n & Hf & _ & _ & ->).
  apply front_load_member in Hf as (group & Hg & Hl).
  unfold all_scalar in Hs. rewrite Forall_forall in Hs.
  specialize (Hs _ Hg). rewrite Forall_forall in Hs. rewrite (Hs _ Hl). lia.
Qed.

(** * The claims *)

(** ** Linearity (C7) *)

(** C7, as the code has it: when [is_linear e linear] returns a defined
    step [s], replacing every variable bound in the scope to a defined
    step by that variable plus its step, and subtracting [e], gives an
    expression with the value of [s], whatever the values of the
    variables and of the loads and calls. *)
Theorem is_linear_sound (rho : string -> Z) (opaque : Expr -> Z)
  (linear : LinearScope) (e s : Expr) :
  is_linear e linear = Some s ->
  eval rho opaque (Sub (shift_vars (delta_step linear) e) e) = eval rho opaque s.
Proof.
  intros Hs. apply (is_linear_advances rho opaque) in Hs.
  unfold advances_by in Hs. simpl.
  rewrite <- (eval_wrapped rho opaque s). apply eqm_wrap32.
  unfold cong32 in *. rewrite Zminus_mod, Hs, <- Zminus_mod. f_equal. lia.
Qed.

Lemma is_linear_sound_witness :
  eval zero_env zero_opaque
    (Sub (shift_vars (delta_step doubled_scope)
            (Add (var "y") (Mul (const 3) (var "i"))))
         (Add (var "y") (Mul (const 3) (var "i"))))
  = eval zero_env zero_opaque
      (Add (Mul (const 2) (const 1)) (Mul (const 3) (const 1))).
Proof. apply is_linear_sound. reflexivity. Defined.

(** C7, as it is stated: the increment is one for every tracked
    variable.  Inside [let y = 2 * i] the scope binds [y] to the step
    [2 * 1]; [is_linear] returns that step for [y], and [(y + 1) - y] has
    the value 1, not 2. *)
Lemma step_is_not_always_one :
  is_linear (Mul (const 2) (var "i")) loop_scope = Some (Mul (const 2) (const 1))
  /\ is_linear (var "y") doubled_scope = Some (Mul (const 2) (const 1))
  /\ eval zero_env zero_opaque
       (Sub (shift_vars (delta_one doubled_scope) (var "y")) (var "y")) = 1
  /\ eval zero_env zero_opaque (Mul (const 2) (const 1)) = 2.
Proof. repeat split. Qed.

(** ** Carry edges (C6) *)

(** C6: for the groups of any statement, the stepped vectors are defined
    for every group, and the chain [[j; i]] is recorded exactly when [i]
    and [j] differ, the first loads of the two groups name the same
    buffer, and the index and the predicate of group [j] step to those of
    group [i]; nothing else is recorded. *)
Theorem carry_edge_iff (H : Host) (in_consume : Scope unit)
  (linear : LinearScope) (orig : Stmt) :
  exists infos,
    group_infos H linear (found_groups H in_consume orig) = Some infos
    /\ (forall i j,
          [j; i] ∈ find_edges H infos <->
          i <> j
          /\ exists li lj,
               found_groups H in_consume orig !! i ≫= head = Some li
               /\ found_groups H in_consume orig !! j ≫= head = Some lj
               /\ ld_name li = ld_name lj
               /\ steps_to H linear (ld_index lj) (ld_index li)
               /\ steps_to H linear (ld_predicate lj) (ld_predicate li))
    /\ (forall c, c ∈ find_edges H infos -> exists i j, c = [j; i]).
Proof.
  destruct (group_infos_defined in_consume H linear
              (found_groups H in_consume orig) (group_loads_good _ _))
    as [infos Hi].
  exists infos. split; [done|]. split.
  - intros i j. rewrite elem_of_find_edges. split.
    + intros (i' & j' & [= <- <-] & Hne & gi & gj & Hgi & Hgj & Hc).
      split; [done|].
      rewrite (group_infos_lookup _ _ _ _ i Hi) in Hgi.
      rewrite (group_infos_lookup _ _ _ _ j Hi) in Hgj.
      destruct (_ !! i ≫= head) as [li|]; [|done].
      destruct (_ !! j ≫= head) as [lj|]; [|done].
      simpl in Hgi, Hgj. injection Hgi as <-. injection Hgj as <-.
      exists li, lj. apply carries_spec in Hc. tauto.
    + intros (Hne & li & lj & Hli & Hlj & Hc).
      exists i, j. split; [done|]. split; [done|].
      exists (group_info H linear li), (group_info H linear lj).
      rewrite !(group_infos_lookup _ _ _ _ _ Hi), Hli, Hlj.
      split; [done|]. split; [done|]. by apply carries_spec.
  - intros c (i & j & -> & _)%elem_of_find_edges. eauto.
Qed.

(** ** Chain agglomeration (C4, C5) *)

(** On every vector of chains the agglomeration loop ends within one
    more pass than there are chains.  When it ends with chains, they are
    a fixed point: a further pass merges nothing and the compaction
    removes nothing.  It ends with chains whenever the links go up in
    some rank, that is, whenever the edges have no cycle. *)
Lemma agglomerate_loop_ends (chains : Chains) :
  exists r,
    agglomerate_loop (S (length chains)) chains = Some r
    /\ (forall final, r = Some final ->
          merge_pass final = Some (final, true) /\ compact final = final)
    /\ (forall rank, sound rank chains -> exists final, r = Some final).
Proof.
  destruct (agglomerate_loop_fuel (S (length chains)) chains ltac:(lia))
    as [r Hr].
  exists r. split; [done|]. split.
  - intros final ->.
    apply agglomerate_loop_stable in Hr as [Hs Hne].
    split; [by apply merge_pass_stable|by apply compact_from_id].
  - intros rank Hs.
    destruct (agglomerate_loop_defined rank (S (length chains)) chains Hs
                ltac:(lia)) as [final Hf].
    exists final. congruence.
Qed.

(** C4: the agglomeration loop does not reach a fixed point on every set
    of edges that the edge detection produces.  The two loads of [in[0]]
    of [two_invariants] do not move with the loop, so each one carries to
    the other: the edges are [1 -> 0], [0 -> 1] and [2 -> 3].  The first
    pass joins the two edges of the cycle into the chain [1; 0; 1].  In
    the second pass row 0 meets itself at [j = 0]: the chain is appended
    to itself and cleared; at [j = 1] the same row takes [back()] of the
    chain it has just emptied.  No number of passes gives chains, and
    the pass gives no statement for the loop. *)
Theorem cyclic_edges_read_emptied_chain :
  carry_edges plain_host [] loop_scope two_invariants
    = Some [[1; 0]; [0; 1]; [2; 3]]%nat
  /\ merge_pass [[1; 0]; [0; 1]; [2; 3]]%nat
       = Some ([[1; 0; 1]; []; [2; 3]]%nat, false)
  /\ compact [[1; 0; 1]; []; [2; 3]]%nat = [[1; 0; 1]; [2; 3]]%nat
  /\ merge_at 0 0 ([[1; 0; 1]; [2; 3]]%nat, true)
       = Some ([[]; [2; 3]]%nat, false)
  /\ merge_at 0 1 ([[]; [2; 3]]%nat, false) = None
  /\ merge_pass [[1; 0; 1]; [2; 3]]%nat = None
  /\ (forall fuel final,
        agglomerate_loop fuel [[1; 0]; [0; 1]; [2; 3]]%nat <> Some (Some final))
  /\ agglomerate [[1; 0]; [0; 1]; [2; 3]]%nat = None
  /\ lift_carried_values_out_of_stmt plain_host [] 8 loop_scope []
       two_invariants (mkCarry 0 []) = None
  /\ loop_carry plain_host
       (serial_for "i" (const 0) (var "N") two_invariants) 8 0 = None.
Proof.
  repeat split; try by vm_compute.
  intros [|[|fuel]] final; by vm_compute.
Qed.


(** C5, as the code has it: after agglomeration every chain has length at
    least two and is made of groups of the edges, and no chain ends with
    the group another one starts with.  When no group is the source of
    two edges and none is the target of two, every group is in at most
    one chain, and at most once. *)
Theorem agglomerated_chains (edges r : Chains) :
  Forall (fun c => length c = 2%nat) edges ->
  agglomerate edges = Some r ->
  Forall (fun c => (2 <= length c)%nat) r
  /\ (forall c x, c ∈ r -> x ∈ c -> exists e, e ∈ edges /\ x ∈ e)
  /\ (forall c1 c2, c1 ∈ r -> c2 ∈ r -> last c1 <> head c2)
  /\ (NoDup (all_links edges).*1 -> NoDup (all_links edges).*2 ->
      NoDup (concat r)).
Proof.
  intros Hpairs Hr.
  pose proof (agglomerated_nonempty _ _ Hr) as Hne.
  pose proof (agglomerated_stable _ _ Hr) as Hst.
  split; [by eapply agglomerated_sizes|]. split; [|split].
  - intros c x Hc Hx.
    assert (Hm : Forall (Forall (fun x => exists e, e ∈ edges /\ x ∈ e)) r).
    { eapply agglomerated_members; [exact Hr|].
      apply Forall_forall. intros e He. apply Forall_forall. eauto. }
    rewrite Forall_forall in Hm. specialize (Hm c Hc).
    rewrite Forall_forall in Hm. by apply Hm.
  - rewrite Forall_forall in Hne. intros c1 c2 H1 H2. apply Hst; auto.
  - intros Hs Ht. pose proof (agglomerated_links _ _ Hr) as Hl.
    apply chains_NoDup; auto.
    + eapply submseteq_NoDup; [|exact Hs]. by apply fmap_submseteq.
    + eapply submseteq_NoDup; [|exact Ht]. by apply fmap_submseteq.
Qed.

Lemma agglomerated_chains_witness :
  Forall (fun c => (2 <= length c)%nat) [[5; 6]; [0; 1; 2; 3]]%nat
  /\ (forall c x, c ∈ [[5; 6]; [0; 1; 2; 3]]%nat -> x ∈ c ->
        exists e, e ∈ [[1; 2]; [0; 1]; [5; 6]; [2; 3]]%nat /\ x ∈ e)
  /\ (forall c1 c2, c1 ∈ [[5; 6]; [0; 1; 2; 3]]%nat ->
        c2 ∈ [[5; 6]; [0; 1; 2; 3]]%nat -> last c1 <> head c2)
  /\ (NoDup (all_links [[1; 2]; [0; 1]; [5; 6]; [2; 3]]%nat).*1 ->
      NoDup (all_links [[1; 2]; [0; 1]; [5; 6]; [2; 3]]%nat).*2 ->
      NoDup (concat [[5; 6]; [0; 1; 2; 3]]%nat)).
Proof.
  apply (agglomerated_chains [[1; 2]; [0; 1]; [5; 6]; [2; 3]]%nat).
  - repeat constructor.
  - reflexivity.
Defined.

(** C5, as it is stated: a group may be in two chains.  In
    [out[i] = in[i] + in[i+1] + in[1+i]] with a solver that proves
    [x + y == y + x], group 0 steps to group 1 and to group 2; the two
    edges are not merged, and group 0 is in both chains. *)
Lemma group_in_two_chains :
  carry_edges commuting_host [] loop_scope two_successors
  = Some [[0; 1]; [0; 2]]%nat
  /\ agglomerate [[0; 1]; [0; 2]]%nat = Some [[0; 1]; [0; 2]]%nat
  /\ 0%nat ∈ [0; 1]%nat /\ 0%nat ∈ [0; 2]%nat /\ [0; 1]%nat <> [0; 2]%nat.
Proof.
  split; [reflexivity|]. split; [reflexivity|].
  split; [by left|]. split; [by left|]. discriminate.
Qed.

(** ** The budget (C3, C10) *)

(** C3, as the code has it: for a budget [k >= 0], one call of
    [lift_carried_values_out_of_stmt] (one run of stores) adds one
    scratch allocation per kept chain, of as many elements as the chain
    has positions times the lanes of its first load; the kept chains have
    at most [k] positions in all, so the allocations have at most [k]
    elements in all when every load is a scalar. *)
Theorem scratch_positions_bounded (H : Host) (in_consume : Scope unit) (k : Z)
  (linear : LinearScope) (containing_lets : list (string * Expr))
  (orig out : Stmt) (s s' : CarryState) :
  0 <= k < 2 ^ 31 ->
  Z.of_nat (length (found_groups H in_consume orig)) < 2 ^ 31 ->
  lift_carried_values_out_of_stmt H in_consume k linear containing_lets orig s
    = Some (out, s') ->
  exists new chains,
    allocs s' = allocs s ++ new
    /\ Forall2 (alloc_of H (found_groups H in_consume orig)) new chains
    /\ positions chains <= k
    /\ (all_scalar (found_groups H in_consume orig) -> total_size new <= k).
Proof.
  intros Hk Hn Hl.
  apply lift_inv in Hl as (edges & chains & He & Hc & Hl).
  pose proof (kept_chains_positions _ _ _ _ _ _ Hc Hk Hn) as Hp.
  destruct Hl as [(-> & -> & -> & ->)|(Hne & st & leading & shuffles & Hf & _)].
  - exists [], []. rewrite app_nil_r. split; [done|]. split; [constructor|].
    split; [done|]. intros _. simpl. lia.
  - apply (synthesize_all_inv _ _ _ (fun _ => tt)) in Hf
      as (new & Ha & Hall & _); [|done].
    exists new, chains. split; [done|]. split; [done|]. split; [done|].
    intros Hs. by rewrite (total_size_scalar _ _ _ _ Hs Hall).
Qed.

Lemma scratch_positions_bounded_witness :
  exists out s',
    lift_carried_values_out_of_stmt plain_host [] 8 loop_scope [] three_tap
      (mkCarry 0 []) = Some (out, s')
    /\ exists new chains,
         allocs s' = [] ++ new
         /\ Forall2 (alloc_of plain_host (found_groups plain_host [] three_tap))
              new chains
         /\ positions chains <= 8
         /\ (all_scalar (found_groups plain_host [] three_tap) ->
             total_size new <= 8).
Proof.
  eexists _, _. split; [vm_compute; reflexivity|].
  eapply (scratch_positions_bounded plain_host [] 8 loop_scope [] three_tap
            _ (mkCarry 0 [])).
  - lia.
  - vm_compute. reflexivity.
  - vm_compute. reflexivity.
Defined.

(** C3, as it is stated: the elements of the scratch buffers of one loop
    may exceed the budget.  With budget 2, the two-tap stencil on four
    lanes keeps one chain of two positions and allocates 8 elements; and
    a scalar loop body with two runs of stores gets the budget once for
    each run, two allocations of 2 elements. *)
Lemma scratch_elements_exceed_budget :
  kept_chains plain_host [] 2 loop_scope two_tap_x4 = Some [[0; 1]]%nat
  /\ (fun r : Stmt * list ScratchAllocation * nat => alloc_size <$> r.1.2)
       <$> run_carry plain_host [] 2 "i" two_tap_x4 0%nat = Some [8]
  /\ 2 < 8
  /\ (fun r : Stmt * list ScratchAllocation * nat => alloc_size <$> r.1.2)
       <$> run_carry plain_host [] 2 "i" two_runs 0%nat = Some [2; 2]
  /\ 2 < 2 + 2.
Proof. repeat split; reflexivity. Qed.

(** C10, for a budget of at least one: every kept chain has two
    positions or more. *)
Lemma kept_chains_at_least_two (H : Host) (in_consume : Scope unit) (k : Z)
  (linear : LinearScope) (orig : Stmt) (chains : Chains) :
  1 <= k < 2 ^ 31 ->
  Z.of_nat (length (found_groups H in_consume orig)) < 2 ^ 31 ->
  kept_chains H in_consume k linear orig = Some chains ->
  Forall (fun c => (2 <= length c)%nat) chains.
Proof. intros Hk Hn Hc. by eapply kept_chains_sizes. Qed.

(** C10, at budget 0: [(size_t)max_carried_values - 1] wraps to
    [2^64 - 1], the test [sz < ...] holds and a partial chain of
    [0 - 0] positions is taken.  For the two-tap stencil the kept chains
    are one empty chain; its [initial_scratch_values[0]] and its
    [loads[c.front()]] are read out of range, and the call has no
    result. *)
Theorem zero_budget_keeps_empty_chain :
  size_t (size_t 0 - 1) = 2 ^ 64 - 1
  /\ trim 0 [[0; 1]]%nat = [[]]
  /\ kept_chains plain_host [] 0 loop_scope two_tap = Some [[]]
  /\ initial_scratch_stores "c0" [] [] = None
  /\ front_load (found_groups plain_host [] two_tap) [] = None
  /\ lift_carried_values_out_of_stmt plain_host [] 0 loop_scope [] two_tap
       (mkCarry 0 []) = None.
Proof. repeat split. Qed.

(** ** Safety of the carried loads (C9) *)

(** C9: every member of a kept chain is the index of a group, and every
    load of that group, the loads that are redirected to scratch, is a
    load from a bound image, from a parameter, or from a buffer in the
    in-consume set. *)
Theorem carried_loads_are_safe (H : Host) (in_consume : Scope unit) (k : Z)
  (linear : LinearScope) (orig : Stmt) (chains : Chains) :
  kept_chains H in_consume k linear orig = Some chains ->
  forall c g, c ∈ chains -> g ∈ c ->
    exists group,
      found_groups H in_consume orig !! g = Some group
      /\ forall l, l ∈ group ->
           is_Some (ld_image l) \/ is_Some (ld_param l)
           \/ Scope_contains in_consume (ld_name l) = true.
Proof.
  intros Hk c g Hc Hg.
  pose proof (kept_chains_members _ _ _ _ _ _ Hk) as Hm.
  rewrite Forall_forall in Hm. specialize (Hm c Hc).
  rewrite Forall_forall in Hm. specialize (Hm g Hg).
  destruct (lookup_lt_is_Some_2 _ _ Hm) as [group Hgroup].
  exists group. split; [done|]. intros l Hl.
  pose proof (group_loads_good in_consume
                (FindLoads (substitute_in_all_lets_stmt H orig))) as Hgood.
  rewrite Forall_forall in Hgood.
  destruct (Hgood group (list_elem_of_lookup_2 _ _ _ Hgroup)) as [_ Hsafe].
  rewrite Forall_forall in Hsafe. specialize (Hsafe l Hl).
  unfold safe in Hsafe. rewrite !orb_true_iff in Hsafe.
  destruct Hsafe as [[Hi|Hp]|Hs]; [left|right; left|right; right; done].
  - by destruct (ld_image l).
  - by destruct (ld_param l).
Qed.

Lemma carried_loads_are_safe_witness :
  kept_chains plain_host [] 8 loop_scope three_tap = Some [[0; 1; 2]]%nat
  /\ exists group,
       found_groups plain_host [] three_tap !! 2%nat = Some group
       /\ Forall (fun l => is_Some (ld_image l) \/ is_Some (ld_param l)
                          \/ Scope_contains ([] : Scope unit) (ld_name l) = true)
                 group.
Proof.
  split; [reflexivity|].
  destruct (carried_loads_are_safe plain_host [] 8 loop_scope three_tap
              [[0; 1; 2]]%nat eq_refl [0; 1; 2]%nat 2%nat)
    as (group & Hg & Hl).
  - apply list_elem_of_here.
  - do 2 apply list_elem_of_further. apply list_elem_of_here.
  - exists group. split; [exact Hg|]. apply Forall_forall. exact Hl.
Defined.

(** A load from any other buffer is in no group (scenario S4). *)
Lemma unsafe_loads_are_not_grouped :
  found_groups plain_host [] unsafe_two_tap = []
  /\ kept_chains plain_host [] 8 loop_scope unsafe_two_tap = Some [].
Proof. split; reflexivity. Qed.

(** ** The targets of the stores of a run *)

(** Under the contracts that inlining lets, replacing a load and CSE
    keep the sequence of stores of a statement, the statement that
    [lift_carried_values_out_of_stmt] returns stores to the buffers of
    the original run in the original order; before them come the
    leading-edge stores, one to the scratch buffer of each kept chain,
    and after them the shuffles, to the scratch buffer of each chain once
    per position after the first. *)
Lemma lift_store_targets (H : Host) (in_consume : Scope unit) (k : Z)
  (linear : LinearScope) (containing_lets : list (string * Expr))
  (orig out : Stmt) (s s' : CarryState) :
  (forall x, store_targets (substitute_in_all_lets_stmt H x) = store_targets x) ->
  (forall a b x, store_targets (graph_substitute H a b x) = store_targets x) ->
  (forall x, store_targets (common_subexpression_elimination_stmt H x)
             = store_targets x) ->
  lift_carried_values_out_of_stmt H in_consume k linear containing_lets orig s
    = Some (out, s') ->
  exists new chains,
    allocs s' = allocs s ++ new
    /\ kept_chains H in_consume k linear orig = Some chains
    /\ Forall2 (alloc_of H (found_groups H in_consume orig)) new chains
    /\ store_targets out
       = (alloc_name <$> new) ++ store_targets orig ++ shuffle_targets new chains.
Proof.
  intros Hsil Hgs Hcse Hl.
  apply lift_inv in Hl as (edges & chains & He & Hc & Hl).
  destruct Hl as [(-> & -> & -> & ->)
                 |(Hne & st & leading & shuffles & Hf & Hlead & Hshuf & ->)].
  - exists [], []. rewrite !app_nil_r. split; [done|]. split; [done|].
    split; [constructor|done].
  - apply (synthesize_all_inv _ _ _ store_targets Hgs) in Hf
      as (new & Ha & Hall & Hcore & Hnf & Hsh).
    exists new, chains. split; [done|]. split; [done|]. split; [done|].
    rewrite Hcse, !store_targets_Block_make.
    rewrite (store_targets_Block_make_list _ _ Hlead),
            (store_targets_Block_make_list _ _ Hshuf).
    rewrite Hnf, Hsh, Hcore. simpl. rewrite Hsil.
    by rewrite <- (assoc_L (++)).
Qed.

(** The sequence of the example: the leading-edge store to [c0], the
    original store to [out], the two shuffles of [c0]. *)
Lemma three_tap_store_order :
  (fun r : Stmt * CarryState => store_targets r.1)
    <$> lift_carried_values_out_of_stmt plain_host [] 8 loop_scope [] three_tap
          (mkCarry 0 [])
  = Some ["c0"; "out"; "c0"; "c0"]%string.
Proof. reflexivity. Qed.

(** ** Identity on ineligible input (C2) *)

(** C2, as the code has it: for a statement in the canonical block form,
    if it has no serial loop with an extent other than the constant one,
    or if no run of stores in such a loop yields a carry edge, the pass
    returns the statement itself, for any budget and any state of the
    name counter. *)
Theorem loop_carry_identity (H : Host) (s : Stmt) (k : Z) (n0 : nat) :
  canonical s ->
  has_candidate_loop s = false \/ no_carries H s ->
  loop_carry H s k n0 = Some s.
Proof.
  intros Hc Hn. unfold loop_carry.
  rewrite (LoopCarry_mutate_unchanged H k s [] n0 Hc); [done|].
  destruct Hn as [Hn|Hn]; [|exact Hn].
  rewrite (pass_sites_no_candidate s [] Hn). constructor.
Qed.

Lemma loop_carry_identity_witness :
  loop_carry plain_host (serial_for "i" (const 0) (var "N") unsafe_two_tap) 8 0%nat
  = Some (serial_for "i" (const 0) (var "N") unsafe_two_tap).
Proof.
  apply loop_carry_identity.
  - simpl. exact I.
  - right. unfold no_carries. simpl. repeat constructor.
Defined.

(** A parallel loop is no candidate (scenario S2). *)
Lemma parallel_loop_unchanged :
  loop_carry plain_host
    (For "i" (const 0) (var "N") Parallel PartitionAuto DeviceNone three_tap) 8 0%nat
  = Some (For "i" (const 0) (var "N") Parallel PartitionAuto DeviceNone three_tap).
Proof. reflexivity. Qed.

(** C2, as it is stated: a serial loop of extent 0 is not a loop with an
    extent above one, yet its extent is not the constant one: the pass
    rewrites it. *)
Lemma zero_extent_loop_is_rewritten :
  has_serial_loop_above_one (serial_for "i" (const 0) (const 0) two_tap) = false
  /\ has_candidate_loop (serial_for "i" (const 0) (const 0) two_tap) = true
  /\ (exists c body,
        loop_carry plain_host (serial_for "i" (const 0) (const 0) two_tap) 8 0%nat
        = Some (IfThenElse c body None))
  /\ loop_carry plain_host (serial_for "i" (const 0) (const 0) two_tap) 8 0%nat
     <> Some (serial_for "i" (const 0) (const 0) two_tap).
Proof.
  split; [reflexivity|]. split; [reflexivity|]. split.
  - eexists _, _. vm_compute. reflexivity.
  - vm_compute. discriminate.
Qed.

(** ** Semantic preservation (C1) *)

(** C1, at budget 0: for the loop [for i: out[i] = in[i] + in[i+1]] the
    pass has no result, because the call of
    [lift_carried_values_out_of_stmt] on its body has none: the trimming
    keeps an empty chain, and the synthesis reads its first group. *)
Theorem loop_carry_zero_budget_fails :
  loop_carry plain_host (serial_for "i" (const 0) (var "N") two_tap) 0 0%nat = None.
Proof. reflexivity. Qed.

(** * Further properties of the code *)

(** ** is_linear and StepForwards *)

(** Induction over expressions, the arguments of a call included. *)
Lemma Expr_induction (P : Expr -> Prop) :
  (forall t x, P (Var t x)) ->
  (forall t v, P (IntImm t v)) ->
  (forall t v, P (UIntImm t v)) ->
  (forall a b, P a -> P b -> P (Add a b)) ->
  (forall a b, P a -> P b -> P (Sub a b)) ->
  (forall a b, P a -> P b -> P (Mul a b)) ->
  (forall a b, P a -> P b -> P (EQ a b)) ->
  (forall a b, P a -> P b -> P (GT a b)) ->
  (forall a b n, P a -> P b -> P (Ramp a b n)) ->
  (forall a n, P a -> P (Broadcast a n)) ->
  (forall t nm i p im pa al, P i -> P p -> P (Load t nm i p im pa al)) ->
  (forall n v b, P v -> P b -> P (Let n v b)) ->
  (forall t n args ct, Forall P args -> P (Call t n args ct)) ->
  forall e, P e.
Proof.
  intros HVar HInt HUInt HAdd HSub HMul HEQ HGT HRamp HBr HLoad HLet HCall.
  fix IH 1. intros [t x|t v|t v|a b|a b|a b|a b|a b|a b n|a n
                   |t nm i p im pa al|n v b|t n args ct].
  - apply HVar.
  - apply HInt.
  - apply HUInt.
  - apply HAdd; apply IH.
  - apply HSub; apply IH.
  - apply HMul; apply IH.
  - apply HEQ; apply IH.
  - apply HGT; apply IH.
  - apply HRamp; apply IH.
  - apply HBr; apply IH.
  - apply HLoad; apply IH.
  - apply HLet; apply IH.
  - apply HCall. induction args as [|a args IHargs]; constructor.
    + apply IH.
    + apply IHargs.
Qed.

(** How a defined result of [is_linear] comes about, case by case. *)
Lemma is_linear_cases linear e s :
  is_linear e linear = Some s ->
  type_of e = Int 32
  /\ match e with
     | Var t x =>
         Scope_get linear x = Some (Some s)
         \/ (Scope_get linear x = None /\ s = make_zero t)
     | IntImm t _ => s = make_zero t
     | Add a b =>
         exists la lb, is_linear a linear = Some la /\ is_linear b linear = Some lb
           /\ ((is_const_zero lb = true /\ s = la)
               \/ (is_const_zero la = true /\ s = lb)
               \/ (is_const_zero la = false /\ is_const_zero lb = false
                   /\ s = Add la lb))
     | Sub a b =>
         exists la lb, is_linear a linear = Some la /\ is_linear b linear = Some lb
           /\ ((is_const_zero lb = true /\ s = la)
               \/ (is_const_zero lb = false /\ s = Sub la lb))
     | Mul a b =>
         exists la lb, is_linear a linear = Some la /\ is_linear b linear = Some lb
           /\ ((is_const_zero la = true /\ is_const_zero lb = true /\ s = la)
               \/ (is_const_zero la = true /\ is_const_zero lb = false
                   /\ s = Mul a lb)
               \/ (is_const_zero la = false /\ is_const_zero lb = true
                   /\ s = Mul la b))
     | Ramp a b _ =>
         exists lb, is_linear a linear = Some s /\ is_linear b linear = Some lb
           /\ is_const_zero lb = true
     | Broadcast a _ => is_linear a linear = Some s
     | _ => False
     end.
Proof.
  intros Hs.
  assert (Hty : type_of e = Int 32).
  { destruct e; cbn [is_linear] in Hs;
      destruct (Type_eqb _ _) eqn:Ht; try discriminate;
      by apply Type_eqb_eq in Ht. }
  split; [done|].
  destruct e; cbn [is_linear] in Hs;
    destruct (negb _); try discriminate.
  - unfold Scope_contains in Hs.
    destruct (Scope_get linear name) as [[st|]|]; try discriminate.
    + left. congruence.
    + right. split; [done|]. congruence.
  - congruence.
  - destruct (is_linear e1 linear) as [la|], (is_linear e2 linear) as [lb|];
      simpl in Hs;
      repeat match type of Hs with
        | context [is_const_zero ?z] => destruct (is_const_zero z) eqn:?; simpl in Hs
        end;
      try discriminate; injection Hs as <-; eauto 10.
  - destruct (is_linear e1 linear) as [la|], (is_linear e2 linear) as [lb|];
      simpl in Hs;
      repeat match type of Hs with
        | context [is_const_zero ?z] => destruct (is_const_zero z) eqn:?; simpl in Hs
        end;
      try discriminate; injection Hs as <-; eauto 10.
  - destruct (is_linear e1 linear) as [la|], (is_linear e2 linear) as [lb|];
      simpl in Hs;
      repeat match type of Hs with
        | context [is_const_zero ?z] => destruct (is_const_zero z) eqn:?; simpl in Hs
        end;
      try discriminate; injection Hs as <-; eauto 10.
  - destruct (is_linear e1 linear) as [la|], (is_linear e2 linear) as [lb|];
      simpl in Hs;
      repeat match type of Hs with
        | context [is_const_zero ?z] => destruct (is_const_zero z) eqn:?; simpl in Hs
        end;
      try discriminate; injection Hs as <-; eauto 10.
  - done.
Qed.

Lemma type_of_make_zero_Int32 : type_of (make_zero (Int 32)) = Int 32.
Proof. reflexivity. Qed.

(** X1: when every defined step of the scope is an [Int(32)], so is
    every step that [is_linear] returns: the scope that [visit(LetStmt)]
    extends with the results of [is_linear] keeps that form. *)
Theorem is_linear_typed (linear : LinearScope) (e s : Expr) :
  steps_typed linear -> is_linear e linear = Some s -> type_of s = Int 32.
Proof.
  revert s. induction e; intros s Hl Hs;
    destruct (is_linear_cases _ _ _ Hs) as [Hty Hc]; try done.
  - destruct Hc as [Hc|[_ ->]]; [by eapply Hl|].
    simpl in Hty. by subst.
  - simpl in Hty. by subst.
  - destruct Hc as (la & lb & Ha & Hb & [[_ ->]|[[_ ->]|(_ & _ & ->)]]);
      simpl; eauto.
  - destruct Hc as (la & lb & Ha & Hb & [[_ ->]|[_ ->]]); simpl; eauto.
  - destruct Hc as (la & lb & Ha & Hb
                    & [(_ & _ & ->)|[(_ & _ & ->)|(_ & _ & ->)]]);
      simpl; eauto.
  - destruct Hc as (lb & Ha & _). eauto.
  - eauto.
Qed.

Lemma is_const_zero_make_zero_Int32 : is_const_zero (make_zero (Int 32)) = true.
Proof. reflexivity. Qed.

(** X2: an expression whose variables are all outside the scope, or
    bound to a constant zero, is a loop invariant: a defined result of
    [is_linear] for it is a constant zero. *)
Theorem is_linear_fixed (linear : LinearScope) (e s : Expr) :
  Forall (fixed linear) (vars_of e) ->
  is_linear e linear = Some s -> is_const_zero s = true.
Proof.
  revert s. induction e; intros s Hf Hs;
    destruct (is_linear_cases _ _ _ Hs) as [Hty Hc]; try done;
    simpl in Hf; rewrite ?Forall_app in Hf.
  - apply Forall_cons in Hf as [Hf _]. unfold fixed in Hf.
    destruct Hc as [Hc|[_ ->]]; [by rewrite Hc in Hf|].
    simpl in Hty. by subst.
  - simpl in Hty. by subst.
  - destruct Hf as [Hf1 Hf2].
    destruct Hc as (la & lb & Ha & Hb & [[_ ->]|[[_ ->]|(? & _ & ->)]]);
      specialize (IHe1 _ Hf1 Ha); specialize (IHe2 _ Hf2 Hb); congruence.
  - destruct Hf as [Hf1 Hf2].
    destruct Hc as (la & lb & Ha & Hb & [[_ ->]|[? ->]]);
      specialize (IHe1 _ Hf1 Ha); specialize (IHe2 _ Hf2 Hb); congruence.
  - destruct Hf as [Hf1 Hf2].
    destruct Hc as (la & lb & Ha & Hb
                    & [(? & _ & ->)|[(_ & ? & ->)|(? & _ & ->)]]);
      specialize (IHe1 _ Hf1 Ha); specialize (IHe2 _ Hf2 Hb); congruence.
  - destruct Hf as [Hf1 Hf2]. destruct Hc as (lb & Ha & _). eauto.
  - eauto.
Qed.

(** Where [is_linear] is defined, [StepForwards] meets no undefined step
    and builds an expression with the value of the shifted one. *)
Lemma StepForwards_shift rho opaque linear e : forall s,
  is_linear e linear = Some s ->
  (StepForwards_mutate linear e).2 = true
  /\ eval rho opaque (StepForwards_mutate linear e).1
     = eval rho opaque (shift_vars (delta_step linear) e).
Proof.
  induction e; intros s Hs;
    destruct (is_linear_cases _ _ _ Hs) as [Hty Hc]; try done.
  - cbn [StepForwards_mutate shift_vars]. unfold Scope_contains, delta_step.
    destruct Hc as [Hc|[Hc _]]; rewrite Hc; [|done].
    destruct (is_const_zero s) eqn:Hz; [|done].
    split; [done|]. cbn [fst eval].
    rewrite (eval_const_zero rho opaque s Hz), Z.add_0_r.
    by rewrite wrap32_idem.
  - destruct Hc as (la & lb & Ha & Hb & _).
    destruct (IHe1 _ Ha) as [O1 E1], (IHe2 _ Hb) as [O2 E2].
    cbn [StepForwards_mutate shift_vars fst snd eval].
    by rewrite ?O1, ?O2, ?E1, ?E2.
  - destruct Hc as (la & lb & Ha & Hb & _).
    destruct (IHe1 _ Ha) as [O1 E1], (IHe2 _ Hb) as [O2 E2].
    cbn [StepForwards_mutate shift_vars fst snd eval].
    by rewrite ?O1, ?O2, ?E1, ?E2.
  - destruct Hc as (la & lb & Ha & Hb & _).
    destruct (IHe1 _ Ha) as [O1 E1], (IHe2 _ Hb) as [O2 E2].
    cbn [StepForwards_mutate shift_vars fst snd eval].
    by rewrite ?O1, ?O2, ?E1, ?E2.
  - destruct Hc as (lb & Ha & Hb & _).
    destruct (IHe1 _ Ha) as [O1 E1], (IHe2 _ Hb) as [O2 E2].
    cbn [StepForwards_mutate shift_vars fst snd eval].
    by rewrite ?O1, ?O2, ?E1, ?E2.
  - destruct (IHe _ Hc) as [O1 E1].
    cbn [StepForwards_mutate shift_vars fst snd eval].
    by rewrite ?O1, ?E1.
Qed.

Lemma forallb_false {A} (f : A -> bool) l :
  forallb f l = false <-> Exists (fun a => f a = false) l.
Proof.
  induction l as [|a l IH]; simpl.
  - split; [done|]. by intros ?%Exists_nil.
  - rewrite andb_false_iff, Exists_cons, IH. done.
Qed.

Lemma Exists_flat_map {A B} (P : B -> Prop) (g : A -> list B) l :
  Exists P (flat_map g l) <-> Exists (fun a => Exists P (g a)) l.
Proof.
  induction l as [|a l IH]; simpl.
  - split; by intros ?%Exists_nil.
  - by rewrite Exists_app, Exists_cons, IH.
Qed.

(** The [success] flag falls exactly when a variable is met that the
    scope binds to the undefined step. *)
Lemma StepForwards_success linear e :
  (StepForwards_mutate linear e).2 = false
  <-> Exists (fun x => Scope_get linear x = Some None) (vars_of e).
Proof.
  induction e using Expr_induction;
    cbn [StepForwards_mutate vars_of snd];
    rewrite ?andb_false_iff, ?Exists_app, ?IHe1, ?IHe2, ?IHe; try tauto.
  - unfold Scope_contains. rewrite Exists_cons, Exists_nil.
    destruct (Scope_get linear x) as [[st|]|]; [destruct (is_const_zero st)| |];
      simpl; (split; [done|by intros [?|[]]]) || (split; [by left|done]).
  - split; [done|]. by intros ?%Exists_nil.
  - split; [done|]. by intros ?%Exists_nil.
  - rewrite forallb_false, Exists_flat_map.
    induction H as [|a args Ha _ IH]; [by rewrite !Exists_nil|].
    by rewrite !Exists_cons, Ha, IH.
Qed.

Lemma StepForwards_unchanged linear e :
  Forall (fixed linear) (vars_of e) -> StepForwards_mutate linear e = (e, true).
Proof.
  induction e using Expr_induction; cbn [StepForwards_mutate vars_of];
    rewrite ?Forall_app; intros Hf;
    try (destruct Hf as [Hf1 Hf2]; rewrite IHe1, IHe2 by done; done).
  - apply Forall_cons in Hf as [Hf _]. unfold fixed in Hf.
    unfold Scope_contains.
    destruct (Scope_get linear x) as [[st|]|]; [by rewrite Hf|done|done].
  - done.
  - done.
  - by rewrite IHe.
  - assert (Hall : Forall (fun a => StepForwards_mutate linear a = (a, true)) args).
    { induction H as [|a args Ha _ IH]; [constructor|].
      simpl in Hf. apply Forall_app in Hf as [Hfa Hfr].
      constructor; auto. }
    clear H Hf. f_equal.
    + f_equal. induction Hall as [|a args Ha _ IH]; [done|].
      simpl. by rewrite Ha, IH.
    + induction Hall as [|a args Ha _ IH]; [done|].
      simpl. by rewrite Ha, IH.
Qed.

Lemma steps_typed_doubled_scope : steps_typed doubled_scope.
Proof.
  intros x s. unfold doubled_scope.
  replace (is_linear (Mul (const 2) (var "i")) loop_scope)
    with (Some (Mul (const 2) (const 1))) by reflexivity.
  unfold loop_scope, Scope_push. cbn [Scope_get].
  destruct (String.eqb "y" x); [intros [= <-]; reflexivity|].
  destruct (String.eqb "i" x); [intros [= <-]; reflexivity|discriminate].
Qed.

Lemma is_linear_typed_witness :
  type_of (Add (Mul (const 2) (const 1)) (Mul (const 3) (const 1))) = Int 32.
Proof.
  apply (is_linear_typed doubled_scope
           (Add (var "y") (Mul (const 3) (var "i")))).
  - apply steps_typed_doubled_scope.
  - reflexivity.
Defined.

Lemma is_linear_fixed_witness :
  is_const_zero (make_zero (Int 32)) = true.
Proof.
  apply (is_linear_fixed loop_scope (Mul (var "N") (const 4))).
  - repeat constructor.
  - reflexivity.
Defined.

(** X3: [is_linear] and [StepForwards] agree.  When [is_linear] returns a
    defined step [s] for [e], stepping [e] forwards succeeds, and the
    stepped expression minus [e] has the value of [s], whatever the
    values of the variables. *)
Theorem is_linear_step_forwards (rho : string -> Z) (opaque : Expr -> Z)
  (linear : LinearScope) (e s : Expr) :
  is_linear e linear = Some s ->
  (StepForwards_mutate linear e).2 = true
  /\ eval rho opaque (Sub (StepForwards_mutate linear e).1 e) = eval rho opaque s.
Proof.
  intros Hs. destruct (StepForwards_shift rho opaque _ _ _ Hs) as [Hok Hv].
  split; [done|].
  apply (is_linear_advances rho opaque) in Hs. unfold advances_by in Hs.
  cbn [eval]. rewrite Hv.
  rewrite <- (eval_wrapped rho opaque s). apply eqm_wrap32.
  unfold cong32 in *. rewrite Zminus_mod, Hs, <- Zminus_mod. f_equal. lia.
Qed.

Lemma is_linear_step_forwards_witness :
  (StepForwards_mutate doubled_scope (Add (var "y") (Mul (const 3) (var "i")))).2
  = true
  /\ eval zero_env zero_opaque
       (Sub (StepForwards_mutate doubled_scope
               (Add (var "y") (Mul (const 3) (var "i")))).1
            (Add (var "y") (Mul (const 3) (var "i"))))
     = eval zero_env zero_opaque
         (Add (Mul (const 2) (const 1)) (Mul (const 3) (const 1))).
Proof. apply is_linear_step_forwards. reflexivity. Defined.

(** X4: [step_forwards] is undefined exactly when the expression
    mentions a variable that the scope binds to the undefined step;
    whatever the host's CSE and simplifier return, the result is defined
    otherwise. *)
Theorem step_forwards_undefined (H : Host) (linear : LinearScope) (e : Expr) :
  step_forwards H e linear = None
  <-> exists x, x ∈ vars_of e /\ Scope_get linear x = Some None.
Proof.
  rewrite <- Exists_exists, <- StepForwards_success.
  unfold step_forwards.
  destruct (StepForwards_mutate linear e) as [e' [|]]; simpl; split; done.
Qed.

(** X5: an expression whose variables are all outside the scope, or
    bound to a constant zero, is handed to the host's CSE and simplifier
    as it is: [StepForwards] rebuilds it unchanged. *)
Theorem step_forwards_fixed (H : Host) (linear : LinearScope) (e : Expr) :
  Forall (fixed linear) (vars_of e) ->
  step_forwards H e linear
  = Some (substitute_in_all_lets H
            (simplify H (common_subexpression_elimination H e))).
Proof.
  intros Hf. unfold step_forwards. by rewrite StepForwards_unchanged.
Qed.

Lemma step_forwards_fixed_witness :
  step_forwards plain_host (Mul (var "N") (const 4)) loop_scope
  = Some (substitute_in_all_lets plain_host
            (simplify plain_host
               (common_subexpression_elimination plain_host
                  (Mul (var "N") (const 4))))).
Proof. apply step_forwards_fixed. repeat constructor. Defined.

(** ** Grouping equal loads *)

Lemma option_string_eqb_eq a b : option_string_eqb a b = true <-> a = b.
Proof.
  destruct a, b; simpl; rewrite ?String.eqb_eq; split; congruence.
Qed.

Lemma ModulusRemainder_eqb_eq a b : ModulusRemainder_eqb a b = true <-> a = b.
Proof.
  destruct a, b. unfold ModulusRemainder_eqb. simpl.
  rewrite andb_true_iff, !Z.eqb_eq. split; [intros [-> ->]|intros [= -> ->]]; done.
Qed.

Lemma CallType_eqb_eq a b : CallType_eqb a b = true <-> a = b.
Proof. destruct a, b; simpl; split; congruence. Qed.

(** On trees, [graph_equal] is equality. *)
Lemma graph_equal_eq x : forall y, graph_equal x y = true <-> x = y.
Proof.
  induction x using Expr_induction; intros y; destruct y; cbn [graph_equal];
    try (split; intros; discriminate);
    rewrite ?andb_true_iff, ?IHx1, ?IHx2, ?IHx, ?Type_eqb_eq, ?String.eqb_eq,
      ?Z.eqb_eq, ?option_string_eqb_eq, ?ModulusRemainder_eqb_eq, ?CallType_eqb_eq;
    try (split; [intros; destruct_and?; by subst | intros [=]; by subst]).
  match goal with
  | |- _ /\ ?f args ?l = true <-> _ =>
      assert (Hargs : forall l', f args l' = true <-> args = l')
  end.
  { induction H as [|a args Ha _ IH]; intros [|a' l']; simpl;
      try (split; intros; discriminate); [done|].
    rewrite andb_true_iff, Ha, IH.
    split; [intros [-> ->]; done | intros [= -> ->]; done]. }
  rewrite Hargs.
  split; [intros; destruct_and?; by subst | intros [=]; by subst].
Qed.

Lemma Load_expr_inj l1 l2 : Load_expr l1 = Load_expr l2 -> l1 = l2.
Proof. destruct l1, l2. unfold Load_expr. simpl. by intros [= -> -> -> -> -> -> ->]. Qed.

Lemma graph_equal_Load l1 l2 :
  graph_equal (Load_expr l1) (Load_expr l2) = true <-> l1 = l2.
Proof.
  rewrite graph_equal_eq. split; [apply Load_expr_inj|by intros ->].
Qed.

Lemma firsts_cons v rest : firsts (v :: rest) = option_list (head v) ++ firsts rest.
Proof. unfold firsts. simpl. by destruct (head v). Qed.

Lemma firsts_app a b : firsts (a ++ b) = firsts a ++ firsts b.
Proof. unfold firsts. apply omap_app. Qed.

(** One load against the groups: it joins the group it equals, if there
    is one; the first members stay. *)
Lemma add_to_groups_spec load loads :
  Forall uniform loads -> NoDup (firsts loads) ->
  Forall uniform (add_to_groups load loads).1
  /\ firsts (add_to_groups load loads).1 = firsts loads
  /\ ((add_to_groups load loads).2 = true <-> load ∈ firsts loads)
  /\ concat (add_to_groups load loads).1
     ≡ₚ (if (add_to_groups load loads).2 then [load] else []) ++ concat loads.
Proof.
  induction loads as [|v rest IH]; intros Hu Hn; cbn [add_to_groups].
  - repeat split; try done. by intros ?%elem_of_nil.
  - apply Forall_cons in Hu as [(v0 & Hv0 & Hall) Hu].
    rewrite firsts_cons, Hv0 in Hn. simpl in Hn.
    apply NoDup_cons in Hn as [Hv0n Hn].
    destruct (IH Hu Hn) as (IHu & IHf & IHr & IHc).
    destruct (add_to_groups load rest) as [rest' r]. cbn [fst snd] in *.
    destruct v as [|v0' v']; [done|]. injection Hv0 as ->.
    destruct (graph_equal (Load_expr load) (Load_expr v0)) eqn:Hg; cbn [fst snd].
    + apply graph_equal_Load in Hg as ->.
      assert (r = false) as ->.
      { destruct r; [|done]. exfalso. apply Hv0n, IHr. done. }
      split; [|split; [|split]].
      * constructor; [|done]. exists v0. split; [done|].
        apply Forall_app. split; [done|by repeat constructor].
      * rewrite !firsts_cons. simpl. by rewrite IHf.
      * split; [|done]. intros _. rewrite firsts_cons. simpl. left.
      * simpl in *. rewrite IHc. simpl. f_equiv.
        rewrite <- (assoc_L (++)). simpl. symmetry. apply Permutation_middle.
    + assert (load <> v0) as Hne.
      { intros ->. by rewrite (proj2 (graph_equal_Load v0 v0) eq_refl) in Hg. }
      split; [|split; [|split]].
      * constructor; [|done]. by exists v0.
      * rewrite !firsts_cons. simpl. by rewrite IHf.
      * rewrite firsts_cons. simpl. rewrite elem_of_cons, IHr.
        split; [by right|by intros [?|?]].
      * cbn [concat]. rewrite IHc.
        destruct r; simpl; [|done].
        symmetry. apply (Permutation_middle (v0 :: v')).
Qed.

Lemma group_step_spec in_consume loads load :
  Forall uniform loads -> NoDup (firsts loads) ->
  Forall uniform (group_step in_consume loads load)
  /\ NoDup (firsts (group_step in_consume loads load))
  /\ concat (group_step in_consume loads load)
     ≡ₚ concat loads ++ (if safe in_consume load then [load] else []).
Proof.
  intros Hu Hn. unfold group_step.
  destruct (safe in_consume load); simpl; [|by rewrite app_nil_r].
  destruct (add_to_groups_spec load loads Hu Hn) as (Hu' & Hf & Hr & Hc).
  destruct (add_to_groups load loads) as [loads' r]. cbn [fst snd] in *.
  destruct r.
  - split; [done|]. split; [by rewrite Hf|].
    rewrite Hc. simpl. by rewrite <- Permutation_cons_append.
  - split; [|split].
    + apply Forall_app. split; [done|]. repeat constructor.
      exists load. split; [done|]. by repeat constructor.
    + rewrite firsts_app, Hf. unfold firsts at 2. simpl.
      apply NoDup_app. split; [done|]. split; [|by apply NoDup_singleton].
      intros x Hx ->%list_elem_of_singleton.
      apply Hr in Hx. done.
    + rewrite concat_app, Hc. done.
Qed.

Lemma group_loads_parts (in_consume : Scope unit) (found : list LoadNode) :
  Forall uniform (group_loads in_consume found)
  /\ NoDup (firsts (group_loads in_consume found))
  /\ concat (group_loads in_consume found)
     ≡ₚ filter (fun l => safe in_consume l = true) found.
Proof.
  unfold group_loads.
  assert (Hgen : forall loads,
            Forall uniform loads -> NoDup (firsts loads) ->
            Forall uniform (fold_left (group_step in_consume) found loads)
            /\ NoDup (firsts (fold_left (group_step in_consume) found loads))
            /\ concat (fold_left (group_step in_consume) found loads)
               ≡ₚ concat loads ++ filter (fun l => safe in_consume l = true) found).
  { induction found as [|l found IH]; intros loads Hu Hn; simpl.
    - by rewrite app_nil_r.
    - destruct (group_step_spec in_consume loads l Hu Hn) as (Hu' & Hn' & Hc').
      destruct (IH _ Hu' Hn') as (Hu2 & Hn2 & Hc2).
      split; [done|]. split; [done|]. rewrite Hc2, Hc'.
      rewrite filter_cons. rewrite <- (assoc_L (++)).
      destruct (safe in_consume l); simpl.
      + by destruct (decide (true = true)).
      + by destruct (decide (false = true)). }
  destruct (Hgen [] ltac:(constructor) ltac:(constructor)) as (? & ? & ?).
  done.
Qed.

(** X6: the grouping of lines 261-282 partitions the loads that pass the
    safety test: every group is non-empty and holds copies of its first
    member only, no two groups have the same first member, and all the
    groups together hold the safe loads found, each of them once per
    time it was found. *)
Theorem group_loads_partition (in_consume : Scope unit) (found : list LoadNode) :
  Forall uniform (group_loads in_consume found)
  /\ NoDup (firsts (group_loads in_consume found))
  /\ concat (group_loads in_consume found)
     ≡ₚ filter (fun l => safe in_consume l = true) found.
Proof. apply group_loads_parts. Qed.

(** ** The edges, once each *)

Lemma NoDup_flat_map {A B} (f : A -> list B) (l : list A) :
  NoDup l ->
  (forall x, x ∈ l -> NoDup (f x)) ->
  (forall x1 x2 y, x1 ∈ l -> x2 ∈ l -> y ∈ f x1 -> y ∈ f x2 -> x1 = x2) ->
  NoDup (flat_map f l).
Proof.
  induction 1 as [|x l Hx Hl IH]; intros Hf Hd; simpl; [constructor|].
  apply NoDup_app. split; [apply Hf; left|]. split.
  - intros y Hy Hy'. apply list_elem_of_In, in_flat_map in Hy' as (x' & Hx' & Hy').
    apply list_elem_of_In in Hx', Hy'.
    assert (x = x') as <- by (eapply Hd; eauto; [left|by right]).
    done.
  - apply IH.
    + intros x' Hx'. apply Hf. by right.
    + intros x1 x2 y H1 H2. apply Hd; by right.
Qed.

Lemma edge_at_NoDup H infos i j : NoDup (edge_at H infos i j).
Proof.
  unfold edge_at. destruct (infos !! i), (infos !! j); try constructor.
  destruct (_ && _); [apply NoDup_singleton|constructor].
Qed.

(** X7: the edge detection of lines 319-341 records every carry once: the
    vector of edges has no edge twice, and every edge is a pair [[j; i]]
    of two different groups. *)
Theorem find_edges_NoDup (H : Host) (infos : list GroupInfo) :
  NoDup (find_edges H infos)
  /\ Forall (fun c => exists i j, c = [j; i] /\ i <> j
                        /\ (i < length infos)%nat /\ (j < length infos)%nat)
            (find_edges H infos).
Proof.
  split; [|apply find_edges_pairs].
  unfold find_edges. apply NoDup_flat_map.
  - apply NoDup_seq.
  - intros i _. apply NoDup_flat_map.
    + apply NoDup_seq.
    + intros j _. apply edge_at_NoDup.
    + intros j1 j2 y _ _ H1 H2.
      apply elem_of_edge_at in H1 as [-> _]. apply elem_of_edge_at in H2 as [E _].
      by injection E.
  - intros i1 i2 y _ _ H1 H2.
    apply list_elem_of_In, in_flat_map in H1 as (j1 & _ & H1).
    apply list_elem_of_In, in_flat_map in H2 as (j2 & _ & H2).
    apply list_elem_of_In, elem_of_edge_at in H1 as [-> _].
    apply list_elem_of_In, elem_of_edge_at in H2 as [E _].
    by injection E.
Qed.

(** ** The chains are made of the edges *)

Lemma elem_of_all_links_inv r e :
  e ∈ all_links r -> exists c, c ∈ r /\ e ∈ links c.
Proof.
  induction r as [|d r IH]; [by intros ?%elem_of_nil|].
  rewrite all_links_cons, elem_of_app. intros [He|He].
  - exists d. split; [left|done].
  - destruct (IH He) as (c & Hc & Hl). exists c. split; [by right|done].
Qed.

Lemma links_pair_inv (c : list nat) x y :
  length c = 2%nat -> (x, y) ∈ links c -> c = [x; y].
Proof.
  destruct c as [|a [|b [|]]]; try done. intros _.
  change (links [a; b]) with [(a, b)].
  by intros [= -> ->]%list_elem_of_singleton.
Qed.

(** X8: agglomeration invents no carry.  Every two neighbours in an
    agglomerated chain are one of the detected edges, and the links of
    all chains together use every edge at most once. *)
Theorem agglomerate_follows_edges (edges r : Chains) :
  Forall (fun c => length c = 2%nat) edges ->
  agglomerate edges = Some r ->
  all_links r ⊆+ all_links edges
  /\ (forall c x y, c ∈ r -> (x, y) ∈ links c -> [x; y] ∈ edges).
Proof.
  intros Hp Hr. pose proof (agglomerated_links _ _ Hr) as Hl.
  split; [done|]. intros c x y Hc Hxy.
  assert (He : (x, y) ∈ all_links edges).
  { eapply elem_of_submseteq; [|exact Hl]. by eapply elem_of_all_links. }
  apply elem_of_all_links_inv in He as (e & He & Hxe).
  rewrite Forall_forall in Hp.
  by rewrite <- (links_pair_inv e x y (Hp e He) Hxe).
Qed.

Lemma agglomerate_follows_edges_witness :
  all_links [[5; 6]; [0; 1; 2; 3]]%nat
    ⊆+ all_links [[1; 2]; [0; 1]; [5; 6]; [2; 3]]%nat
  /\ (forall c x y, c ∈ [[5; 6]; [0; 1; 2; 3]]%nat -> (x, y) ∈ links c ->
        [x; y] ∈ [[1; 2]; [0; 1]; [5; 6]; [2; 3]]%nat).
Proof.
  apply (agglomerate_follows_edges [[1; 2]; [0; 1]; [5; 6]; [2; 3]]%nat).
  - repeat constructor.
  - reflexivity.
Defined.

(** ** Acyclic edges: every edge becomes a link *)

Lemma merged_links_acyclic rank chains chains' :
  merged chains chains' -> sound rank chains ->
  all_links chains' ≡ₚ all_links chains.
Proof.
  intros [i j ci cj x Hi Hj Hl Hh ->] [Hw Ha]. unfold all_links.
  destruct (decide (i = j)) as [->|Hne].
  - exfalso. assert (cj = ci) as -> by congruence.
    assert (Hlen : (2 <= length ci)%nat).
    { destruct (Forall_lookup_1 _ _ _ _ Hw Hi) as [->|?]; done. }
    assert (Hlk : Forall (fun e => (rank e.1 < rank e.2)%nat) (links ci)).
    { unfold ascending in Ha. rewrite Forall_forall in Ha |- *.
      intros e He. apply Ha.
      eapply elem_of_all_links; [|done]. by eapply list_elem_of_lookup_2. }
    pose proof (ascending_ends rank ci x x Hlk Hh Hl Hlen). lia.
  - pose proof (gather_insert links chains i ci (ci ++ tail cj) Hi) as Hp1.
    assert (Hj' : <[i:=ci ++ tail cj]> chains !! j = Some cj)
      by (by rewrite list_lookup_insert_ne).
    pose proof (gather_insert links _ j cj [] Hj') as Hp2.
    simpl in Hp2. rewrite app_nil_r in Hp2.
    rewrite (links_app _ _ x Hl Hh) in Hp1.
    rewrite <- Hp2 in Hp1.
    rewrite (assoc_L (++)) in Hp1.
    rewrite <- (assoc_L (++) _ (links cj) (links ci)) in Hp1.
    rewrite (comm (++) (links cj) (links ci)) in Hp1.
    rewrite (assoc_L (++)) in Hp1.
    apply Permutation_app_inv_r in Hp1.
    by apply Permutation_app_inv_r in Hp1.
Qed.

(** X9: when the edges have no cycle (their links go up in some rank),
    the agglomeration has a result, and the links of its chains are the
    edges, each exactly once: no carry is dropped. *)
Theorem agglomerate_acyclic (rank : nat -> nat) (edges : Chains) :
  sound rank edges ->
  exists r, agglomerate edges = Some r /\ all_links r ≡ₚ all_links edges.
Proof.
  intros Hs.
  destruct (agglomerate_loop_defined rank (S (length edges)) edges Hs
              ltac:(lia)) as [r Hr].
  exists r. split; [by apply agglomerate_Some|].
  apply (agglomerate_loop_preserves
           (fun c => sound rank c /\ all_links c ≡ₚ all_links edges)
           _ ) with (r := r) (chains := edges) in Hr; [tauto| | |done].
  - intros c c' Hm [Hsc Hc]. split; [by eapply merged_sound|].
    by rewrite (merged_links_acyclic rank c c' Hm Hsc).
  - intros c [Hsc Hc]. split; [by apply compact_sound|].
    by rewrite all_links_compact.
Qed.

Lemma agglomerate_acyclic_witness :
  exists r, agglomerate [[1; 2]; [0; 1]; [5; 6]; [2; 3]]%nat = Some r
            /\ all_links r ≡ₚ all_links [[1; 2]; [0; 1]; [5; 6]; [2; 3]]%nat.
Proof.
  apply (agglomerate_acyclic (fun n => n)).
  split.
  - unfold well_sized. repeat (constructor; [right; simpl; lia|]). constructor.
  - unfold ascending, all_links, gather. simpl.
    repeat (constructor; [simpl; lia|]). constructor.
Defined.

(** ** Compaction *)

Lemma live_filter chains : live chains = filter (fun c => c <> []) chains.
Proof.
  unfold live. induction chains as [|c r IH]; [done|].
  rewrite gather_cons, IH, filter_cons. by destruct c.
Qed.

(** X10: the compaction of lines 367-372 removes the chains that are
    empty and keeps every other chain once; it may change their order,
    since an empty chain is overwritten by the last one. *)
Theorem compact_removes_empty (chains : Chains) :
  compact chains ≡ₚ filter (fun c => c <> []) chains
  /\ compact ([] :: [1; 2] :: [3; 4] :: [])%nat = [[3; 4]; [1; 2]]%nat.
Proof. split; [|reflexivity]. rewrite <- live_filter. apply compact_live. Qed.

(** ** The stable sort *)

Lemma insert_by_size_HdRel c d sorted :
  (length d <= length c)%nat ->
  HdRel (fun c d : list nat => (length d <= length c)%nat) c sorted ->
  HdRel (fun c d : list nat => (length d <= length c)%nat) c
        (insert_by_size d sorted).
Proof.
  intros Hd. destruct sorted as [|e rest]; simpl; [by constructor|].
  intros Hr. apply HdRel_inv in Hr.
  destruct (_ <? _)%nat; by constructor.
Qed.

Lemma insert_by_size_sorted c sorted :
  by_decreasing_size sorted -> by_decreasing_size (insert_by_size c sorted).
Proof.
  unfold by_decreasing_size.
  induction 1 as [|d rest Hs IH Hh]; simpl; [by repeat constructor|].
  destruct (Nat.ltb_spec (length c) (length d)).
  - constructor; [done|]. apply insert_by_size_HdRel; [lia|done].
  - constructor; [by constructor|]. constructor. lia.
Qed.

Lemma insert_by_size_filter n c sorted :
  filter (fun d : list nat => length d = n) (insert_by_size c sorted)
  = filter (fun d : list nat => length d = n) (c :: sorted).
Proof.
  induction sorted as [|d rest IH]; simpl; [done|].
  destruct (Nat.ltb_spec (length c) (length d)); [|done].
  rewrite !filter_cons in *. rewrite IH.
  destruct (decide (length d = n)), (decide (length c = n)); try done; lia.
Qed.

(** X11: the sort of lines 381-382 rearranges the chains by decreasing
    size and is stable: the chains of any one size keep the order they
    had. *)
Theorem stable_sort_stable (chains : Chains) :
  stable_sort chains ≡ₚ chains
  /\ by_decreasing_size (stable_sort chains)
  /\ forall n, filter (fun c : list nat => length c = n) (stable_sort chains)
               = filter (fun c : list nat => length c = n) chains.
Proof.
  split; [apply stable_sort_perm|]. split.
  - induction chains as [|c rest IH]; simpl; [constructor|].
    by apply insert_by_size_sorted.
  - intros n. induction chains as [|c rest IH]; simpl; [done|].
    rewrite insert_by_size_filter, !filter_cons, IH. done.
Qed.

(** ** Budget trimming: what is kept *)

Lemma size_t_negative z : - 2 ^ 64 <= z < 0 -> size_t z = z + 2 ^ 64.
Proof.
  intros Hz. unfold size_t.
  rewrite <- (Z_mod_plus_full z 1 (2 ^ 64)). apply Z.mod_small. lia.
Qed.

Lemma positions_cons c chains :
  positions (c :: chains) = Z.of_nat (length c) + positions chains.
Proof. reflexivity. Qed.

Lemma trim_loop_all k chains : forall trimmed sz,
  - 2 ^ 31 <= k < 2 ^ 31 -> 0 <= sz -> sz + positions chains < 2 ^ 63 ->
  k < 0 \/ sz + positions chains <= k ->
  trim_loop k chains trimmed sz = trimmed ++ chains.
Proof.
  induction chains as [|c rest IH]; intros trimmed sz Hk Hsz Hfit Hb; simpl.
  - by rewrite app_nil_r.
  - rewrite positions_cons in Hfit, Hb.
    pose proof (positions_nonneg rest) as Hr.
    rewrite (size_t_small (sz + _)) by lia.
    assert (Hle : sz + Z.of_nat (length c) <= size_t k).
    { destruct (Z.lt_ge_cases k 0).
      - rewrite size_t_negative by lia. lia.
      - rewrite size_t_small by lia. lia. }
    destruct (Z.gtb_spec (sz + Z.of_nat (length c)) (size_t k)); [lia|].
    rewrite IH by lia. by rewrite <- (assoc_L (++)).
Qed.

(** X12: a budget that covers all positions trims nothing, and neither
    does a negative budget: cast to [size_t] it is larger than any sum of
    chain sizes. *)
Theorem trim_enough_budget (k : Z) (chains : Chains) :
  - 2 ^ 31 <= k < 2 ^ 31 -> positions chains < 2 ^ 63 ->
  k < 0 \/ positions chains <= k ->
  trim k chains = chains.
Proof.
  intros Hk Hp Hb. unfold trim. by rewrite trim_loop_all by (simpl; lia).
Qed.

Lemma trim_enough_budget_witness :
  trim (-1) [[0; 1; 2]; [3; 4]]%nat = [[0; 1; 2]; [3; 4]]%nat.
Proof. apply trim_enough_budget; [lia|simpl; lia|left; lia]. Defined.

Lemma trim_loop_prefix k chains : forall trimmed sz,
  1 <= k < 2 ^ 31 -> 0 <= sz -> sz + positions chains < 2 ^ 64 ->
  sz = positions trimmed ->
  exists n cut,
    trim_loop k chains trimmed sz = trimmed ++ take n chains ++ cut
    /\ (cut = []
        \/ exists c m, chains !! n = Some c /\ cut = [take m c]
                       /\ (m < length c)%nat
                       /\ positions (trimmed ++ take n chains ++ cut) = k).
Proof.
  induction chains as [|c rest IH]; intros trimmed sz Hk Hsz Hfit Hpos; simpl.
  - exists 0%nat, []. split; [by rewrite app_nil_r|by left].
  - rewrite positions_cons in Hfit.
    pose proof (positions_nonneg rest) as Hr.
    rewrite (size_t_small (sz + _)) by lia.
    rewrite (size_t_small k) by lia.
    rewrite (size_t_small (k - 1)) by lia.
    destruct (Z.gtb_spec (sz + Z.of_nat (length c)) k) as [Hgt|Hle].
    + destruct (Z.ltb_spec sz (k - 1)) as [Hlt|Hge].
      * exists 0%nat, [take (Z.to_nat (k - sz)) c]. split; [done|]. right.
        exists c, (Z.to_nat (k - sz)). split; [done|]. split; [done|].
        split; [lia|]. simpl. rewrite positions_app. simpl.
        rewrite length_take. lia.
      * exists 0%nat, []. split; [by rewrite app_nil_r|by left].
    + destruct (IH (trimmed ++ [c]) (sz + Z.of_nat (length c)))
        as (n & cut & Ht & Hcut); try lia.
      { rewrite positions_app. simpl. lia. }
      exists (S n), cut. simpl. rewrite Ht, <- !(assoc_L (++)). split; [done|].
      destruct Hcut as [->|(c' & m & Hc' & -> & Hm & Hp)]; [by left|].
      right. exists c', m. rewrite <- !(assoc_L (++)) in Hp. done.
Qed.

(** X13: for a budget of at least one, the kept chains are a prefix of
    the sorted chains, possibly followed by one cut copy of the next
    chain; when a chain is cut, the budget is used up exactly. *)
Theorem trim_prefix (k : Z) (chains : Chains) :
  1 <= k < 2 ^ 31 -> positions chains < 2 ^ 64 ->
  exists n cut,
    trim k chains = take n chains ++ cut
    /\ (cut = []
        \/ exists c m, chains !! n = Some c /\ cut = [take m c]
                       /\ (m < length c)%nat /\ positions (trim k chains) = k).
Proof.
  intros Hk Hp.
  destruct (trim_loop_prefix k chains [] 0 Hk ltac:(lia) ltac:(lia) eq_refl)
    as (n & cut & Ht & Hcut).
  exists n, cut. unfold trim. rewrite Ht. split; [done|].
  destruct Hcut as [->|(c & m & Hc & -> & Hm & Hpos)]; [by left|].
  right. exists c, m. done.
Qed.

Lemma trim_prefix_witness :
  exists n cut,
    trim 4 [[0; 1; 2]; [3; 4]]%nat = take n [[0; 1; 2]; [3; 4]]%nat ++ cut
    /\ (cut = []
        \/ exists c m, [[0; 1; 2]; [3; 4]]%nat !! n = Some c /\ cut = [take m c]
                       /\ (m < length c)%nat
                       /\ positions (trim 4 [[0; 1; 2]; [3; 4]]%nat) = 4).
Proof. apply trim_prefix; [lia|simpl; lia]. Defined.

Lemma trim_loop_app k chains : forall trimmed sz,
  exists kept, trim_loop k chains trimmed sz = trimmed ++ kept.
Proof.
  induction chains as [|c rest IH]; intros trimmed sz; simpl.
  - exists []. by rewrite app_nil_r.
  - destruct (_ >? _); [destruct (_ <? _)|].
    + by eexists.
    + exists []. by rewrite app_nil_r.
    + destruct (IH (trimmed ++ [c]) (size_t (sz + Z.of_nat (length c))))
        as [kept ->].
      exists (c :: kept). by rewrite <- (assoc_L (++)).
Qed.

(** X14: with a budget of one, nothing is kept, since no chain is shorter
    than two; with a budget of at least two, the first chain, the longest
    after the sort, is always kept, cut to the budget when it is longer. *)
Theorem trim_first_chain (c : list nat) (rest : Chains) :
  (2 <= length c)%nat -> Z.of_nat (length c) < 2 ^ 63 ->
  trim 1 (c :: rest) = []
  /\ forall k, 2 <= k < 2 ^ 31 ->
       head (trim k (c :: rest)) = Some (take (Z.to_nat k) c).
Proof.
  intros Hc Hlen. unfold trim. simpl. split.
  - rewrite !size_t_small by lia.
    destruct (Z.gtb_spec (0 + Z.of_nat (length c)) 1); [done|lia].
  - intros k Hk. rewrite !size_t_small by lia.
    destruct (Z.gtb_spec (0 + Z.of_nat (length c)) k).
    + destruct (Z.ltb_spec 0 (k - 1)); [|lia]. simpl. by rewrite Z.sub_0_r.
    + destruct (trim_loop_app k rest [c] (0 + Z.of_nat (length c))) as [kept ->].
      simpl. by rewrite take_ge by lia.
Qed.

Lemma trim_first_chain_witness :
  trim 1 [[0; 1; 2]; [3; 4]]%nat = []
  /\ forall k, 2 <= k < 2 ^ 31 ->
       head (trim k [[0; 1; 2]; [3; 4]]%nat) = Some (take (Z.to_nat k) [0; 1; 2]%nat).
Proof. apply trim_first_chain; simpl; lia. Defined.

(** ** The slots of a scratch buffer *)

Lemma index_elements_scratch_index i t :
  1 <= lanes t ->
  index_elements (scratch_index i t)
  = Some ((fun k => i * lanes t + k) <$> seqZ 0 (lanes t)).
Proof.
  intros Hl. unfold scratch_index, is_scalar.
  destruct (Z.eqb_spec (lanes t) 1) as [->|Hne]; simpl.
  - by rewrite Z.mul_1_r, Z.add_0_r.
  - f_equal. apply list_fmap_ext. intros _ k _. lia.
Qed.

(** X15: for the positions below [n] of a chain whose [n * lanes t]
    elements can be counted in an [int] ([n * lanes t < 2 ^ 31]), the
    product [i * t.lanes()] of line 129 does not overflow and
    [scratch_index i t] names the [lanes t] elements from [i * lanes t]
    on.  The slots of two different positions do not overlap, and the
    slots lie within a buffer of [n * lanes t] elements, the size that is
    allocated for a chain of [n] groups of that type. *)
Theorem scratch_index_slots (t : Type_) (n i j : Z) :
  1 <= lanes t -> n * lanes t < 2 ^ 31 ->
  0 <= i < n -> 0 <= j < n -> i <> j ->
  wrap32 (i * lanes t) = i * lanes t
  /\ exists ei ej,
       index_elements (scratch_index i t) = Some ei
       /\ index_elements (scratch_index j t) = Some ej
       /\ ei = seqZ (i * lanes t) (lanes t)
       /\ Forall (fun x => 0 <= x < n * lanes t) ei
       /\ (forall x, x ∈ ei -> x ∉ ej).
Proof.
  intros Hl Hfit Hi Hj Hne. split.
  { unfold wrap32.
    rewrite Z.mod_small; [lia|].
    assert (0 <= i * lanes t < n * lanes t) by nia. lia. }
  exists ((fun k => i * lanes t + k) <$> seqZ 0 (lanes t)),
         ((fun k => j * lanes t + k) <$> seqZ 0 (lanes t)).
  rewrite !index_elements_scratch_index by done.
  split; [done|]. split; [done|]. split; [|split].
  - change (fun k => i * lanes t + k) with (Z.add (i * lanes t)).
    by rewrite fmap_add_seqZ, Z.add_0_r.
  - apply Forall_forall. intros x (k & -> & Hk%elem_of_seqZ)%list_elem_of_fmap. nia.
  - intros x (k & -> & Hk%elem_of_seqZ)%list_elem_of_fmap
             (k' & E & Hk'%elem_of_seqZ)%list_elem_of_fmap.
    apply Hne. nia.
Qed.

Lemma scratch_index_slots_witness :
  wrap32 (1 * lanes i32x4) = 1 * lanes i32x4
  /\ exists ei ej,
       index_elements (scratch_index 1 i32x4) = Some ei
       /\ index_elements (scratch_index 0 i32x4) = Some ej
       /\ ei = seqZ (1 * lanes i32x4) (lanes i32x4)
       /\ Forall (fun x => 0 <= x < 2 * lanes i32x4) ei
       /\ (forall x, x ∈ ei -> x ∉ ej).
Proof. apply scratch_index_slots; simpl; lia. Defined.

(** ** Lets: peeled and wrapped *)

(** X16: peeling the lets off an expression (lines 464-467) splits it
    into the list of its leading lets, the outermost first, and a body
    that is no let; wrapping the body in the lets again gives the
    expression back. *)
Theorem peel_lets_round_trip (e : Expr) :
  with_let_exprs (peel_lets e).1 (peel_lets e).2 = e
  /\ is_Let (peel_lets e).2 = false.
Proof.
  induction e; try done.
  simpl. destruct (peel_lets e2) as [lets inner]. simpl in *.
  destruct IHe2 as [-> ?]. done.
Qed.

(** X17: rewrapping (lines 491-496) puts the statement inside some of
    the containing lets, in their order; no let is added twice or out of
    order, and when the statement uses none of their names it is left as
    it is. *)
Theorem rewrap_sublist (H : Host) (containing_lets : list (string * Expr))
  (body : Stmt) :
  exists used,
    rewrap H containing_lets (Some body) = Some (Some (with_lets used body))
    /\ sublist used containing_lets
    /\ (Forall (fun l => stmt_uses_var H body l.1 = false) containing_lets ->
        used = []).
Proof.
  assert (Hgen : exists used,
            foldr (fun l acc => if stmt_uses_var H acc l.1
                                then LetStmt l.1 l.2 acc else acc)
                  body containing_lets = with_lets used body
            /\ sublist used containing_lets
            /\ (Forall (fun l => stmt_uses_var H body l.1 = false) containing_lets ->
                used = [])).
  { induction containing_lets as [|l lets (used & IH & Hs & Hn)]; simpl.
    - exists []. split; [done|]. split; [constructor|done].
    - rewrite IH. destruct (stmt_uses_var H (with_lets used body) l.1) eqn:Hu.
      + exists (l :: used). split; [done|]. split; [by constructor|].
        intros [Hl Hr]%Forall_cons. rewrite (Hn Hr) in Hu. simpl in Hu. congruence.
      + exists used. split; [done|]. split; [by constructor|].
        intros [_ Hr]%Forall_cons. auto. }
  destruct Hgen as (used & Hf & Hs & Hn). exists used.
  split; [|done]. unfold rewrap. destruct containing_lets; simpl in *.
  - apply sublist_nil_r in Hs as ->. done.
  - by rewrite <- Hf.
Qed.

(** ** Blocks: unpacked and packed *)

Lemma block_to_vector_round_trip_canonical s :
  canonical s ->
  Block_make_list (block_to_vector s) = Some s /\ block_to_vector s <> [].
Proof.
  intros Hc. split; [|apply block_to_vector_nonempty].
  destruct (block_to_vector s) as [|x l] eqn:Hv;
    [by destruct (block_to_vector_nonempty s)|].
  destruct (Block_make_list_is_Some x l) as [r Hr].
  rewrite Hr. f_equal.
  destruct (Block_make_list_spec (x :: l) r) as [Hcr Hvr]; [|done|].
  { rewrite <- Hv. by apply Forall_canonical_vector. }
  apply canonical_vector_eq; [done|done|].
  rewrite Hvr, <- Hv. apply concat_vector_stores, Forall_not_Block_vector.
Qed.

(** X18: [block_to_vector] unpacks a statement into a vector that is
    never empty and holds no block; the vector of a block is that of its
    first statement followed by that of the rest; and for a statement in
    the pair form that [Block::make] builds, packing the vector with
    [Block::make] gives the statement back. *)
Theorem block_to_vector_round_trip (s : Stmt) :
  block_to_vector s <> []
  /\ Forall (fun x => is_Block x = false) (block_to_vector s)
  /\ (forall a b, block_to_vector (Block_make a b)
                  = block_to_vector a ++ block_to_vector b)
  /\ (canonical s -> Block_make_list (block_to_vector s) = Some s).
Proof.
  split; [apply block_to_vector_nonempty|].
  split; [apply Forall_not_Block_vector|].
  split; [apply block_to_vector_Block_make|].
  intros Hc. by destruct (block_to_vector_round_trip_canonical s Hc).
Qed.

(** ** Nothing to carry *)

Lemma firsts_length loads : Forall uniform loads -> length (firsts loads) = length loads.
Proof.
  induction 1 as [|v rest (v0 & Hv & _) _ IH]; [done|].
  rewrite firsts_cons, Hv. simpl. by rewrite IH.
Qed.

Lemma elem_of_firsts loads v0 :
  v0 ∈ firsts loads -> v0 ∈ concat loads.
Proof.
  induction loads as [|v rest IH]; [by intros ?%elem_of_nil|].
  rewrite firsts_cons. simpl. rewrite !elem_of_app. intros [Hv|Hr]; [left|right; auto].
  destruct v as [|x v]; simpl in Hv; [by apply elem_of_nil in Hv|].
  apply list_elem_of_singleton in Hv as ->. left.
Qed.

Lemma NoDup_all_equal {A} (l : list A) :
  NoDup l -> (forall x y, x ∈ l -> y ∈ l -> x = y) -> (length l <= 1)%nat.
Proof.
  intros Hn He. destruct l as [|x [|y l]]; simpl; try lia.
  apply NoDup_cons in Hn as [Hx _]. exfalso. apply Hx.
  rewrite (He x y); [left|left|right; left].
Qed.

Lemma find_edges_few H infos : (length infos <= 1)%nat -> find_edges H infos = [].
Proof.
  intros Hl. pose proof (find_edges_pairs H infos) as Hp.
  destruct (find_edges H infos) as [|c r]; [done|].
  apply Forall_cons in Hp as [(i & j & _ & Hne & Hi & Hj) _]. lia.
Qed.

(** X19: a run of stores all of whose safe loads are the same load has
    nothing to carry: there is at most one group, a group is never
    paired with itself, and the call returns the run as it is, without a
    new scratch buffer or name.  That covers the run without any safe
    load. *)
Theorem lift_single_load (H : Host) (in_consume : Scope unit) (k : Z)
  (linear : LinearScope) (containing_lets : list (string * Expr))
  (orig : Stmt) (s : CarryState) :
  (forall l1 l2,
     l1 ∈ FindLoads (substitute_in_all_lets_stmt H orig) ->
     l2 ∈ FindLoads (substitute_in_all_lets_stmt H orig) ->
     safe in_consume l1 = true -> safe in_consume l2 = true -> l1 = l2) ->
  lift_carried_values_out_of_stmt H in_consume k linear containing_lets orig s
  = Some (orig, s).
Proof.
  intros Hsame. apply lift_no_edge. unfold no_edge, carry_edges. simpl.
  destruct (group_loads_parts in_consume
              (FindLoads (substitute_in_all_lets_stmt H orig)))
    as (Hu & Hn & Hp).
  fold (found_groups H in_consume orig) in Hu, Hn, Hp.
  assert (Hlen : (length (found_groups H in_consume orig) <= 1)%nat).
  { rewrite <- (firsts_length _ Hu). apply NoDup_all_equal; [done|].
    intros x y Hx%elem_of_firsts Hy%elem_of_firsts.
    rewrite Hp in Hx, Hy.
    apply list_elem_of_filter in Hx as [? ?], Hy as [? ?]. auto. }
  destruct (group_infos_defined in_consume H linear
              (found_groups H in_consume orig) (group_loads_good _ _))
    as [infos Hi].
  rewrite Hi. simpl.
  rewrite find_edges_few; [done|].
  by rewrite (group_infos_length _ _ _ _ Hi).
Qed.

Lemma lift_single_load_witness :
  lift_carried_values_out_of_stmt plain_host [] 8 loop_scope [] unsafe_two_tap
    (mkCarry 0 [])
  = Some (unsafe_two_tap, mkCarry 0 []).
Proof.
  apply lift_single_load. intros l1 l2 H1 H2 S1.
  vm_compute in H1.
  repeat (apply elem_of_cons in H1 as [->|H1]; [discriminate S1|]).
  by apply elem_of_nil in H1.
Defined.

(** ** The per-loop mutator on blocks *)

(** X20: the per-loop mutator sees a statement through its unpacked
    vector only: two statements with the same vector, such as two
    nestings of the same sequence, are rewritten alike, with the same
    scratch buffers and names. *)
Theorem LoopCarryOverLoop_mutate_vector (H : Host) (in_consume : Scope unit)
  (k : Z) (s1 s2 : Stmt) (linear : LinearScope)
  (containing_lets : list (string * Expr)) (st : CarryState) :
  block_to_vector s1 = block_to_vector s2 ->
  LoopCarryOverLoop_mutate H in_consume k s1 linear containing_lets st
  = LoopCarryOverLoop_mutate H in_consume k s2 linear containing_lets st.
Proof.
  intros Hv. unfold LoopCarryOverLoop_mutate.
  apply bind_ext; [|done].
  by rewrite !visit_elem_vector, Hv.
Qed.

Lemma LoopCarryOverLoop_mutate_vector_witness :
  LoopCarryOverLoop_mutate plain_host [] 8
    (Block (Block two_tap (Evaluate (const 0))) three_tap) loop_scope []
    (mkCarry 0 [])
  = LoopCarryOverLoop_mutate plain_host [] 8
      (Block two_tap (Block (Evaluate (const 0)) three_tap)) loop_scope []
      (mkCarry 0 []).
Proof. apply LoopCarryOverLoop_mutate_vector. reflexivity. Defined.

Lemma foldM_block_step_stores H in_consume k linear lets l : forall acc st,
  Forall (fun x => is_Store x = true) l ->
  foldM (block_step H in_consume k linear lets) l acc st
  = Some ((acc.1 ++ l, acc.2), st).
Proof.
  induction l as [|x l IH]; intros [stores result] st Hl; simpl.
  - by rewrite app_nil_r.
  - apply Forall_cons in Hl as [Hx Hl].
    unfold bind at 1. unfold block_step at 1. rewrite Hx. simpl.
    rewrite IH by done. simpl. by rewrite <- (assoc_L (++)).
Qed.

(** X21: a statement that unpacks into stores only is one run: the
    per-loop mutator hands it as a whole to
    [lift_carried_values_out_of_stmt], and returns what that returns. *)
Theorem LoopCarryOverLoop_mutate_run (H : Host) (in_consume : Scope unit)
  (k : Z) (s : Stmt) (linear : LinearScope)
  (containing_lets : list (string * Expr)) (st : CarryState) :
  canonical s ->
  Forall (fun x => is_Store x = true) (block_to_vector s) ->
  LoopCarryOverLoop_mutate H in_consume k s linear containing_lets st
  = lift_carried_values_out_of_stmt H in_consume k linear containing_lets s st.
Proof.
  intros Hc Hs. unfold LoopCarryOverLoop_mutate.
  unfold bind at 1. rewrite visit_elem_vector, foldM_block_step_stores by done.
  simpl. unfold finish_block, close_run, bind.
  destruct (block_to_vector_round_trip_canonical s Hc) as [-> _].
  unfold lift.
  destruct (lift_carried_values_out_of_stmt _ _ _ _ _ _ _) as [[r st']|]; done.
Qed.

Lemma LoopCarryOverLoop_mutate_run_witness :
  LoopCarryOverLoop_mutate plain_host [] 8 (Block two_tap three_tap)
    loop_scope [] (mkCarry 0 [])
  = lift_carried_values_out_of_stmt plain_host [] 8 loop_scope []
      (Block two_tap three_tap) (mkCarry 0 []).
Proof.
  apply LoopCarryOverLoop_mutate_run.
  - simpl. auto.
  - repeat constructor.
Defined.

(** ** Properties of the state that the per-loop mutator keeps *)

Section Preserving.

Variable H : Host.
Variable I : CarryState -> Prop.

Lemma preserves_ret {A} (a : A) : preserves I (ret a).
Proof. intros st a' st' [= _ <-]%ret_Some. done. Qed.

Lemma preserves_lift_opt {A} (o : option A) : preserves I (lift_opt o).
Proof. intros st a st' (? & _ & [= _ <-])%lift_opt_Some. done. Qed.

Lemma preserves_bind {A B} (m : M CarryState A) (f : A -> M CarryState B) :
  preserves I m -> (forall a, preserves I (f a)) -> preserves I (bind m f).
Proof.
  intros Hm Hf st b st' (a & st1 & H1 & H2)%bind_Some Hn.
  eapply Hf; [exact H2|]. eapply Hm; eauto.
Qed.

Lemma preserves_foldM {A B} (f : B -> A -> M CarryState B) l :
  (forall b a, preserves I (f b a)) -> forall b, preserves I (foldM f l b).
Proof.
  intros Hf. induction l as [|a l IH]; intros b; simpl.
  - apply preserves_ret.
  - apply preserves_bind; auto.
Qed.

(** All changes of the state are made by [synthesize_chain]. *)
Hypothesis preserves_synthesize_chain : forall loads containing_lets st c,
  preserves I (synthesize_chain H loads containing_lets st c).

Lemma preserves_lift in_consume k linear containing_lets s :
  preserves I
    (lift_carried_values_out_of_stmt H in_consume k linear containing_lets s).
Proof.
  unfold lift_carried_values_out_of_stmt.
  apply preserves_bind; [apply preserves_lift_opt|]. intros infos.
  destruct (find_edges H infos); [apply preserves_ret|].
  apply preserves_bind; [apply preserves_lift_opt|]. intros chains1.
  apply preserves_bind; [apply preserves_foldM; intros;
                         apply preserves_synthesize_chain|].
  intros st.
  apply preserves_bind; [apply preserves_lift_opt|]. intros s1.
  apply preserves_bind; [apply preserves_lift_opt|]. intros s2.
  apply preserves_ret.
Qed.

Lemma preserves_close_run in_consume k linear lets acc :
  preserves I (close_run H in_consume k linear lets acc).
Proof.
  unfold close_run. destruct acc as [stores result].
  destruct (Block_make_list stores); [|apply preserves_ret].
  apply preserves_bind; [apply preserves_lift|]. intros r. apply preserves_ret.
Qed.

Lemma preserves_finish_block in_consume k linear lets acc :
  preserves I (finish_block H in_consume k linear lets acc).
Proof.
  unfold finish_block.
  apply preserves_bind; [apply preserves_close_run|]. intros r.
  apply preserves_lift_opt.
Qed.

Lemma preserves_other_elem in_consume k linear lets acc (m : M CarryState Stmt) :
  preserves I m -> preserves I (other_elem H in_consume k linear lets acc m).
Proof.
  intros Hm. unfold other_elem.
  apply preserves_bind; [apply preserves_close_run|]. intros result.
  apply preserves_bind; [done|]. intros r. apply preserves_ret.
Qed.

Lemma preserves_visit_elem in_consume k s : forall linear lets acc,
  preserves I (visit_elem H in_consume k s linear lets acc).
Proof.
  assert (Hmut : forall body,
            (forall linear lets acc,
               preserves I (visit_elem H in_consume k body linear lets acc)) ->
            forall linear lets,
              preserves I (LoopCarryOverLoop_mutate H in_consume k body linear lets)).
  { intros body Hb linear lets. unfold LoopCarryOverLoop_mutate.
    apply preserves_bind; [apply Hb|]. intros acc. apply preserves_finish_block. }
  induction s; intros linear lets acc.
  - rewrite visit_elem_LetStmt. apply preserves_other_elem.
    apply preserves_bind; [by apply Hmut|]. intros b. apply preserves_ret.
  - rewrite visit_elem_Store. apply preserves_ret.
  - rewrite visit_elem_Block. apply preserves_bind; [apply IHs1|].
    intros acc1. apply IHs2.
  - rewrite visit_elem_For. apply preserves_other_elem, preserves_ret.
  - rewrite visit_elem_IfThenElse. apply preserves_other_elem, preserves_ret.
  - rewrite visit_elem_ProducerConsumer. apply preserves_other_elem.
    apply preserves_bind; [by apply Hmut|]. intros b. apply preserves_ret.
  - rewrite visit_elem_Allocate. apply preserves_other_elem.
    apply preserves_bind; [by apply Hmut|]. intros b. apply preserves_ret.
  - rewrite visit_elem_Evaluate. apply preserves_other_elem, preserves_ret.
Qed.

Lemma preserves_LoopCarryOverLoop_mutate in_consume k s linear lets :
  preserves I (LoopCarryOverLoop_mutate H in_consume k s linear lets).
Proof.
  unfold LoopCarryOverLoop_mutate.
  apply preserves_bind; [apply preserves_visit_elem|]. intros acc.
  apply preserves_finish_block.
Qed.

End Preserving.

(** ** The names of the scratch buffers *)

(** One chain takes two values of the counter and names its buffer by
    the first. *)
Lemma synthesize_chain_state H loads containing_lets st c s st' s' :
  synthesize_chain H loads containing_lets st c s = Some (st', s') ->
  exists a, s' = mkCarry (S (S (counter s))) (allocs s ++ [a])
            /\ alloc_name a = unique_name H "c"%char (counter s).
Proof.
  unfold synthesize_chain. intros Hs.
  apply bind_Some in Hs as (scratch & s1 & Hfresh & Hs).
  apply bind_Some in Hs as (st1 & s2 & Hpos & Hs).
  apply bind_Some in Hs as (b & s3 & Hfresh' & Hs).
  inv_M.
  destruct (peel_lets _) as [initial_lets inner].
  destruct inner; try discriminate Hs.
  inv_M. simpl. eexists. split; [reflexivity|]. reflexivity.
Qed.

Lemma numbered_synthesize_chain H low loads containing_lets st c :
  preserves (numbered H low) (synthesize_chain H loads containing_lets st c).
Proof.
  intros s st' s' Hs [Hlow (ns & Hnames & Hnd & Hr)].
  apply synthesize_chain_state in Hs as (a & -> & Ha).
  split; [simpl; lia|]. exists (ns ++ [counter s]). simpl.
  rewrite !fmap_app, Hnames. simpl. rewrite Ha. split; [done|]. split.
  - apply NoDup_app. split; [done|]. split; [|apply NoDup_singleton].
    intros m Hm ->%list_elem_of_singleton.
    rewrite Forall_forall in Hr. specialize (Hr _ Hm). lia.
  - apply Forall_app. split.
    + eapply Forall_impl; [exact Hr|]. simpl. intros; lia.
    + repeat constructor; lia.
Qed.

(** X22: the scratch buffers that the per-loop mutator makes for one loop
    are named [unique_name('c')] at different values of the name counter,
    all of them taken while the loop was rewritten; the counter never
    goes back.  With a [unique_name] that gives different names for
    different counter values, no two scratch buffers share a name. *)
Theorem scratch_names_distinct (H : Host) (in_consume : Scope unit) (k : Z)
  (var : string) (body body' : Stmt) (new : list ScratchAllocation)
  (n n' : nat) :
  run_carry H in_consume k var body n = Some ((body', new), n') ->
  (n <= n')%nat
  /\ (exists ns, alloc_name <$> new = unique_name H "c"%char <$> ns
                 /\ NoDup ns /\ Forall (fun m => (n <= m < n')%nat) ns)
  /\ ((forall a b, unique_name H "c"%char a = unique_name H "c"%char b -> a = b) ->
      NoDup (alloc_name <$> new)).
Proof.
  unfold run_carry. intros Hr.
  destruct (LoopCarryOverLoop_mutate _ _ _ _ _ _ _) as [[b st]|] eqn:Hm;
    [|done].
  injection Hr as -> <- <-.
  assert (Hstart : numbered H n (mkCarry n [])).
  { split; [done|]. exists []. repeat split; constructor. }
  destruct (preserves_LoopCarryOverLoop_mutate H (numbered H n)
              (numbered_synthesize_chain H n) in_consume k body _ _ _ _ _
              Hm Hstart) as [Hlow (ns & Hnames & Hnd & Hrange)].
  simpl in Hlow. split; [done|]. split; [by exists ns|].
  intros Hinj. rewrite Hnames. apply NoDup_fmap_2; [|done].
  intros a b. apply Hinj.
Qed.

Lemma scratch_names_distinct_witness :
  exists body' new n',
    run_carry plain_host [] 2 "i" two_runs 0%nat = Some ((body', new), n')
    /\ (0 <= n')%nat
    /\ (exists ns, alloc_name <$> new = unique_name plain_host "c"%char <$> ns
                   /\ NoDup ns /\ Forall (fun m => (0 <= m < n')%nat) ns)
    /\ ((forall a b, unique_name plain_host "c"%char a
                     = unique_name plain_host "c"%char b -> a = b) ->
        NoDup (alloc_name <$> new)).
Proof.
  eexists _, _, _. split; [vm_compute; reflexivity|].
  eapply (scratch_names_distinct plain_host [] 2 "i" two_runs).
  vm_compute. reflexivity.
Defined.

(** ** The stores of the whole pass *)

Section OwnStores.

Variable H : Host.
Variable scratch : string -> bool.
Hypothesis host_keeps_stores : keeps_stores H.
Hypothesis scratch_names : forall n, scratch (unique_name H "c"%char n) = true.

Local Abbreviation own := (own_stores scratch).

Lemma own_stores_app l1 l2 : own (l1 ++ l2) = own l1 ++ own l2.
Proof. apply filter_app. Qed.

Lemma own_stores_scratch l : Forall (fun x => scratch x = true) l -> own l = [].
Proof.
  induction 1 as [|x l Hx _ IH]; [done|].
  unfold own_stores in *. rewrite filter_cons, IH.
  destruct (decide (scratch x = false)); [congruence|done].
Qed.

Lemma store_targets_with_lets lets b :
  store_targets (with_lets lets b) = store_targets b.
Proof. induction lets as [|l lets IH]; simpl; auto. Qed.

Lemma store_targets_rewrap_fold lets b :
  store_targets
    (foldr (fun (l : string * Expr) acc =>
              if stmt_uses_var H acc l.1 then LetStmt l.1 l.2 acc else acc)
           b lets)
  = store_targets b.
Proof.
  induction lets as [|l lets IH]; simpl; [done|].
  by destruct (stmt_uses_var _ _ _).
Qed.

Lemma targets_imap_scratch nm (f : nat -> Expr -> Stmt) l :
  (forall i v, store_targets (f i v) = [nm]) ->
  Forall (fun x => x = nm) (targets (imap f l)).
Proof.
  revert f. induction l as [|v l IH]; intros f Hf; simpl; [constructor|].
  rewrite Hf. constructor; [done|]. apply IH. intros i w. apply Hf.
Qed.

(** The initial stores of a chain go to its scratch buffer. *)
Lemma synthesize_chain_initial loads containing_lets st c s st' s' :
  synthesize_chain H loads containing_lets st c s = Some (st', s') ->
  exists a, allocs s' = allocs s ++ [a]
            /\ alloc_name a = unique_name H "c"%char (counter s)
            /\ forall init, alloc_initial_stores a = Some init ->
                 Forall (fun x => x = alloc_name a) (store_targets init).
Proof.
  unfold synthesize_chain. intros Hs.
  apply bind_Some in Hs as (nm & s1 & Hfresh & Hs).
  apply bind_Some in Hs as (st1 & s2 & Hpos & Hs).
  apply bind_Some in Hs as (b & s3 & Hfresh' & Hs).
  inv_M.
  destruct (peel_lets _) as [initial_lets inner].
  destruct inner; try discriminate Hs.
  apply bind_Some in Hs as (stores & s4 & Hst & Hs).
  apply bind_Some in Hs as (w1 & s5 & Hw1 & Hs).
  apply bind_Some in Hs as (w2 & s6 & Hw2 & Hs).
  inv_M. simpl. eexists. split; [reflexivity|]. split; [reflexivity|].
  simpl. intros init ->.
  match goal with Hi : initial_scratch_stores _ _ _ = Some ?l |- _ =>
    assert (Hall : Forall (fun x => x = unique_name H "c"%char (counter s))
                          (targets l))
  end.
  { match goal with Hi : initial_scratch_stores _ _ _ = Some _ |- _ =>
      unfold initial_scratch_stores in Hi; destruct (_ <=? _) in Hi;
      [|discriminate Hi]; injection Hi as <-
    end.
    by apply targets_imap_scratch. }
  match goal with Hw : wrap_lets _ _ = Some ?w, Hr : rewrap _ _ ?w = Some _ |- _ =>
    unfold wrap_lets in Hw; unfold rewrap in Hr
  end.
  repeat match goal with
    | Hx : match ?l with [] => _ | _ :: _ => _ end = Some _ |- _ =>
        destruct l; simplify_eq
    | Hx : match ?o with Some _ => _ | None => _ end = Some _ |- _ =>
        destruct o eqn:?; simplify_eq
    end.
  all: repeat match goal with
    | Hb : Block_make_list _ = Some _ |- _ =>
        apply store_targets_Block_make_list in Hb
    end.
  all: rewrite ?store_targets_rewrap_fold;
    repeat match goal with
      | |- context [foldr ?f ?b ?l] => change (foldr f b l) with (with_lets l b)
      end;
    rewrite ?store_targets_with_lets; congruence.
Qed.
Lemma scratch_only_synthesize_chain loads containing_lets st c :
  preserves (fun s => Forall (scratch_only scratch) (allocs s))
            (synthesize_chain H loads containing_lets st c).
Proof.
  intros s st' s' Hs Hinv.
  apply synthesize_chain_initial in Hs as (a & -> & Ha & Hinit).
  apply Forall_app. split; [done|]. repeat constructor.
  - rewrite Ha. apply scratch_names.
  - intros init Hi. apply own_stores_scratch.
    eapply Forall_impl; [exact (Hinit init Hi)|].
    simpl. intros x ->. rewrite Ha. apply scratch_names.
Qed.

Lemma shuffle_targets_scratch new : forall chains,
  Forall (fun a => scratch (alloc_name a) = true) new ->
  Forall (fun x => scratch x = true) (shuffle_targets new chains).
Proof.
  unfold shuffle_targets.
  induction new as [|a new IH]; intros [|c chains] Hn; simpl; try constructor.
  apply Forall_cons in Hn as [Ha Hn].
  apply Forall_app. split; [|by apply IH].
  by apply Forall_replicate.
Qed.

(** One call: apart from the stores to scratch buffers, the stores of
    the run. *)
Lemma lift_own in_consume k linear containing_lets orig s out s' :
  lift_carried_values_out_of_stmt H in_consume k linear containing_lets orig s
    = Some (out, s') ->
  own (store_targets out) = own (store_targets orig).
Proof.
  destruct host_keeps_stores as (Hsil & Hgs & Hcse & _).
  intros Hl. apply lift_inv in Hl as (edges & chains & He & Hc & Hl).
  destruct Hl as [(_ & _ & -> & _)
                 |(Hne & st & leading & shuffles & Hf & Hlead & Hshuf & ->)];
    [done|].
  apply (synthesize_all_inv _ _ _ store_targets Hgs) in Hf
    as (new & Ha & Hall & Hcore & Hnf & Hsh).
  assert (Hnew : Forall (fun a => scratch (alloc_name a) = true) new).
  { clear -Hall scratch_names. induction Hall as [|a c new chains Hac _ IH];
      constructor; [|done].
    destruct Hac as (l0 & n & _ & -> & _). apply scratch_names. }
  rewrite Hcse, !store_targets_Block_make.
  rewrite (store_targets_Block_make_list _ _ Hlead),
          (store_targets_Block_make_list _ _ Hshuf).
  rewrite Hnf, Hsh, Hcore. simpl. rewrite Hsil.
  rewrite !own_stores_app.
  rewrite (own_stores_scratch (alloc_name <$> new)) by (by apply Forall_fmap).
  rewrite (own_stores_scratch (shuffle_targets new chains))
    by (by apply shuffle_targets_scratch).
  by rewrite app_nil_r.
Qed.

Lemma close_run_own in_consume k linear lets stores result st result' st' :
  close_run H in_consume k linear lets (stores, result) st = Some (result', st') ->
  own (targets result') = own (targets result ++ targets stores).
Proof.
  unfold close_run.
  destruct (Block_make_list stores) as [run|] eqn:Hrun.
  - intros (r & st1 & Hl & [= -> _]%ret_Some)%bind_Some.
    apply lift_own in Hl.
    rewrite targets_app, !own_stores_app. f_equal.
    unfold targets at 1. simpl. rewrite app_nil_r, Hl.
    by rewrite (store_targets_Block_make_list _ _ Hrun).
  - intros [= -> _]%ret_Some.
    apply Block_make_list_None in Hrun as ->. simpl. by rewrite app_nil_r.
Qed.

Lemma finish_block_own in_consume k linear lets acc st out st' :
  finish_block H in_consume k linear lets acc st = Some (out, st') ->
  own (store_targets out) = own (acc_targets acc).
Proof.
  unfold finish_block. destruct acc as [stores result].
  intros (result' & st1 & Hc & (r & Hb & [= -> _])%lift_opt_Some)%bind_Some.
  apply close_run_own in Hc.
  by rewrite (store_targets_Block_make_list _ _ Hb), Hc.
Qed.

Lemma other_elem_own in_consume k linear lets acc (m : M CarryState Stmt) X
  st acc' st' :
  (forall st1 r st2, m st1 = Some (r, st2) -> own (store_targets r) = own X) ->
  other_elem H in_consume k linear lets acc m st = Some (acc', st') ->
  own (acc_targets acc') = own (acc_targets acc ++ X).
Proof.
  intros Hm. unfold other_elem. destruct acc as [stores result].
  intros (result' & st1 & Hc & (r & st2 & Hr & [= -> _]%ret_Some)%bind_Some)%bind_Some.
  apply close_run_own in Hc. apply Hm in Hr.
  unfold acc_targets. simpl.
  rewrite app_nil_r, targets_app, !own_stores_app, Hc, own_stores_app.
  unfold targets at 3. simpl. by rewrite app_nil_r, Hr.
Qed.

Lemma visit_elem_own in_consume k s : forall linear lets acc st acc' st',
  visit_elem H in_consume k s linear lets acc st = Some (acc', st') ->
  own (acc_targets acc') = own (acc_targets acc ++ store_targets s).
Proof.
  assert (Hmut : forall body,
            (forall linear lets acc st acc' st',
               visit_elem H in_consume k body linear lets acc st = Some (acc', st') ->
               own (acc_targets acc') = own (acc_targets acc ++ store_targets body)) ->
            forall linear lets st out st',
              LoopCarryOverLoop_mutate H in_consume k body linear lets st
                = Some (out, st') ->
              own (store_targets out) = own (store_targets body)).
  { intros body Hb linear lets st out st'. unfold LoopCarryOverLoop_mutate.
    intros (acc & st1 & Hv & Hf)%bind_Some.
    apply Hb in Hv. apply finish_block_own in Hf. by rewrite Hf, Hv. }
  induction s; intros linear lets acc st acc' st'.
  - rewrite visit_elem_LetStmt. apply other_elem_own.
    intros st1 r st2 (b & st3 & Hb & [= -> _]%ret_Some)%bind_Some.
    simpl. eapply Hmut; eauto.
  - rewrite visit_elem_Store. intros [= -> _]%ret_Some.
    unfold acc_targets. simpl. rewrite targets_app.
    unfold targets at 3. simpl. by rewrite <- (assoc_L (++)).
  - rewrite visit_elem_Block. intros (acc1 & st1 & H1 & H2)%bind_Some.
    apply IHs1 in H1. apply IHs2 in H2. simpl.
    rewrite H2, !own_stores_app, H1, !own_stores_app.
    by rewrite <- !(assoc_L (++)).
  - rewrite visit_elem_For. apply other_elem_own.
    by intros st1 r st2 [= -> _]%ret_Some.
  - rewrite visit_elem_IfThenElse. apply other_elem_own.
    by intros st1 r st2 [= -> _]%ret_Some.
  - rewrite visit_elem_ProducerConsumer. apply other_elem_own.
    intros st1 r st2 (b & st3 & Hb & [= -> _]%ret_Some)%bind_Some.
    simpl. eapply Hmut; eauto.
  - rewrite visit_elem_Allocate. apply other_elem_own.
    intros st1 r st2 (b & st3 & Hb & [= -> _]%ret_Some)%bind_Some.
    simpl. eapply Hmut; eauto.
  - rewrite visit_elem_Evaluate. apply other_elem_own.
    by intros st1 r st2 [= -> _]%ret_Some.
Qed.

Lemma LoopCarryOverLoop_mutate_own in_consume k s linear lets st out st' :
  LoopCarryOverLoop_mutate H in_consume k s linear lets st = Some (out, st') ->
  own (store_targets out) = own (store_targets s).
Proof.
  unfold LoopCarryOverLoop_mutate. intros (acc & st1 & Hv & Hf)%bind_Some.
  apply visit_elem_own in Hv. apply finish_block_own in Hf.
  by rewrite Hf, Hv.
Qed.

(** Injecting the allocations adds their initial stores only. *)
Lemma inject_alloc_own var mn new : forall stmt stmt',
  Forall (scratch_only scratch) new ->
  foldM_opt (fun alloc st => inject_alloc H var mn st alloc) new stmt = Some stmt' ->
  own (store_targets stmt') = own (store_targets stmt).
Proof.
  destruct host_keeps_stores as (_ & _ & _ & Hsub).
  induction new as [|a new IH]; intros stmt stmt' Hn; simpl.
  - by intros [= <-].
  - apply Forall_cons in Hn as [[_ Ha] Hn].
    destruct (inject_alloc H var mn stmt a) as [b'|] eqn:Hinj; simpl; [|done].
    unfold inject_alloc, Block_make_defined in Hinj.
    destruct (alloc_initial_stores a) as [init|] eqn:Hi; simpl in Hinj; [|done].
    injection Hinj as <-.
    intros Hf. apply IH in Hf; [|done]. rewrite Hf. simpl.
    rewrite store_targets_Block_make, Hsub, own_stores_app, (Ha init eq_refl).
    done.
Qed.

Lemma LoopCarry_mutate_own k s : forall in_consume cnt out cnt',
  LoopCarry_mutate H k s in_consume cnt = Some (out, cnt') ->
  own (store_targets out) = own (store_targets s).
Proof.
  induction s as [nm v s IHs| |a b IHa IHb|nm mn extent for_type pp da s IHs
                 |c t e IHt IHe|nm p s IHs|nm ty m ex c s IHs|]
    using Stmt_induction; intros in_consume cnt out cnt'; cbn [LoopCarry_mutate].
  - intros (b & n1 & Hb & [= -> _]%ret_Some)%bind_Some. simpl. eauto.
  - by intros [= -> _]%ret_Some.
  - intros (a' & n1 & Ha & (b' & n2 & Hb & [= -> _]%ret_Some)%bind_Some)%bind_Some.
    rewrite store_targets_Block_make. simpl.
    rewrite !own_stores_app. f_equal; eauto.
  - destruct (ForType_is_Serial for_type && negb (is_const_one extent)).
    + intros (body1 & n1 & Hb & ([body2 new] & n2 & Hr & Hm)%bind_Some)%bind_Some.
      apply bind_Some in Hm as (stmt' & n3 & (x & Hi & [= -> ->])%lift_opt_Some & Hm).
      unfold run_carry in Hr.
      destruct (LoopCarryOverLoop_mutate _ _ _ _ _ _ _) as [[b2 st]|] eqn:Hc;
        [|done].
      injection Hr as -> <- <-.
      pose proof (LoopCarryOverLoop_mutate_own _ _ _ _ _ _ _ _ Hc) as Hown.
      assert (Hnew : Forall (scratch_only scratch) (allocs st)).
      { apply (preserves_LoopCarryOverLoop_mutate H _
                 scratch_only_synthesize_chain _ _ _ _ _ _ _ _ Hc).
        constructor. }
      apply inject_alloc_own in Hi; [|done].
      assert (Hout : store_targets out = store_targets x).
      { destruct (allocs st); apply ret_Some in Hm; injection Hm as -> _;
          simpl; by rewrite ?app_nil_r. }
      rewrite Hout, Hi. simpl. rewrite Hown. eauto.
    + intros (b & n1 & Hb & [= -> _]%ret_Some)%bind_Some. simpl. eauto.
  - intros (t' & n1 & Ht & Hm)%bind_Some. destruct e as [e|].
    + apply bind_Some in Hm as (e' & n2 & He & [= -> _]%ret_Some).
      simpl. rewrite !own_stores_app. f_equal; eauto.
    + apply ret_Some in Hm. injection Hm as -> _. simpl.
      rewrite !app_nil_r. eauto.
  - destruct p; intros (b & n1 & Hb & [= -> _]%ret_Some)%bind_Some; simpl; eauto.
  - intros (b & n1 & Hb & [= -> _]%ret_Some)%bind_Some. simpl. eauto.
  - by intros [= -> _]%ret_Some.
Qed.

End OwnStores.

Lemma own_stores_all scratch l :
  Forall (fun x => scratch x = false) l -> own_stores scratch l = l.
Proof.
  induction 1 as [|x l Hx _ IH]; [done|].
  unfold own_stores in *. rewrite filter_cons, IH.
  by destruct (decide (scratch x = false)).
Qed.

Lemma keeps_stores_plain_host : keeps_stores plain_host.
Proof.
  split; [|split; [|split]]; simpl.
  - apply store_targets_inline_lets_stmt.
  - intros a b x. apply store_targets_map_stmt.
  - done.
  - intros v e x. apply store_targets_map_stmt.
Qed.

(** X23: the whole pass keeps the stores of the program.  With a host
    whose passes keep the sequence of stores of a statement, and [scratch]
    telling the names that [unique_name('c')] gives, the output stores to
    the buffers that are no scratch buffers exactly as the input does, in
    the same order; every store that is added goes to a scratch
    buffer. *)
Theorem loop_carry_keeps_stores (H : Host) (scratch : string -> bool)
  (s : Stmt) (k : Z) (n0 : nat) (out : Stmt) :
  keeps_stores H ->
  (forall n, scratch (unique_name H "c"%char n) = true) ->
  loop_carry H s k n0 = Some out ->
  own_stores scratch (store_targets out) = own_stores scratch (store_targets s)
  /\ (Forall (fun x => scratch x = false) (store_targets s) ->
      own_stores scratch (store_targets out) = store_targets s).
Proof.
  intros Hk Hs Hl. unfold loop_carry in Hl.
  destruct (LoopCarry_mutate H k s [] n0) as [[out' n']|] eqn:Hm; [|done].
  injection Hl as <-.
  pose proof (LoopCarry_mutate_own H scratch Hk Hs _ _ _ _ _ _ Hm) as Hown.
  split; [done|]. intros Hall. by rewrite Hown, own_stores_all.
Qed.

Lemma loop_carry_keeps_stores_witness :
  exists out,
    loop_carry plain_host (serial_for "i" (const 0) (var "N") three_tap) 8 0%nat
    = Some out
    /\ own_stores starts_with_c (store_targets out)
       = own_stores starts_with_c
           (store_targets (serial_for "i" (const 0) (var "N") three_tap))
    /\ (Forall (fun x => starts_with_c x = false)
               (store_targets (serial_for "i" (const 0) (var "N") three_tap)) ->
        own_stores starts_with_c (store_targets out)
        = store_targets (serial_for "i" (const 0) (var "N") three_tap)).
Proof.
  eexists. split; [vm_compute; reflexivity|].
  eapply (loop_carry_keeps_stores plain_host starts_with_c
            (serial_for "i" (const 0) (var "N") three_tap) 8 0%nat).
  - apply keeps_stores_plain_host.
  - reflexivity.
  - vm_compute. reflexivity.
Defined.

(** ** What one chain emits *)

Lemma chain_position_step H loads nm c st i st' :
  chain_position H loads nm c st i = Some st' ->
  exists g l,
    c !! i = Some g /\ first_load loads g l
    /\ not_first_iteration_scratch_stores st'
       = not_first_iteration_scratch_stores st
           ++ (if (i =? length c - 1)%nat
               then [leading_store nm (Z.of_nat i) l] else [])
    /\ scratch_shuffles st'
       = scratch_shuffles st
           ++ (if (0 <? i)%nat then [shuffle_store nm (Z.of_nat i) l] else [])
    /\ initial_scratch_values st'
       = initial_scratch_values st
           ++ (if (i =? length c - 1)%nat then [] else [Load_expr l]).
Proof.
  unfold chain_position, first_load.
  destruct (c !! i) as [g|]; simpl; [|done].
  destruct (loads !! g) as [group|] eqn:Hg; simpl; [|done].
  destruct (head group) as [l|] eqn:Hl; simpl; [|done].
  intros [= <-]. exists g, l. rewrite Hg. simpl. repeat split; done.
Qed.

Lemma chain_prefix_stores H loads nm c m : forall st st',
  (m <= length c)%nat ->
  foldM_opt (fun i s => chain_position H loads nm c s i) (seq 0 m) st = Some st' ->
  exists ls,
    Forall2 (first_load loads) (take m c) ls
    /\ not_first_iteration_scratch_stores st'
       = not_first_iteration_scratch_stores st
           ++ (if (m =? length c)%nat
               then option_list (leading_store nm (Z.of_nat (length c) - 1)
                                   <$> last ls)
               else [])
    /\ scratch_shuffles st'
       = scratch_shuffles st
           ++ imap (fun i l => shuffle_store nm (Z.of_nat (S i)) l) (tail ls)
    /\ initial_scratch_values st'
       = initial_scratch_values st
           ++ (Load_expr <$> take (length c - 1) ls).
Proof.
  induction m as [|m IH]; intros st st' Hm Hf.
  - simpl in Hf. injection Hf as <-. exists []. simpl.
    split; [constructor|]. rewrite take_nil, !app_nil_r.
    by destruct (length c); rewrite ?app_nil_r.
  - rewrite seq_S, foldM_opt_app in Hf. simpl in Hf.
    destruct (foldM_opt _ (seq 0 m) st) as [st1|] eqn:H1; simpl in Hf; [|done].
    destruct (chain_position H loads nm c st1 m) as [st2|] eqn:H2;
      simpl in Hf; [|done].
    injection Hf as <-.
    destruct (IH _ _ ltac:(lia) H1) as (ls & Hls & Hnf & Hsh & Hiv).
    apply chain_position_step in H2 as (g & l & Hg & Hl & Hnf2 & Hsh2 & Hiv2).
    pose proof (Forall2_length _ _ _ Hls) as Hlen.
    rewrite length_take in Hlen.
    exists (ls ++ [l]). split; [|split; [|split]].
    + rewrite (take_S_r _ _ _ Hg). apply Forall2_app; [done|by repeat constructor].
    + rewrite Hnf2, Hnf.
      destruct (Nat.eqb_spec m (length c)); [lia|]. rewrite app_nil_r.
      rewrite last_snoc. cbn [fmap option_fmap option_map option_list].
      destruct (Nat.eqb_spec m (length c - 1)), (Nat.eqb_spec (S m) (length c));
        try lia; [|done].
      by replace (Z.of_nat (length c) - 1) with (Z.of_nat m) by lia.
    + rewrite Hsh2, Hsh, <- (assoc_L (++)). f_equal.
      destruct ls as [|l0 ls'].
      * simpl in Hlen. assert (m = 0)%nat as -> by lia. done.
      * simpl in *. rewrite imap_app. simpl.
        destruct (Nat.ltb_spec 0 m); [|lia].
        by replace (length ls' + 0)%nat with (m - 1)%nat by lia;
          replace (S (m - 1)) with m by lia.
    + rewrite Hiv2, Hiv, <- (assoc_L (++)). f_equal.
      destruct (Nat.eqb_spec m (length c - 1)).
      * rewrite app_nil_r, take_app_le by lia. done.
      * rewrite (take_ge ls) by lia.
        rewrite take_ge by (rewrite length_app; simpl; lia).
        by rewrite fmap_app.
Qed.

(** X24: for a chain of [n] groups, the loop of lines 430-453 emits one
    leading-edge store, of the load of the last group into slot [n - 1]
    of the chain's scratch buffer; [n - 1] shuffles, in the order of the
    slots, the one at position [i] moving slot [i] to slot [i - 1]; and
    the loads of the first [n - 1] groups, in their order, as the values
    the buffer starts with. *)
Theorem chain_positions_stores (H : Host) (loads : list (list LoadNode))
  (nm : string) (c : list nat) (st st' : Synth) :
  foldM_opt (fun i s => chain_position H loads nm c s i) (seq 0 (length c)) st
    = Some st' ->
  exists ls,
    Forall2 (first_load loads) c ls
    /\ not_first_iteration_scratch_stores st'
       = not_first_iteration_scratch_stores st
           ++ option_list (leading_store nm (Z.of_nat (length c) - 1) <$> last ls)
    /\ scratch_shuffles st'
       = scratch_shuffles st
           ++ imap (fun i l => shuffle_store nm (Z.of_nat (S i)) l) (tail ls)
    /\ initial_scratch_values st'
       = initial_scratch_values st ++ (Load_expr <$> take (length c - 1) ls).
Proof.
  intros Hf.
  destruct (chain_prefix_stores H loads nm c (length c) st st' ltac:(lia) Hf)
    as (ls & Hls & Hnf & Hsh & Hiv).
  rewrite Nat.eqb_refl in Hnf. rewrite firstn_all in Hls. by exists ls.
Qed.

Lemma chain_positions_stores_witness :
  exists st' ls,
    foldM_opt (fun i s => chain_position plain_host
                            (found_groups plain_host [] three_tap) "c0"
                            [0; 1; 2]%nat s i)
              (seq 0 3) (mkSynth three_tap [] [] []) = Some st'
    /\ Forall2 (first_load (found_groups plain_host [] three_tap))
               [0; 1; 2]%nat ls
    /\ not_first_iteration_scratch_stores st'
       = [] ++ option_list (leading_store "c0" (Z.of_nat 3 - 1) <$> last ls)
    /\ scratch_shuffles st'
       = [] ++ imap (fun i l => shuffle_store "c0" (Z.of_nat (S i)) l) (tail ls)
    /\ initial_scratch_values st'
       = [] ++ (Load_expr <$> take (3 - 1) ls).
Proof.
  eexists.
  destruct (chain_positions_stores plain_host
              (found_groups plain_host [] three_tap) "c0" [0; 1; 2]%nat
              (mkSynth three_tap [] [] []) _ eq_refl) as (ls & Hls).
  exists ls. split; [reflexivity|]. exact Hls.
Defined.

(** ** The initial stores and the bounds of their loop *)

(** X25: the loop of lines 473-480 runs to [c.size() - 1] as a
    [size_t].  For a chain of [n >= 1] groups it needs [n - 1] values: it
    stores the first [n - 1] of them to the slots [0] to [n - 2], in
    order, and reads past the end when there are fewer.  For an empty
    chain the bound wraps around, and the loop reads past the end of any
    vector of values. *)
Theorem initial_scratch_stores_bounds (nm : string) (c : list nat)
  (values : list Expr) :
  Z.of_nat (length c) < 2 ^ 63 -> Z.of_nat (length values) < 2 ^ 63 ->
  initial_scratch_stores nm c values
  = if decide (c <> [] /\ (length c - 1 <= length values)%nat)
    then Some (imap (initial_store nm) (take (length c - 1) values))
    else None.
Proof.
  intros Hc Hv. unfold initial_scratch_stores.
  destruct c as [|g c].
  - simpl. rewrite size_t_negative by lia.
    destruct (_ <=? _) eqn:E; [apply Z.leb_le in E; lia|done].
  - simpl length in *. rewrite size_t_small by lia.
    destruct (Z.leb_spec (Z.of_nat (S (length c)) - 1) (Z.of_nat (length values))).
    + rewrite decide_True by (split; [done|lia]).
      do 3 f_equal. lia.
    + rewrite decide_False; [done|]. intros [_ ?]. lia.
Qed.

Lemma initial_scratch_stores_bounds_witness :
  initial_scratch_stores "c0" [0; 1; 2]%nat [const 5; const 6]
  = if decide ([0; 1; 2]%nat <> [] /\ (length [0; 1; 2]%nat - 1 <= 2)%nat)
    then Some (imap (initial_store "c0") (take (3 - 1) [const 5; const 6]))
    else None.
Proof. apply initial_scratch_stores_bounds; simpl; lia. Defined.

(** ** The loads of a run *)

Lemma FindLoads_Block_make a b :
  FindLoads (Block_make a b) = FindLoads a ++ FindLoads b.
Proof.
  induction a; simpl; try done.
  by rewrite IHa2, (assoc_L (++)).
Qed.

Lemma FindLoads_Block_make_list stores run :
  Block_make_list stores = Some run ->
  FindLoads run = flat_map FindLoads stores.
Proof.
  revert run. induction stores as [|s [|s' rest] IH]; intros run Hr.
  - done.
  - simpl in Hr. injection Hr as <-. simpl. by rewrite app_nil_r.
  - rewrite Block_make_list_cons in Hr.
    destruct (Block_make_list (s' :: rest)) as [r|] eqn:Hrest; [|done].
    simpl in Hr. injection Hr as <-.
    rewrite FindLoads_Block_make, (IH r eq_refl). done.
Qed.

(** X26: [FindLoads] lists a load as itself and does not look into it,
    whatever its index and predicate hold; and a load is found in a run
    of stores packed by [Block::make] exactly when it is found in one of
    its stores.  The statement is about which loads are found, not about
    how often: the code lists a node that several stores share once. *)
Theorem FindLoads_run (l : LoadNode) (stores : list Stmt) (run : Stmt) :
  Block_make_list stores = Some run ->
  FindLoads_expr (Load_expr l) = [l]
  /\ (forall x, x ∈ FindLoads run <-> exists s, s ∈ stores /\ x ∈ FindLoads s).
Proof.
  intros Hr. split; [by destruct l|].
  intros x. rewrite (FindLoads_Block_make_list _ _ Hr).
  rewrite list_elem_of_In, in_flat_map. split.
  - intros (s & Hs & Hx). exists s. by rewrite !list_elem_of_In.
  - intros (s & Hs & Hx). exists s. by rewrite <- !list_elem_of_In.
Qed.

Lemma FindLoads_run_witness :
  FindLoads_expr (Load_expr (mkLoad i32 "in" (image_load "in" (var "i"))
                               (const_true 1) (Some "in") None ModulusRemainder0))
  = [mkLoad i32 "in" (image_load "in" (var "i")) (const_true 1) (Some "in")
            None ModulusRemainder0]
  /\ (forall x, x ∈ FindLoads (Block two_tap three_tap)
        <-> exists s, s ∈ [two_tap; three_tap] /\ x ∈ FindLoads s).
Proof. apply FindLoads_run. reflexivity. Defined.

(** ** The stores of a rewritten loop body (C8) *)

Lemma stores_of_Block_make a b :
  stores_of (Block_make a b) = stores_of a ++ stores_of b.
Proof.
  induction a; simpl; try done.
  by rewrite IHa2, (assoc_L (++)).
Qed.

Lemma only_stores_Block_make a b :
  only_stores a -> only_stores b -> only_stores (Block_make a b).
Proof.
  induction a; simpl; try done.
  intros [Ha1 Ha2] Hb. split; [done|]. by apply IHa2.
Qed.

Lemma stores_of_Block_make_list l : forall r,
  Block_make_list l = Some r -> stores_of r = flat_map stores_of l.
Proof.
  induction l as [|s [|s' rest] IH]; intros r Hr.
  - done.
  - simpl in Hr. injection Hr as <-. simpl. by rewrite app_nil_r.
  - rewrite Block_make_list_cons in Hr.
    destruct (Block_make_list (s' :: rest)) as [r'|] eqn:Hrest; [|done].
    simpl in Hr. injection Hr as <-.
    rewrite stores_of_Block_make, (IH r' eq_refl). done.
Qed.

Lemma only_stores_Block_make_list l : forall r,
  Forall only_stores l -> Block_make_list l = Some r -> only_stores r.
Proof.
  induction l as [|s [|s' rest] IH]; intros r Hall Hr.
  - done.
  - simpl in Hr. injection Hr as <-. by apply Forall_cons in Hall as [? _].
  - rewrite Block_make_list_cons in Hr.
    destruct (Block_make_list (s' :: rest)) as [r'|] eqn:Hrest; [|done].
    simpl in Hr. injection Hr as <-.
    apply Forall_cons in Hall as [Hs Hall].
    apply only_stores_Block_make; [done|]. by apply IH.
Qed.

Lemma only_stores_map_stmt f x : only_stores x -> only_stores (map_stmt f x).
Proof. induction x; simpl; try done. intros [? ?]. auto. Qed.

Lemma stores_of_map_stmt f x :
  only_stores x -> stores_of (map_stmt f x) = map_stmt f <$> stores_of x.
Proof.
  induction x; simpl; try done.
  intros [? ?]. rewrite fmap_app. f_equal; auto.
Qed.

Lemma map_stmt_compose f g x :
  only_stores x -> map_stmt g (map_stmt f x) = map_stmt (fun e => g (f e)) x.
Proof. induction x; simpl; try done. intros [? ?]. f_equal; auto. Qed.

Lemma map_stmt_same x : only_stores x -> map_stmt (fun e => e) x = x.
Proof. induction x; simpl; try done. intros [? ?]. f_equal; auto. Qed.

Lemma is_store_only s : is_store s -> only_stores s.
Proof. by destruct s. Qed.

Lemma stores_of_store s : is_store s -> stores_of s = [s].
Proof. by destruct s. Qed.

Lemma stores_of_are_stores s : Forall is_store (stores_of s).
Proof.
  induction s as [nm v s IHs| |a b IHa IHb|nm mn extent for_type pp da s IHs
                 |c t e IHt IHe|nm p s IHs|nm ty m ex c s IHs|]
    using Stmt_induction; simpl; auto.
  - by repeat constructor.
  - by apply Forall_app.
  - apply Forall_app. split; [done|]. destruct e; [by apply IHe|constructor].
Qed.

Lemma flat_map_stores_of l : Forall is_store l -> flat_map stores_of l = l.
Proof.
  induction 1 as [|s l Hs _ IH]; [done|].
  simpl. by rewrite IH, (stores_of_store s Hs).
Qed.

Section RedirectedStores.

Variable H : Host.
Variable cse_store : Stmt -> Stmt.
Hypothesis contracts : run_contracts H cse_store.

(** Substituting the loads of a group redirects. *)
Lemma substitute_group_redirects base n i l0 group : forall cr,
  only_stores base ->
  (exists r, redirects H r /\ cr = map_stmt r base) ->
  exists r, redirects H r
    /\ fold_left (fun cr l =>
                    graph_substitute H (Load_expr l)
                      (scratch_load (unique_name H "c"%char n) i l0) cr)
                 group cr
       = map_stmt r base.
Proof.
  intros cr Hb. revert cr.
  induction group as [|l group IH]; intros cr (r & Hr & ->); simpl.
  - eauto.
  - apply IH. eexists. split; [exact (redirects_load H r n i l l0 Hr)|].
    rewrite (replaces_in_stores _ _ contracts)
      by (by apply only_stores_map_stmt).
    by rewrite map_stmt_compose.
Qed.

Lemma chain_position_redirects base loads n c st i st' :
  only_stores base ->
  chain_position H loads (unique_name H "c"%char n) c st i = Some st' ->
  synth_redirects H base st -> synth_redirects H base st'.
Proof.
  intros Hb Hp (Hcore & Hnf & Hsh).
  unfold chain_position in Hp.
  destruct (c !! i) as [g|]; simpl in Hp; [|done].
  destruct (loads !! g) as [group|] eqn:Hg; simpl in Hp; [|done].
  destruct (head group) as [l|] eqn:Hl; simpl in Hp; [|done].
  injection Hp as <-. split; [|split]; simpl.
  - apply (substitute_group_redirects base n (Z.of_nat i) l group _ Hb Hcore).
  - apply Forall_app. split; [done|].
    destruct (_ =? _)%nat; repeat constructor.
    by exists n, (Z.of_nat i), l.
  - apply Forall_app. split; [done|].
    destruct (_ <? _)%nat; repeat constructor.
    by exists n, (Z.of_nat i), l.
Qed.

Lemma chain_positions_redirects base loads n c positions : forall st st',
  only_stores base ->
  foldM_opt (fun i s => chain_position H loads (unique_name H "c"%char n) c s i)
            positions st = Some st' ->
  synth_redirects H base st -> synth_redirects H base st'.
Proof.
  induction positions as [|i positions IH]; intros st st' Hb; simpl.
  - by intros [= <-].
  - destruct (chain_position _ _ _ _ _ _) as [st1|] eqn:Hp; simpl; [|done].
    intros Hf Hs. eapply IH; [done|exact Hf|].
    eapply chain_position_redirects; eauto.
Qed.

Lemma synthesize_chain_redirects base loads containing_lets st c s st' s' :
  only_stores base ->
  synthesize_chain H loads containing_lets st c s = Some (st', s') ->
  synth_redirects H base st -> synth_redirects H base st'.
Proof.
  unfold synthesize_chain. intros Hb Hs Hst.
  apply bind_Some in Hs as (nm & s1 & Hfresh & Hs).
  apply bind_Some in Hs as (st1 & s2 & Hpos & Hs).
  apply bind_Some in Hs as (b & s3 & Hfresh' & Hs).
  apply lift_opt_Some in Hpos as (st1' & Hpos & Heq).
  injection Heq as ? ?; subst st1' s2.
  unfold fresh in Hfresh. injection Hfresh as <- <-.
  assert (Hst1 : synth_redirects H base st1).
  { eapply chain_positions_redirects; [done|exact Hpos|].
    destruct Hst as (Hcore & Hnf & Hsh). by repeat split. }
  destruct (peel_lets _) as [initial_lets inner].
  destruct inner; try discriminate Hs.
  apply bind_Some in Hs as (stores & s4 & _ & Hs).
  apply bind_Some in Hs as (w1 & s5 & _ & Hs).
  apply bind_Some in Hs as (w2 & s6 & _ & Hs).
  apply bind_Some in Hs as (w3 & s7 & _ & Hs).
  apply bind_Some in Hs as (w4 & s8 & _ & Hs).
  apply bind_Some in Hs as (w5 & s9 & _ & Hs).
  apply bind_Some in Hs as (w6 & s10 & _ & Hs).
  apply ret_Some in Hs. by injection Hs as <- _.
Qed.

Lemma synthesize_all_redirects base loads containing_lets chains :
  forall st s st' s',
  only_stores base ->
  foldM (synthesize_chain H loads containing_lets) chains st s = Some (st', s') ->
  synth_redirects H base st -> synth_redirects H base st'.
Proof.
  induction chains as [|c chains IH]; intros st s st' s' Hb; simpl.
  - by intros [= <- _]%ret_Some.
  - intros (st1 & s1 & Hc & Hf)%bind_Some Hst.
    eapply IH; [done|exact Hf|].
    eapply synthesize_chain_redirects; eauto.
Qed.

(** One call on a run of stores. *)
Lemma lift_segment in_consume k linear containing_lets orig s out s' :
  only_stores orig ->
  lift_carried_values_out_of_stmt H in_consume k linear containing_lets orig s
    = Some (out, s') ->
  exists g, seg_run g = stores_of orig
            /\ stores_of out = seg_out g
            /\ lifted_or_kept H cse_store g.
Proof.
  intros Ho Hl. apply lift_inv in Hl as (edges & chains & He & Hc & Hl).
  destruct Hl as [(_ & _ & -> & _)
                 |(Hne & st & leading & shuffles & Hf & Hlead & Hshuf & ->)].
  { exists (mkSegment (stores_of orig) [] (stores_of orig) []).
    unfold seg_out. simpl. rewrite app_nil_r.
    split; [done|]. split; [done|]. by left. }
  rewrite (inlines_stores _ _ contracts) in Hf by done.
  set (base := map_stmt (substitute_in_all_lets H) orig) in *.
  assert (Hb : only_stores base) by (by apply only_stores_map_stmt).
  apply (synthesize_all_redirects base) in Hf; [|done|].
  2:{ split; [|by split; constructor].
      exists (fun e => e). split; [constructor|]. simpl.
      by rewrite map_stmt_same. }
  destruct Hf as ((r & Hr & Hcore) & Hnf & Hsh).
  assert (Hnf' : Forall is_store (not_first_iteration_scratch_stores st)).
  { eapply Forall_impl; [exact Hnf|]. by intros x (n & i & l & ->). }
  assert (Hsh' : Forall is_store (scratch_shuffles st)).
  { eapply Forall_impl; [exact Hsh|]. by intros x (n & i & l & ->). }
  assert (Hpre : only_stores (Block_make (Block_make leading (core st)) shuffles)).
  { apply only_stores_Block_make; [apply only_stores_Block_make|].
    - eapply only_stores_Block_make_list; [|exact Hlead].
      eapply Forall_impl; [exact Hnf'|]. apply is_store_only.
    - rewrite Hcore. by apply only_stores_map_stmt.
    - eapply only_stores_Block_make_list; [|exact Hshuf].
      eapply Forall_impl; [exact Hsh'|]. apply is_store_only. }
  rewrite (cse_each_store _ _ contracts) by done.
  rewrite !stores_of_Block_make.
  rewrite (stores_of_Block_make_list _ _ Hlead),
          (stores_of_Block_make_list _ _ Hshuf).
  rewrite !flat_map_stores_of by done.
  rewrite Hcore, stores_of_map_stmt by done.
  unfold base. rewrite stores_of_map_stmt by done.
  rewrite !fmap_app, <- (assoc_L (++)).
  exists (mkSegment (stores_of orig)
            (cse_store <$> not_first_iteration_scratch_stores st)
            (cse_store <$> (map_stmt r <$> (map_stmt (substitute_in_all_lets H)
                                              <$> stores_of orig)))
            (cse_store <$> scratch_shuffles st)).
  split; [done|]. split; [done|]. right. simpl. split; [|split].
  - rewrite <- !list_fmap_compose. apply Forall2_fmap_r, Forall_Forall2_diag.
    eapply Forall_impl; [apply stores_of_are_stores|].
    intros x Hx. destruct x; try done. simpl. split.
    + apply (cse_same_buffer _ _ contracts).
    + exists r. split; [done|]. done.
  - apply Forall_fmap. eapply Forall_impl; [exact Hnf|].
    intros x (n & i & l & ->). by exists n, i, l.
  - apply Forall_fmap. eapply Forall_impl; [exact Hsh|].
    intros x (n & i & l & ->). by exists n, i, l.
Qed.

Lemma close_run_segments in_consume k linear lets stores result st result' st' :
  Forall is_store stores ->
  close_run H in_consume k linear lets (stores, result) st = Some (result', st') ->
  exists segs,
    Forall (lifted_or_kept H cse_store) segs
    /\ stores = concat (seg_run <$> segs)
    /\ flat_map stores_of result'
       = flat_map stores_of result ++ concat (seg_out <$> segs).
Proof.
  intros Hst. unfold close_run.
  destruct (Block_make_list stores) as [run|] eqn:Hrun.
  - intros (r & st1 & Hl & [= -> _]%ret_Some)%bind_Some.
    apply lift_segment in Hl as (g & Hg1 & Hg2 & Hg3).
    2:{ eapply only_stores_Block_make_list; [|exact Hrun].
        eapply Forall_impl; [exact Hst|]. apply is_store_only. }
    exists [g]. simpl. rewrite !app_nil_r. split; [by constructor|]. split.
    + by rewrite Hg1, (stores_of_Block_make_list _ _ Hrun), flat_map_stores_of.
    + rewrite flat_map_app. simpl. by rewrite app_nil_r, Hg2.
  - intros [= -> _]%ret_Some.
    apply Block_make_list_None in Hrun as ->.
    exists []. simpl. by rewrite app_nil_r.
Qed.

Lemma finish_block_segments in_consume k linear lets acc st out st' :
  Forall is_store acc.1 ->
  finish_block H in_consume k linear lets acc st = Some (out, st') ->
  exists segs,
    Forall (lifted_or_kept H cse_store) segs
    /\ acc.1 = concat (seg_run <$> segs)
    /\ stores_of out = flat_map stores_of acc.2 ++ concat (seg_out <$> segs).
Proof.
  unfold finish_block. destruct acc as [stores result]. simpl. intros Hst.
  intros (result' & st1 & Hc & (r & Hb & [= -> _])%lift_opt_Some)%bind_Some.
  apply close_run_segments in Hc as (segs & Hg & Hr & Ho); [|done].
  exists segs. by rewrite (stores_of_Block_make_list _ _ Hb).
Qed.

Lemma other_elem_segments in_consume k linear lets acc (m : M CarryState Stmt) X
  st acc' st' :
  (forall st1 r st2, m st1 = Some (r, st2) ->
     exists segs, Forall (lifted_or_kept H cse_store) segs
       /\ X = concat (seg_run <$> segs)
       /\ stores_of r = concat (seg_out <$> segs)) ->
  Forall is_store acc.1 ->
  other_elem H in_consume k linear lets acc m st = Some (acc', st') ->
  exists segs,
    Forall (lifted_or_kept H cse_store) segs
    /\ acc.1 ++ X = concat (seg_run <$> segs) ++ acc'.1
    /\ flat_map stores_of acc'.2
       = flat_map stores_of acc.2 ++ concat (seg_out <$> segs)
    /\ Forall is_store acc'.1.
Proof.
  intros Hm. unfold other_elem. destruct acc as [stores result]. simpl.
  intros Hst
    (result' & st1 & Hc & (r & st2 & Hr & [= -> _]%ret_Some)%bind_Some)%bind_Some.
  apply close_run_segments in Hc as (segs1 & Hg1 & Hr1 & Ho1); [|done].
  apply Hm in Hr as (segs2 & Hg2 & Hr2 & Ho2).
  exists (segs1 ++ segs2). simpl.
  rewrite !fmap_app, !concat_app, app_nil_r.
  split; [by apply Forall_app|]. split; [by rewrite Hr1, Hr2|].
  split; [|constructor].
  rewrite flat_map_app. simpl.
  by rewrite app_nil_r, Ho1, Ho2, (assoc_L (++)).
Qed.

Lemma kept_segments s :
  exists segs, Forall (lifted_or_kept H cse_store) segs
    /\ stores_of s = concat (seg_run <$> segs)
    /\ stores_of s = concat (seg_out <$> segs).
Proof.
  exists [mkSegment (stores_of s) [] (stores_of s) []].
  unfold seg_out. simpl. rewrite !app_nil_r.
  split; [|done]. repeat constructor; by left.
Qed.

Lemma visit_elem_segments in_consume k s : forall linear lets acc st acc' st',
  Forall is_store acc.1 ->
  visit_elem H in_consume k s linear lets acc st = Some (acc', st') ->
  exists segs,
    Forall (lifted_or_kept H cse_store) segs
    /\ acc.1 ++ stores_of s = concat (seg_run <$> segs) ++ acc'.1
    /\ flat_map stores_of acc'.2
       = flat_map stores_of acc.2 ++ concat (seg_out <$> segs)
    /\ Forall is_store acc'.1.
Proof.
  assert (Hmut : forall body,
            (forall linear lets acc st acc' st',
               Forall is_store acc.1 ->
               visit_elem H in_consume k body linear lets acc st = Some (acc', st') ->
               exists segs,
                 Forall (lifted_or_kept H cse_store) segs
                 /\ acc.1 ++ stores_of body = concat (seg_run <$> segs) ++ acc'.1
                 /\ flat_map stores_of acc'.2
                    = flat_map stores_of acc.2 ++ concat (seg_out <$> segs)
                 /\ Forall is_store acc'.1) ->
            forall linear lets st out st',
              LoopCarryOverLoop_mutate H in_consume k body linear lets st
                = Some (out, st') ->
              exists segs, Forall (lifted_or_kept H cse_store) segs
                /\ stores_of body = concat (seg_run <$> segs)
                /\ stores_of out = concat (seg_out <$> segs)).
  { intros body Hb linear lets st out st'. unfold LoopCarryOverLoop_mutate.
    intros (acc & st1 & Hv & Hf)%bind_Some.
    apply Hb in Hv as (segs1 & Hg1 & Hr1 & Ho1 & Hst1); [|constructor].
    apply finish_block_segments in Hf as (segs2 & Hg2 & Hr2 & Ho2); [|done].
    exists (segs1 ++ segs2). simpl in *.
    rewrite !fmap_app, !concat_app.
    split; [by apply Forall_app|]. split; [by rewrite Hr1, Hr2|].
    by rewrite Ho2, Ho1. }
  induction s; intros linear lets acc st acc' st' Hacc.
  - rewrite visit_elem_LetStmt. apply other_elem_segments; [|done].
    intros st1 r st2 (b & st3 & Hb & [= -> _]%ret_Some)%bind_Some.
    simpl. eapply Hmut; eauto.
  - rewrite visit_elem_Store. intros [= -> _]%ret_Some.
    exists []. simpl. split; [constructor|]. split; [done|].
    split; [by rewrite app_nil_r|].
    apply Forall_app. split; [done|]. by repeat constructor.
  - rewrite visit_elem_Block. intros (acc1 & st1 & H1 & H2)%bind_Some.
    apply IHs1 in H1 as (segs1 & Hg1 & Hr1 & Ho1 & Hst1); [|done].
    apply IHs2 in H2 as (segs2 & Hg2 & Hr2 & Ho2 & Hst2); [|done].
    exists (segs1 ++ segs2). simpl.
    rewrite !fmap_app, !concat_app.
    split; [by apply Forall_app|]. split; [|split; [|done]].
    + by rewrite (assoc_L (++)), Hr1, <- (assoc_L (++)), Hr2, (assoc_L (++)).
    + by rewrite Ho2, Ho1, (assoc_L (++)).
  - rewrite visit_elem_For. apply other_elem_segments; [|done].
    intros st1 r st2 [= -> _]%ret_Some. apply kept_segments.
  - rewrite visit_elem_IfThenElse. apply other_elem_segments; [|done].
    intros st1 r st2 [= -> _]%ret_Some. apply kept_segments.
  - rewrite visit_elem_ProducerConsumer. apply other_elem_segments; [|done].
    intros st1 r st2 (b & st3 & Hb & [= -> _]%ret_Some)%bind_Some.
    simpl. eapply Hmut; eauto.
  - rewrite visit_elem_Allocate. apply other_elem_segments; [|done].
    intros st1 r st2 (b & st3 & Hb & [= -> _]%ret_Some)%bind_Some.
    simpl. eapply Hmut; eauto.
  - rewrite visit_elem_Evaluate. apply other_elem_segments; [|done].
    intros st1 r st2 [= -> _]%ret_Some. apply kept_segments.
Qed.

Lemma LoopCarryOverLoop_mutate_segments in_consume k body linear lets st out st' :
  LoopCarryOverLoop_mutate H in_consume k body linear lets st = Some (out, st') ->
  exists segs,
    stores_of body = concat (seg_run <$> segs)
    /\ stores_of out = concat (seg_out <$> segs)
    /\ Forall (lifted_or_kept H cse_store) segs.
Proof.
  unfold LoopCarryOverLoop_mutate. intros (acc & st1 & Hv & Hf)%bind_Some.
  apply visit_elem_segments in Hv as (segs1 & Hg1 & Hr1 & Ho1 & Hst1);
    [|constructor].
  apply finish_block_segments in Hf as (segs2 & Hg2 & Hr2 & Ho2); [|done].
  exists (segs1 ++ segs2). simpl in *.
  rewrite !fmap_app, !concat_app.
  split; [by rewrite Hr1, Hr2|]. split; [by rewrite Ho2, Ho1|].
  by apply Forall_app.
Qed.

End RedirectedStores.

Lemma run_contracts_plain_host : run_contracts plain_host id.
Proof.
  split; simpl.
  - induction x; simpl; try done. intros [? ?]. f_equal; auto.
  - done.
  - intros x _. by rewrite list_fmap_id.
  - done.
Qed.



(** The stores of the example: each run of [two_runs] becomes the
    leading-edge store to its scratch buffer, the store to [out] with
    both loads read from scratch, and the shuffle. *)
Lemma two_runs_stores :
  (fun r : Stmt * CarryState => stores_of r.1)
    <$> LoopCarryOverLoop_mutate plain_host [] 8 two_runs loop_scope []
          (mkCarry 0 [])
  = Some
      [leading_store "c0" 1
         (mkLoad i32 "in" (Add (var "i") (const 1)) (const_true 1) (Some "in")
                 None ModulusRemainder0);
       store "out"
         (Add (Load i32 "c0" (const 0) (const_true 1) None None ModulusRemainder0)
              (Load i32 "c0" (const 1) (const_true 1) None None ModulusRemainder0))
         (var "i");
       shuffle_store "c0" 1
         (mkLoad i32 "in" (Add (var "i") (const 1)) (const_true 1) (Some "in")
                 None ModulusRemainder0);
       leading_store "c2" 1
         (mkLoad i32 "in" (Add (var "i") (const 1)) (const_true 1) (Some "in")
                 None ModulusRemainder0);
       store "out"
         (Add (Load i32 "c2" (const 0) (const_true 1) None None ModulusRemainder0)
              (Load i32 "c2" (const 1) (const_true 1) None None ModulusRemainder0))
         (var "i");
       shuffle_store "c2" 1
         (mkLoad i32 "in" (Add (var "i") (const 1)) (const_true 1) (Some "in")
                 None ModulusRemainder0)].
Proof. vm_compute. reflexivity. Qed.
